(** * Simon Says on the STM32F411: the game loop of [Core/Src/main.cpp]

    The firmware is one polling loop around a five-state machine.  It talks
    to the board only through the HAL: it reads input pins, writes and
    toggles output pins, sleeps and reads the millisecond tick.  The model
    below keeps that shape: every HAL call is a primitive of a small state
    monad, the board's inputs are a recorded list of samples (one per pin
    read), and every HAL call leaves an event in a trace. *)

From Stdlib Require Import ZArith List Bool Lia.
From stdpp Require Import base list.
Import ListNotations.

Local Open Scope Z_scope.

(** ** Compile-time constants ([main.cpp], lines 10-27) *)

Definition MAX_LEVEL : Z := 5.
Definition GAME_SPEED_MS : Z := 500.
Definition ERROR_BLINK_MS : Z := 200.
Definition WIN_ANIMATION_MS : Z := 100.
Definition BUTTON_COUNT : Z := 4.
Definition LED_COUNT : Z := 4.

(** Pin masks of the STM32 HAL ([stm32f4xx_hal_gpio.h], pulled in through
    [main.h]): pin [k] is the bit [1 << k] of a 16-bit port register. *)
Definition GPIO_PIN_0 : Z := 0x0001.
Definition GPIO_PIN_3 : Z := 0x0008.
Definition GPIO_PIN_4 : Z := 0x0010.
Definition GPIO_PIN_5 : Z := 0x0020.
Definition GPIO_PIN_6 : Z := 0x0040.

Definition led_pins : list Z := [GPIO_PIN_3; GPIO_PIN_4; GPIO_PIN_5; GPIO_PIN_6].
Definition button_pins : list Z := [GPIO_PIN_3; GPIO_PIN_4; GPIO_PIN_5; GPIO_PIN_6].

Inductive GPIO_Port : Type := GPIOA | GPIOB.
Inductive GPIO_PinState : Type := GPIO_PIN_RESET | GPIO_PIN_SET.

(** [START_GPIO_Port] and [START_Pin] come from the generated [main.h]; the
    README's pinout puts the Start button on PA0. *)
Definition START_GPIO_Port : GPIO_Port := GPIOA.
Definition START_Pin : Z := GPIO_PIN_0.

Inductive GameState : Type := IDLE | SIMON_SAYS | PLAYER_SAYS | GAME_OVER | WIN.

(** ** Fixed-width integers *)

Definition to_uint8 (z : Z) : Z := z mod 2 ^ 8.
Definition to_uint32 (z : Z) : Z := z mod 2 ^ 32.
Definition to_int8 (z : Z) : Z := (z + 2 ^ 7) mod 2 ^ 8 - 2 ^ 7.

(** ** The random source

    [main.cpp] declares [std::mt19937 generator] and
    [std::uniform_int_distribution<uint32_t> distrib(0, 3)], both of the C++
    standard library.  The game only needs three operations of them. *)

Class Urbg : Type := {
  engine : Type;
  (** [std::mt19937 generator;] the default-constructed global *)
  engine_default : engine;
  (** [generator.seed(value)] *)
  engine_seed : Z -> engine;
  (** [distrib(generator)]: the value drawn and the advanced engine *)
  distrib : engine -> Z * engine
}.

(** What the C++ standard promises of [uniform_int_distribution(0, 3)]. *)
Definition distrib_in_range (U : Urbg) : Prop :=
  forall g : engine, 0 <= fst (distrib g) <= 3.

(** The engine the firmware links: the 32-bit Mersenne Twister of
    [rand.eng.mers] with the [mt19937] parameters, and libstdc++'s
    downscaling of a 32-bit engine to a range of four values. *)
Module Mt19937.

Record state : Type := mk { x : list Z; p : nat }.

Fixpoint fill (prev : Z) (i : Z) (count : nat) : list Z :=
  match count with
  | O => []
  | S c =>
      let v := to_uint32 (1812433253 * Z.lxor prev (Z.shiftr prev 30) + i) in
      v :: fill v (i + 1) c
  end.

Definition seed (value : Z) : state :=
  let x0 := to_uint32 value in
  {| x := x0 :: fill x0 1 623; p := 624 |}.

Definition mix (xk xk1 xkm : Z) : Z :=
  let y := Z.lor (Z.land xk 0x80000000) (Z.land xk1 0x7fffffff) in
  Z.lxor (Z.lxor xkm (Z.shiftr y 1)) (if Z.odd y then 0x9908b0df else 0).

(** The in-place regeneration of all 624 words. *)
Fixpoint gen_rand (count k : nat) (x : list Z) : list Z :=
  match count with
  | O => x
  | S c =>
      let word i := default 0 (x !! (i mod 624)%nat) in
      gen_rand c (S k) (<[k := mix (word k) (word (S k)) (word (k + 397)%nat)]> x)
  end.

Definition temper (z : Z) : Z :=
  let z := Z.lxor z (Z.land (Z.shiftr z 11) 0xffffffff) in
  let z := Z.lxor z (Z.land (to_uint32 (Z.shiftl z 7)) 0x9d2c5680) in
  let z := Z.lxor z (Z.land (to_uint32 (Z.shiftl z 15)) 0xefc60000) in
  Z.lxor z (Z.shiftr z 18).

Definition next (g : state) : Z * state :=
  let g' := if (624 <=? p g)%nat then {| x := gen_rand 624 0 (x g); p := 0 |} else g in
  (temper (default 0 (x g' !! p g')), {| x := x g'; p := S (p g') |}).

(** [uniform_int_distribution<uint32_t>(0, 3)::operator()]: the engine's
    range is all of 32 bits and the target range is 4, so the 64-bit
    product [urng() * 4] is formed and its high word returned (the
    rejection threshold [2^32 mod 4] is 0, no draw is ever rejected). *)
Definition draw (g : state) : Z * state :=
  let (r, g') := next g in
  (Z.shiftr (to_uint32 r * 4) 32, g').

End Mt19937.

#[export] Instance mt19937 : Urbg := {|
  engine := Mt19937.state;
  engine_default := Mt19937.seed 5489;
  engine_seed := Mt19937.seed;
  distrib := Mt19937.draw
|}.

(** ** The board as the firmware sees it *)

(** One reading of the board: what the input data registers of ports A and
    B show, and the tick counter, at the moment of one [HAL_GPIO_ReadPin]. *)
Record Sample : Type := mkSample { at_tick : Z; IDR_A : Z; IDR_B : Z }.

Definition IDR (port : GPIO_Port) (x : Sample) : Z :=
  match port with GPIOA => IDR_A x | GPIOB => IDR_B x end.

(** The HAL calls the game makes, in the order it makes them. *)
Inductive Event : Type :=
| ReadPin (port : GPIO_Port) (pin : Z) (level : GPIO_PinState)
| WritePin (port : GPIO_Port) (pin : Z) (level : GPIO_PinState)
| TogglePin (port : GPIO_Port) (pin : Z)
| Delay (ms : Z).

(** How a computation ends. *)
Inductive outcome (A : Type) : Type :=
| Done (a : A)     (** it returned *)
| Starved          (** it sits in a polling loop and the recorded input is used up *)
| BadIndex         (** an array subscript out of range: undefined behaviour *)
| NoFuel.          (** the model's loop budget ran out *)
Arguments Done {A} a.
Arguments Starved {A}.
Arguments BadIndex {A}.
Arguments NoFuel {A}.

Section Game.
Context {U : Urbg}.

(** The globals of [main.cpp], the local [state] of [main], and the
    board: the tick counter, the input still to come and the HAL calls
    made so far. *)
Record Sys : Type := mkSys {
  state : GameState;
  current_level : Z;
  sequence : list Z;
  generator : engine;
  uwTick : Z;
  input : list Sample;
  trace : list Event
}.

Definition M (A : Type) : Type := Sys -> outcome A * Sys.

Definition ret {A} (a : A) : M A := fun s => (Done a, s).

Definition bind {A B} (m : M A) (k : A -> M B) : M B := fun s =>
  match m s with
  | (Done a, s') => k a s'
  | (Starved, s') => (Starved, s')
  | (BadIndex, s') => (BadIndex, s')
  | (NoFuel, s') => (NoFuel, s')
  end.

Notation "x <- m ;; k" := (bind m (fun x => k))
  (at level 100, m at next level, right associativity).
Notation "m ;; k" := (bind m (fun _ => k))
  (at level 100, right associativity).

Definition get {A} (f : Sys -> A) : M A := fun s => (Done (f s), s).

Definition set_state (v : GameState) : M unit := fun s =>
  (Done tt, mkSys v (current_level s) (sequence s) (generator s) (uwTick s) (input s) (trace s)).

Definition set_current_level (v : Z) : M unit := fun s =>
  (Done tt, mkSys (state s) v (sequence s) (generator s) (uwTick s) (input s) (trace s)).

Definition set_generator (g : engine) : M unit := fun s =>
  (Done tt, mkSys (state s) (current_level s) (sequence s) g (uwTick s) (input s) (trace s)).

Definition emit (e : Event) : M unit := fun s =>
  (Done tt, mkSys (state s) (current_level s) (sequence s) (generator s) (uwTick s)
              (input s) (trace s ++ [e])).

(** The next reading of the board; the tick counter moves to the time of
    the reading.  With no reading left the caller is stuck polling. *)
Definition sample : M Sample := fun s =>
  match input s with
  | [] => (Starved, s)
  | x :: rest =>
      (Done x, mkSys (state s) (current_level s) (sequence s) (generator s) (at_tick x)
                 rest (trace s))
  end.

Definition out_of_fuel {A} : M A := fun s => (NoFuel, s).

(** A polling loop reads a pin at least once per turn, so it cannot take
    more turns than there are readings left, plus the one that starves. *)
Definition busy_budget : M nat := get (fun s => S (length (input s))).

(** *** The HAL *)

Definition pin_level (idr pin : Z) : GPIO_PinState :=
  if Z.land idr pin =? 0 then GPIO_PIN_RESET else GPIO_PIN_SET.

Definition HAL_GPIO_ReadPin (port : GPIO_Port) (pin : Z) : M GPIO_PinState :=
  x <- sample ;;
  emit (ReadPin port pin (pin_level (IDR port x) pin)) ;;
  ret (pin_level (IDR port x) pin).

Definition HAL_GPIO_WritePin (port : GPIO_Port) (pin : Z) (level : GPIO_PinState) : M unit :=
  emit (WritePin port pin level).

Definition HAL_GPIO_TogglePin (port : GPIO_Port) (pin : Z) : M unit :=
  emit (TogglePin port pin).

Definition HAL_Delay (ms : Z) : M unit := fun s =>
  (Done tt, mkSys (state s) (current_level s) (sequence s) (generator s)
              (to_uint32 (uwTick s + ms)) (input s) (trace s ++ [Delay ms])).

Definition HAL_GetTick : M Z := get uwTick.

(** *** Arrays: a subscript outside the array is [BadIndex] *)

Definition at_index (arr : list Z) (i : Z) : M Z := fun s =>
  if 0 <=? i then
    match arr !! Z.to_nat i with
    | Some v => (Done v, s)
    | None => (BadIndex, s)
    end
  else (BadIndex, s).

Definition sequence_at (i : Z) : M Z :=
  arr <- get sequence ;; at_index arr i.

Definition sequence_store (i v : Z) : M unit := fun s =>
  if (0 <=? i) && (i <? Z.of_nat (length (sequence s))) then
    (Done tt, mkSys (state s) (current_level s) (<[Z.to_nat i := v]> (sequence s))
                (generator s) (uwTick s) (input s) (trace s))
  else (BadIndex, s).

(** *** Counted loops: [for (int i = lo; ...; ++i)] over [count] values *)

Fixpoint for_up (count : nat) (i : Z) (body : Z -> M unit) : M unit :=
  match count with
  | O => ret tt
  | S c => body i ;; for_up c (i + 1) body
  end.

(** *** [GetPressedButtonIndex] (lines 45-52) *)

Fixpoint scan_from (todo : nat) (i : Z) : M Z :=
  match todo with
  | O => ret (-1)
  | S todo' =>
      pin <- at_index button_pins i ;;
      level <- HAL_GPIO_ReadPin GPIOB pin ;;
      match level with
      | GPIO_PIN_RESET => ret (to_int8 i)
      | GPIO_PIN_SET => scan_from todo' (i + 1)
      end
  end.

Definition GetPressedButtonIndex : M Z := scan_from (Z.to_nat BUTTON_COUNT) 0.

(** *** [ToggleLEDsForGameOver] (lines 57-63) *)

Definition ToggleLEDsForGameOver : M unit :=
  for_up 4 0 (fun _ =>
    p0 <- at_index led_pins 0 ;;
    p1 <- at_index led_pins 1 ;;
    p2 <- at_index led_pins 2 ;;
    p3 <- at_index led_pins 3 ;;
    HAL_GPIO_TogglePin GPIOA (Z.lor (Z.lor (Z.lor p0 p1) p2) p3) ;;
    HAL_Delay ERROR_BLINK_MS).

(** *** [RunningLightForWin] (lines 68-76) *)

Definition RunningLightForWin : M unit :=
  for_up 4 0 (fun _ =>
    for_up (Z.to_nat LED_COUNT) 0 (fun i =>
      pin <- at_index led_pins i ;;
      HAL_GPIO_WritePin GPIOA pin GPIO_PIN_SET ;;
      HAL_Delay WIN_ANIMATION_MS ;;
      pin <- at_index led_pins i ;;
      HAL_GPIO_WritePin GPIOA pin GPIO_PIN_RESET)).

(** *** [case IDLE] (lines 99-105) *)

Definition idle : M unit :=
  level <- HAL_GPIO_ReadPin START_GPIO_Port START_Pin ;;
  match level with
  | GPIO_PIN_RESET =>
      t <- HAL_GetTick ;;
      set_generator (engine_seed t) ;;
      set_current_level 0 ;;
      set_state SIMON_SAYS
  | GPIO_PIN_SET => ret tt
  end.

(** *** [case SIMON_SAYS] (lines 108-119) *)

(** [distrib(generator)]: draws a value and leaves the engine advanced. *)
Definition draw : M Z :=
  g <- get generator ;;
  set_generator (snd (distrib g)) ;;
  ret (fst (distrib g)).

Definition show (i : Z) : M unit :=
  e <- sequence_at i ;;
  pin <- at_index led_pins e ;;
  HAL_GPIO_WritePin GPIOA pin GPIO_PIN_SET ;;
  HAL_Delay GAME_SPEED_MS ;;
  e <- sequence_at i ;;
  pin <- at_index led_pins e ;;
  HAL_GPIO_WritePin GPIOA pin GPIO_PIN_RESET ;;
  HAL_Delay GAME_SPEED_MS ;;
  set_state PLAYER_SAYS.

(** The loop runs for [i = 0 .. current_level]; the level does not change
    inside it, so the count is taken on entry. *)
Definition simon_says : M unit :=
  cl <- get current_level ;;
  v <- draw ;;
  sequence_store cl v ;;
  cl <- get current_level ;;
  for_up (Z.to_nat (cl + 1)) 0 show.

(** *** [case PLAYER_SAYS] (lines 122-165) *)

(** [while (HAL_GPIO_ReadPin(GPIOB, button_pins[index]) == 0) {}] *)
Fixpoint wait_release (fuel : nat) (index : Z) : M unit :=
  match fuel with
  | O => out_of_fuel
  | S fuel' =>
      pin <- at_index button_pins index ;;
      level <- HAL_GPIO_ReadPin GPIOB pin ;;
      match level with
      | GPIO_PIN_RESET => wait_release fuel' index
      | GPIO_PIN_SET => ret tt
      end
  end.

(** How one turn of [while (!flag)] ends: with a value of [flag], or by
    the [break]. *)
Inductive turn : Type := Flag (flag : bool) | Break.

Definition poll (i : Z) : M turn :=
  index <- GetPressedButtonIndex ;;
  if 0 <=? index then
    pin <- at_index led_pins index ;;
    HAL_GPIO_WritePin GPIOA pin GPIO_PIN_SET ;;
    HAL_Delay GAME_SPEED_MS ;;
    fuel <- busy_budget ;;
    wait_release fuel index ;;
    pin <- at_index led_pins index ;;
    HAL_GPIO_WritePin GPIOA pin GPIO_PIN_RESET ;;
    HAL_Delay GAME_SPEED_MS ;;
    e <- sequence_at i ;;
    if to_uint32 index =? e then ret (Flag true)
    else set_state GAME_OVER ;; ret Break
  else ret (Flag false).

Fixpoint while_not_flag (fuel : nat) (i : Z) : M unit :=
  match fuel with
  | O => out_of_fuel
  | S fuel' =>
      t <- poll i ;;
      match t with
      | Flag true => ret tt
      | Flag false => while_not_flag fuel' i
      | Break => ret tt
      end
  end.

(** The [for] loop over the positions, left early by
    [if (state != PLAYER_SAYS) break;]. *)
Fixpoint verify_from (todo : nat) (i : Z) : M unit :=
  match todo with
  | O => ret tt
  | S todo' =>
      fuel <- busy_budget ;;
      while_not_flag fuel i ;;
      st <- get state ;;
      match st with
      | PLAYER_SAYS => verify_from todo' (i + 1)
      | _ => ret tt
      end
  end.

Definition player_says : M unit :=
  cl <- get current_level ;;
  verify_from (Z.to_nat (cl + 1)) 0 ;;
  st <- get state ;;
  match st with
  | PLAYER_SAYS =>
      cl <- get current_level ;;
      if cl =? MAX_LEVEL - 1 then set_state WIN
      else set_current_level (to_uint8 (cl + 1)) ;; set_state SIMON_SAYS
  | _ => ret tt
  end.

(** *** One turn of [while (1) { switch (state) ... }] and [n] turns *)

Definition step : M unit :=
  st <- get state ;;
  match st with
  | IDLE => idle
  | SIMON_SAYS => simon_says
  | PLAYER_SAYS => player_says
  | GAME_OVER => ToggleLEDsForGameOver ;; set_state IDLE
  | WIN => RunningLightForWin ;; set_state IDLE
  end.

Fixpoint main_loop (n : nat) : M unit :=
  match n with
  | O => ret tt
  | S n' => step ;; main_loop n'
  end.

(** The machine when [main] enters its loop: [state = IDLE], the globals
    zero-initialised, the engine default-constructed, and the board about
    to show the readings [ins]. *)
Definition boot (ins : list Sample) : Sys :=
  mkSys IDLE 0 (replicate (Z.to_nat MAX_LEVEL) 0) engine_default 0 ins [].

End Game.

Notation "x <- m ;; k" := (bind m (fun x => k))
  (at level 100, m at next level, right associativity).
Notation "m ;; k" := (bind m (fun _ => k))
  (at level 100, right associativity).

(** ** [MX_GPIO_Init] (lines 229-259) *)

Inductive GPIO_Mode : Type := GPIO_MODE_INPUT | GPIO_MODE_OUTPUT_PP.
Inductive GPIO_Pull : Type := GPIO_NOPULL | GPIO_PULLUP.
Inductive GPIO_Speed : Type := GPIO_SPEED_FREQ_LOW.

Record GPIO_InitTypeDef : Type := mkInit {
  Pin : Z;
  Mode : GPIO_Mode;
  Pull : GPIO_Pull;
  Speed : GPIO_Speed
}.

Definition set_Pin (v : Z) (i : GPIO_InitTypeDef) : GPIO_InitTypeDef :=
  mkInit v (Mode i) (Pull i) (Speed i).
Definition set_Mode (v : GPIO_Mode) (i : GPIO_InitTypeDef) : GPIO_InitTypeDef :=
  mkInit (Pin i) v (Pull i) (Speed i).
Definition set_Pull (v : GPIO_Pull) (i : GPIO_InitTypeDef) : GPIO_InitTypeDef :=
  mkInit (Pin i) (Mode i) v (Speed i).
Definition set_Speed (v : GPIO_Speed) (i : GPIO_InitTypeDef) : GPIO_InitTypeDef :=
  mkInit (Pin i) (Mode i) (Pull i) v.

(** The peripheral clocks [MX_GPIO_Init] switches on. *)
Inductive RCC_Clock : Type := RCC_GPIOA | RCC_GPIOB | RCC_GPIOH.

(** The calls of the bring-up, in the order they are made. *)
Inductive Setup : Type :=
| CLK_ENABLE (clock : RCC_Clock)
| Level (e : Event)
| HAL_GPIO_Init (port : GPIO_Port) (init : GPIO_InitTypeDef).

(** [GPIO_InitTypeDef GPIO_InitStruct = { 0 }]: every field zero, which is
    input mode, no pull and low speed. *)
Definition zero_init : GPIO_InitTypeDef :=
  mkInit 0 GPIO_MODE_INPUT GPIO_NOPULL GPIO_SPEED_FREQ_LOW.

(** The one [GPIO_InitStruct] is filled in and handed to [HAL_GPIO_Init]
    three times; a field not assigned again keeps its value. *)
Definition MX_GPIO_Init : list Setup :=
  let GPIO_InitStruct := zero_init in
  let clocks := [CLK_ENABLE RCC_GPIOH; CLK_ENABLE RCC_GPIOA; CLK_ENABLE RCC_GPIOB] in
  let levels :=
    [Level (WritePin GPIOA
              (Z.lor (Z.lor (Z.lor GPIO_PIN_3 GPIO_PIN_4) GPIO_PIN_5) GPIO_PIN_6)
              GPIO_PIN_RESET)] in
  let GPIO_InitStruct := set_Pin START_Pin GPIO_InitStruct in
  let GPIO_InitStruct := set_Mode GPIO_MODE_INPUT GPIO_InitStruct in
  let GPIO_InitStruct := set_Pull GPIO_PULLUP GPIO_InitStruct in
  let start := [HAL_GPIO_Init START_GPIO_Port GPIO_InitStruct] in
  let GPIO_InitStruct :=
    set_Pin (Z.lor (Z.lor (Z.lor GPIO_PIN_3 GPIO_PIN_4) GPIO_PIN_5) GPIO_PIN_6)
      GPIO_InitStruct in
  let GPIO_InitStruct := set_Mode GPIO_MODE_OUTPUT_PP GPIO_InitStruct in
  let GPIO_InitStruct := set_Pull GPIO_NOPULL GPIO_InitStruct in
  let GPIO_InitStruct := set_Speed GPIO_SPEED_FREQ_LOW GPIO_InitStruct in
  let leds := [HAL_GPIO_Init GPIOA GPIO_InitStruct] in
  let GPIO_InitStruct :=
    set_Pin (Z.lor (Z.lor (Z.lor GPIO_PIN_3 GPIO_PIN_4) GPIO_PIN_5) GPIO_PIN_6)
      GPIO_InitStruct in
  let GPIO_InitStruct := set_Mode GPIO_MODE_INPUT GPIO_InitStruct in
  let GPIO_InitStruct := set_Pull GPIO_PULLUP GPIO_InitStruct in
  let buttons := [HAL_GPIO_Init GPIOB GPIO_InitStruct] in
  clocks ++ levels ++ start ++ leds ++ buttons.

(** *** Reading the bring-up *)

Definition clock_of (port : GPIO_Port) : RCC_Clock :=
  match port with GPIOA => RCC_GPIOA | GPIOB => RCC_GPIOB end.

Definition same_clock (a b : RCC_Clock) : bool :=
  match a, b with
  | RCC_GPIOA, RCC_GPIOA | RCC_GPIOB, RCC_GPIOB | RCC_GPIOH, RCC_GPIOH => true
  | _, _ => false
  end.

Definition same_port (a b : GPIO_Port) : bool :=
  match a, b with
  | GPIOA, GPIOA | GPIOB, GPIOB => true
  | _, _ => false
  end.

Definition clocked (calls : list Setup) (port : GPIO_Port) : bool :=
  existsb (fun c => match c with
                    | CLK_ENABLE clock => same_clock clock (clock_of port)
                    | _ => false
                    end) calls.

(** No port is written or configured before its clock runs. *)
Fixpoint clocks_first (before calls : list Setup) : bool :=
  match calls with
  | [] => true
  | c :: calls' =>
      match c with
      | CLK_ENABLE _ => true
      | Level (ReadPin port _ _) | Level (WritePin port _ _) | Level (TogglePin port _)
      | HAL_GPIO_Init port _ => clocked before port
      | Level (Delay _) => true
      end && clocks_first (before ++ [c]) calls'
  end.

(** How pin number [bit] of [port] is left configured: [HAL_GPIO_Init]
    configures the pins whose bits are set in [Pin], and the last call
    that names a pin wins. *)
Definition pin_config (calls : list Setup) (port : GPIO_Port) (bit : Z)
  : option (GPIO_Mode * GPIO_Pull) :=
  fold_left (fun cfg c =>
               match c with
               | HAL_GPIO_Init p init =>
                   if same_port p port && Z.testbit (Pin init) bit
                   then Some (Mode init, Pull init) else cfg
               | _ => cfg
               end) calls None.

Definition levels_of (calls : list Setup) : list Event :=
  omap (fun c => match c with Level e => Some e | _ => None end) calls.

(** Every pin of the mask [pin] on [port] is configured as [cfg]. *)
Definition configured (calls : list Setup) (port : GPIO_Port) (pin : Z)
    (cfg : GPIO_Mode * GPIO_Pull) : bool :=
  forallb (fun bit =>
             implb (Z.testbit pin bit)
               match pin_config calls port bit with
               | Some (m, p) =>
                   match m, cfg.1 with
                   | GPIO_MODE_INPUT, GPIO_MODE_INPUT
                   | GPIO_MODE_OUTPUT_PP, GPIO_MODE_OUTPUT_PP => true
                   | _, _ => false
                   end &&
                   match p, cfg.2 with
                   | GPIO_NOPULL, GPIO_NOPULL | GPIO_PULLUP, GPIO_PULLUP => true
                   | _, _ => false
                   end
               | None => false
               end)
          (map Z.of_nat (seq 0 16)).

(** The bring-up [calls] prepared the board for the HAL call [e]: the
    port's clock runs, a pin that is read is a pulled-up input, a pin that
    is driven is a push-pull output. *)
Definition prepared (calls : list Setup) (e : Event) : bool :=
  match e with
  | ReadPin port pin _ =>
      clocked calls port && configured calls port pin (GPIO_MODE_INPUT, GPIO_PULLUP)
  | WritePin port pin _ | TogglePin port pin =>
      clocked calls port && configured calls port pin (GPIO_MODE_OUTPUT_PP, GPIO_NOPULL)
  | Delay _ => true
  end.

(** ** Reading a trace *)

Definition is_read (e : Event) : Prop :=
  match e with ReadPin _ _ _ => True | _ => False end.

(** The pin mask at position [k] of a pin table. *)
Definition pin_of (pins : list Z) (k : Z) : Z := default 0 (pins !! Z.to_nat k).

(** The position of a pin mask in a pin table. *)
Fixpoint index_of (pin : Z) (pins : list Z) (i : Z) : option Z :=
  match pins with
  | [] => None
  | q :: pins' => if pin =? q then Some i else index_of pin pins' (i + 1)
  end.

(** A press the game registered: it lights the LED of the button it read
    as pressed, and does so once per press. *)
Definition press_of (e : Event) : option Z :=
  match e with
  | WritePin GPIOA pin GPIO_PIN_SET => index_of pin led_pins 0
  | _ => None
  end.

Definition presses (evs : list Event) : list Z := omap press_of evs.

(** The output data register of port A after one more HAL call. *)
Definition drive (odr : Z) (e : Event) : Z :=
  match e with
  | WritePin GPIOA pin GPIO_PIN_SET => Z.lor odr pin
  | WritePin GPIOA pin GPIO_PIN_RESET => Z.ldiff odr pin
  | TogglePin GPIOA pin => Z.lxor odr pin
  | _ => odr
  end.

Definition ODR_after (odr : Z) (evs : list Event) : Z := fold_left drive evs odr.

(** How many of the four LEDs a register value lights. *)
Definition leds_lit (odr : Z) : nat :=
  length (List.filter (fun pin => negb (Z.land odr pin =? 0)) led_pins).

(** All four LED pins at once, the mask [ToggleLEDsForGameOver] toggles. *)
Definition ALL_LEDS : Z := 0x0078.

(** [P] holds of the register after every event of [evs], starting from
    the register value [odr]. *)
Fixpoint always (P : Z -> Prop) (odr : Z) (evs : list Event) : Prop :=
  match evs with
  | [] => True
  | e :: evs' => P (drive odr e) /\ always P (drive odr e) evs'
  end.

(** At most one LED is lit along [evs]. *)
Definition single : Z -> list Event -> Prop :=
  always (fun odr => (leds_lit odr <= 1)%nat).

(** A value that indexes [led_pins]. *)
Definition in_range (v : Z) : Prop := 0 <= v <= 3.

(** Button [k] reads as pressed (active low) in the reading [x]. *)
Definition held (k : Z) (x : Sample) : Prop :=
  pin_level (IDR_B x) (pin_of button_pins k) = GPIO_PIN_RESET.

(** Button [k] reads as pressed in the port-B value [b]. *)
Definition active (b : Z) (k : Z) : bool := Z.land b (pin_of button_pins k) =? 0.

(** The reads of one scan that stops after [count] buttons. *)
Definition scan_reads (b : Z) (count : nat) : list Event :=
  map (fun j => ReadPin GPIOB (pin_of button_pins j) (pin_level b (pin_of button_pins j)))
      (map Z.of_nat (seq 0 count)).

(** What [PLAYER_SAYS] does from the moment the scan found button [k] to
    the moment it compares: LED on, 500 ms, [n] reads that find the button
    still down, the read that finds it released, LED off, 500 ms. *)
Definition press_events (k : Z) (n : nat) : list Event :=
  [WritePin GPIOA (pin_of led_pins k) GPIO_PIN_SET; Delay GAME_SPEED_MS]
  ++ replicate n (ReadPin GPIOB (pin_of button_pins k) GPIO_PIN_RESET)
  ++ [ReadPin GPIOB (pin_of button_pins k) GPIO_PIN_SET;
      WritePin GPIOA (pin_of led_pins k) GPIO_PIN_RESET; Delay GAME_SPEED_MS].

(** The same, cut short while the button is still down. *)
Definition held_events (k : Z) (n : nat) : list Event :=
  [WritePin GPIOA (pin_of led_pins k) GPIO_PIN_SET; Delay GAME_SPEED_MS]
  ++ replicate n (ReadPin GPIOB (pin_of button_pins k) GPIO_PIN_RESET).

(** One registered press of button [k]: the scans that led to it and its
    [press_events]. *)
Definition pressed (k : Z) (evs : list Event) : Prop :=
  0 <= k <= 3 /\ exists scan n, Forall is_read scan /\ evs = scan ++ press_events k n.

(** What a starved round leaves behind: scans that found nothing, or a
    button that is still held down. *)
Definition stalled (evs : list Event) : Prop :=
  Forall is_read evs \/
  exists k scan n, 0 <= k <= 3 /\ Forall is_read scan /\ evs = scan ++ held_events k n.

(** The presses of a run of rounds, one after the other. *)
Inductive rounds : list Z -> list Event -> Prop :=
| rounds_nil : rounds [] []
| rounds_cons k ks e evs : pressed k e -> rounds ks evs -> rounds (k :: ks) (e ++ evs).

(** One demonstration pulse of LED [e]: on, wait, off, wait. *)
Definition pulse (e : Z) : list Event :=
  [WritePin GPIOA (pin_of led_pins e) GPIO_PIN_SET; Delay GAME_SPEED_MS;
   WritePin GPIOA (pin_of led_pins e) GPIO_PIN_RESET; Delay GAME_SPEED_MS].

(** The values a counted loop's index takes. *)
Fixpoint upto (count : nat) (i : Z) : list Z :=
  match count with
  | O => []
  | S c => i :: upto c (i + 1)
  end.

(** The loss animation: four toggles of all LEDs, 200 ms apart. *)
Definition loss_flash : list Event :=
  concat (replicate 4 [TogglePin GPIOA ALL_LEDS; Delay ERROR_BLINK_MS]).

(** The win animation: four passes of a light running over the LEDs. *)
Definition blink (k : Z) : list Event :=
  [WritePin GPIOA (pin_of led_pins k) GPIO_PIN_SET; Delay WIN_ANIMATION_MS;
   WritePin GPIOA (pin_of led_pins k) GPIO_PIN_RESET].

Definition running_light : list Event :=
  flat_map (fun _ => flat_map blink (upto 4 0)) (upto 4 0).

(** A reading with port A, the port of the Start button, blanked out. *)
Definition hide_port_A (x : Sample) : Sample := mkSample (at_tick x) 0 (IDR_B x).

Section Views.
Context {U : Urbg}.

(** [s] after HAL calls only: the tick, the input and the trace moved. *)
Definition board (s : Sys) (tick : Z) (rest : list Sample) (evs : list Event) : Sys :=
  mkSys (state s) (current_level s) (sequence s) (generator s) tick rest (trace s ++ evs).

Definition with_state (st : GameState) (s : Sys) : Sys :=
  mkSys st (current_level s) (sequence s) (generator s) (uwTick s) (input s) (trace s).

Definition with_level (v : Z) (s : Sys) : Sys :=
  mkSys (state s) v (sequence s) (generator s) (uwTick s) (input s) (trace s).

Definition with_input (ins : list Sample) (s : Sys) : Sys :=
  mkSys (state s) (current_level s) (sequence s) (generator s) (uwTick s) ins (trace s).

(** Where a fully reproduced prefix leads (lines 157-164). *)
Definition next_round (s : Sys) : Sys :=
  if current_level s =? MAX_LEVEL - 1 then with_state WIN s
  else with_state SIMON_SAYS (with_level (current_level s + 1) s).

(** What [poll] does once the scan has found button [index]. *)
Definition echo (i index : Z) : M turn :=
  pin <- at_index led_pins index ;;
  HAL_GPIO_WritePin GPIOA pin GPIO_PIN_SET ;;
  HAL_Delay GAME_SPEED_MS ;;
  fuel <- busy_budget ;;
  wait_release fuel index ;;
  pin <- at_index led_pins index ;;
  HAL_GPIO_WritePin GPIOA pin GPIO_PIN_RESET ;;
  HAL_Delay GAME_SPEED_MS ;;
  e <- sequence_at i ;;
  if to_uint32 index =? e then ret (Flag true)
  else set_state GAME_OVER ;; ret Break.

(** What the loop maintains: the level indexes the array, the array has
    its five cells, and every cell holds an LED index. *)
Definition wf (s : Sys) : Prop :=
  0 <= current_level s < MAX_LEVEL /\
  length (sequence s) = Z.to_nat MAX_LEVEL /\
  Forall in_range (sequence s).

Definition blind (s : Sys) : Sys := with_input (map hide_port_A (input s)) s.

(** [m] never looks at port A: it runs the same on the blanked input. *)
Definition port_A_blind {A} (m : M A) : Prop :=
  forall s, m (blind s) = ((m s).1, blind (m s).2).

End Views.

(** ** A recorded session

    Readings of a board with pull-ups: an idle pin reads high.  With the
    Start button pressed at tick 1234 the engine draws 0, 1, 2, 3, 1. *)

(** Port B with every button up: PB3 to PB6 read high. *)
Definition ALL_BUTTONS : Z := 0x0078.

Definition released_board : Sample := mkSample 0 GPIO_PIN_0 ALL_BUTTONS.
Definition start_pressed (t : Z) : Sample := mkSample t 0 ALL_BUTTONS.
Definition button_down (k : Z) : Sample :=
  mkSample 0 GPIO_PIN_0 (Z.ldiff ALL_BUTTONS (pin_of button_pins k)).

(** Button [k] goes down, stays down over [hold] more reads, and is let go:
    the scan needs [k + 1] reads to reach it. *)
Definition gesture (k : Z) (hold : nat) : list Sample :=
  replicate (Z.to_nat k + 1 + hold) (button_down k) ++ [released_board].

(** A run of gestures, each button with its own hold. *)
Definition plays (gs : list (Z * nat)) : list Sample :=
  flat_map (fun g => gesture g.1 g.2) gs.

Definition play (ks : list Z) : list Sample := plays (map (fun k => (k, 2%nat)) ks).

(** All five rounds reproduced. *)
Definition won_game : list Sample :=
  start_pressed 1234
  :: play [0] ++ play [0; 1] ++ play [0; 1; 2] ++ play [0; 1; 2; 3]
  ++ play [0; 1; 2; 3; 1].

(** The third press of round three is wrong. *)
Definition lost_game : list Sample :=
  start_pressed 1234 :: play [0] ++ play [0; 1] ++ play [0; 1; 3] ++ play [2].

(** Buttons 1 and 3 down at once. *)
Definition two_down : Sample := mkSample 0 GPIO_PIN_0 0x0028.

(** The machine of the recorded sessions after [n] turns of the loop. *)
Definition won_after (n : nat) : Sys := (@main_loop mt19937 n (boot won_game)).2.
Definition lost_after (n : nat) : Sys := (@main_loop mt19937 n (boot lost_game)).2.

(** ** The pins the game is wired for *)

(** The HAL calls the wiring allows: reads of the Start pin on port A and
    of the button pins on port B, writes of single LED pins and toggles of
    all four on port A, and the three delays. *)
Definition wired (e : Event) : Prop :=
  match e with
  | ReadPin GPIOA pin _ => pin = START_Pin
  | ReadPin GPIOB pin _ => pin ∈ button_pins
  | WritePin GPIOA pin _ => pin ∈ led_pins
  | TogglePin GPIOA pin => pin = ALL_LEDS
  | WritePin GPIOB _ _ => False
  | TogglePin GPIOB _ => False
  | Delay ms => ms ∈ [GAME_SPEED_MS; ERROR_BLINK_MS; WIN_ANIMATION_MS]
  end.

(** A reading with port B, the port of the four buttons, blanked out. *)
Definition hide_port_B (x : Sample) : Sample := mkSample (at_tick x) (IDR_A x) 0.

(** No button reads as pressed in the reading [x]. *)
Definition quiet (x : Sample) : Prop := forall k, 0 <= k <= 3 -> ~ held k x.

(** The time a run of HAL calls spends in [HAL_Delay], in milliseconds. *)
Definition duration (evs : list Event) : Z :=
  fold_right (fun e ms => match e with Delay d => d + ms | _ => ms end) 0 evs.

(** The reads of one scan over the readings [used]: button [j] is read in
    the [j]-th of them. *)
Definition scan_of (used : list Sample) : list Event :=
  imap (fun j x =>
          ReadPin GPIOB (pin_of button_pins (Z.of_nat j))
            (pin_level (IDR_B x) (pin_of button_pins (Z.of_nat j)))) used.

(** The Start press that opens a session, as it shows in the trace. *)
Definition start_read : Event := ReadPin GPIOA START_Pin GPIO_PIN_RESET.

(** The HAL calls of the first [n] rounds of a session on the sequence
    [sq], each round reproduced: round [k] shows [sq[0..k]] and is answered
    by presses of the same buttons. *)
Inductive session (sq : list Z) : nat -> list Event -> Prop :=
| session_start : session sq 0 []
| session_round n evs echo :
    session sq n evs -> rounds (take (S n) sq) echo ->
    session sq (S n) (evs ++ flat_map pulse (take (S n) sq) ++ echo).

Section Sessions.
Context {U : Urbg}.

(** [m] uses up a prefix of the readings, adds only wired calls to the
    trace, and what it returns satisfies [Q]. *)
Definition keeps {A} (Q : A -> Prop) (m : M A) : Prop :=
  forall s, exists used evs,
    input s = used ++ input (m s).2 /\
    trace (m s).2 = trace s ++ evs /\
    Forall wired evs /\
    forall a, (m s).1 = Done a -> Q a.

(** [m] does not look at the readings at all. *)
Definition input_free {A} (m : M A) : Prop :=
  forall s ins, m (with_input ins s) = ((m s).1, with_input ins (m s).2).

(** The first [n] values [distrib] draws from the engine [g], and the
    engine after them. *)
Fixpoint draws (n : nat) (g : engine) : list Z :=
  match n with
  | O => []
  | S n' => (distrib g).1 :: draws n' (distrib g).2
  end.

Fixpoint advance (n : nat) (g : engine) : engine :=
  match n with
  | O => g
  | S n' => advance n' (distrib g).2
  end.

(** How many values the session in progress has drawn: one per round
    demonstrated. *)
Definition drawn (s : Sys) : nat :=
  match state s with
  | IDLE => 0
  | SIMON_SAYS => Z.to_nat (current_level s)
  | _ => Z.to_nat (current_level s + 1)
  end.

(** The session in progress in [s] plays the stream of the engine seeded
    with [t]. *)
Definition seeded_by (t : Z) (s : Sys) : Prop :=
  take (drawn s) (sequence s) = draws (drawn s) (engine_seed t) /\
  generator s = advance (drawn s) (engine_seed t).

(** Where the trace of a machine inside a session stands: after the Start
    press come the rounds reproduced so far and, in PLAYER_SAYS, the
    demonstration of the round being played. *)
Definition in_session (r : outcome unit) (s : Sys) : Prop :=
  match state s with
  | SIMON_SAYS =>
      r = Done tt ->
      exists pre evs,
        trace s = pre ++ start_read :: evs /\
        session (sequence s) (Z.to_nat (current_level s)) evs
  | PLAYER_SAYS =>
      r = Done tt ->
      exists pre evs,
        trace s =
          pre ++ start_read :: evs
          ++ flat_map pulse (take (Z.to_nat (current_level s + 1)) (sequence s)) /\
        session (sequence s) (Z.to_nat (current_level s)) evs
  | WIN =>
      exists pre evs,
        trace s = pre ++ start_read :: evs /\
        session (sequence s) (Z.to_nat MAX_LEVEL) evs
  | _ => True
  end.

End Sessions.

(** ** Presses as the readings show them *)

(** The readings of a scan that finds no button down: four readings, the
    [j]-th showing button [j] up. *)
Definition scan_misses (u : list Sample) : Prop :=
  length u = 4%nat /\
  forall (j : nat) x, u !! j = Some x -> ~ held (Z.of_nat j) x.

(** The readings of the scan that finds button [k]: each of the first [k]
    shows its own button up, the next one shows button [k] down. *)
Definition scan_hits (k : Z) (u : list Sample) : Prop :=
  length u = Z.to_nat (k + 1) /\
  (exists x, u !! Z.to_nat k = Some x /\ held k x) /\
  forall (j : nat) x, (j < Z.to_nat k)%nat -> u !! j = Some x -> ~ held (Z.of_nat j) x.

(** Button [k] found down, kept down over the readings [hold] and then
    read released. *)
Definition press_found (k : Z) (u : list Sample) : Prop :=
  0 <= k <= 3 /\
  exists hit hold rel,
    u = hit ++ hold ++ [rel] /\
    scan_hits k hit /\ Forall (held k) hold /\ ~ held k rel.

(** One press of button [k] as the player makes it: scans that find
    nothing, then the press. *)
Definition press_shown (k : Z) (u : list Sample) : Prop :=
  exists misses v,
    u = concat misses ++ v /\ Forall scan_misses misses /\ press_found k v.

(** The readings show presses of the buttons [ks], one after the other
    and nothing else. *)
Inductive shows : list Z -> list Sample -> Prop :=
| shows_nil : shows [] []
| shows_cons k ks u used :
    press_shown k u -> shows ks used -> shows (k :: ks) (u ++ used).

(** ** How the proofs run the code

    [simpl] runs the primitives of the monad; the loops and the handlers
    are opened by hand, through their unfolding equations. *)

Arguments bind {U A B} m k s /.
Arguments ret {U A} a s /.
Arguments get {U A} f s /.
Arguments at_index {U} arr i s /.
Arguments HAL_GPIO_ReadPin {U} port pin s /.
Arguments HAL_GPIO_WritePin {U} port pin level s /.
Arguments HAL_GPIO_TogglePin {U} port pin s /.
Arguments HAL_Delay {U} ms s /.
Arguments HAL_GetTick {U} s /.
Arguments sample {U} s /.
Arguments emit {U} e s /.
Arguments set_state {U} v s /.
Arguments set_current_level {U} v s /.
Arguments set_generator {U} g s /.
Arguments out_of_fuel {U A} s /.
Arguments busy_budget {U} s /.
Arguments sequence_at {U} i s /.
Arguments sequence_store {U} i v s /.
Arguments draw {U} s /.

#[local] Arguments Z.eqb : simpl never.
Arguments GetPressedButtonIndex {U} s : simpl never.
Arguments wait_release {U} fuel index s : simpl never.
Arguments while_not_flag {U} fuel i s : simpl never.
Arguments verify_from {U} todo i s : simpl never.
Arguments poll {U} i s : simpl never.
Arguments show {U} i s : simpl never.
Arguments idle {U} s : simpl never.
Arguments simon_says {U} s : simpl never.
Arguments player_says {U} s : simpl never.
Arguments ToggleLEDsForGameOver {U} s : simpl never.
Arguments RunningLightForWin {U} s : simpl never.
Arguments step {U} s : simpl never.
Arguments main_loop {U} n s : simpl never.

Section Proofs.
Context {U : Urbg}.

Lemma board_nil s : board s (uwTick s) (input s) [] = s.
Proof. destruct s; unfold board; simpl. now rewrite app_nil_r. Qed.

Lemma board_board s t1 r1 e1 t2 r2 e2 :
  board (board s t1 r1 e1) t2 r2 e2 = board s t2 r2 (e1 ++ e2).
Proof. unfold board; simpl. now rewrite app_assoc. Qed.

Ltac close_run :=
  unfold board, pin_of; simpl; rewrite <- ?app_assoc; simpl;
  first [reflexivity | rewrite app_nil_r; reflexivity].

Lemma GetPressedButtonIndex_spec s :
  exists r tick rest evs,
    GetPressedButtonIndex s = (r, board s tick rest evs) /\
    Forall is_read evs /\
    match r with
    | Done k => (k = -1 \/ 0 <= k <= 3) /\ (length rest < length (input s))%nat
    | Starved => rest = []
    | _ => False
    end.
Proof.
  destruct s as [st cl sq g tk ins tr].
  unfold GetPressedButtonIndex, BUTTON_COUNT. change (Z.to_nat 4) with 4%nat.
  simpl.
  repeat (match goal with
    | |- context [match ?l with [] => _ | _ :: _ => _ end] => is_var l; destruct l as [|? l]; simpl
    | |- context [pin_level ?a ?b] => destruct (pin_level a b); simpl
    end).
  all: do 4 eexists; split; [close_run|]; (split; [repeat constructor | simpl; try lia; try reflexivity]).
  all: split; [ vm_compute; intuition congruence | lia].
Qed.

Lemma wait_release_S fuel index :
  wait_release (S fuel) index =
  bind (at_index button_pins index) (fun pin =>
    bind (HAL_GPIO_ReadPin GPIOB pin) (fun level =>
      match level with
      | GPIO_PIN_RESET => wait_release fuel index
      | GPIO_PIN_SET => ret tt
      end)).
Proof. reflexivity. Qed.

Lemma small_index k : 0 <= k <= 3 -> k = 0 \/ k = 1 \/ k = 2 \/ k = 3.
Proof. lia. Qed.

Ltac same_trace :=
  unfold board, with_state, press_events, held_events, pin_of; simpl;
  rewrite ?app_nil_r; rewrite <- ?app_assoc; simpl; reflexivity.

Ltac each_index k H :=
  destruct (small_index k H) as [?|[?|[?|?]]]; subst k.

Lemma wait_release_spec fuel k s :
  0 <= k <= 3 -> (length (input s) < fuel)%nat ->
  exists r tick rest hold,
    wait_release fuel k s =
      (r, board s tick rest
            (replicate (length hold) (ReadPin GPIOB (pin_of button_pins k) GPIO_PIN_RESET)
             ++ match r with Done _ => [ReadPin GPIOB (pin_of button_pins k) GPIO_PIN_SET]
                           | _ => [] end)) /\
    Forall (held k) hold /\
    match r with
    | Done _ => exists rel, input s = hold ++ rel :: rest /\ ~ held k rel /\ tick = at_tick rel
    | Starved => input s = hold /\ rest = []
    | _ => False
    end.
Proof.
  intros Hk. revert s. induction fuel as [|fuel IH]; intros s Hlen; [lia|].
  rewrite wait_release_S. destruct s as [st cl sq g tk ins tr].
  each_index k Hk; simpl.
  all: destruct ins as [|x ins]; simpl;
    [ exists Starved, tk, [], []; split; [close_run|]; split; [constructor|by split] |].
  all: match goal with |- context [pin_level ?a ?b] => destruct (pin_level a b) eqn:Hlvl end; simpl.
  all: try (exists (Done tt), (at_tick x), ins, []; split; [close_run|];
       split; [apply List.Forall_nil|]; exists x; split; [reflexivity|]; split; [|reflexivity];
       unfold held, pin_of; simpl; congruence).
  all: match goal with |- context [wait_release _ _ ?s1] =>
         destruct (IH s1) as (r & tick & rest & hold & E & Hh & Hr); [simpl in *; lia|];
         rewrite E; exists r, tick, rest, (x :: hold) end.
  all: split; [close_run|]; split; [apply List.Forall_cons; [exact Hlvl|exact Hh]|].
  all: destruct r; try exact Hr; simpl in *.
  all: try (destruct Hr as (rel & -> & ? & ?); exists rel; by repeat split).
  all: destruct Hr as [-> ->]; by split.
Qed.


Lemma poll_unfold i :
  poll i =
  bind GetPressedButtonIndex (fun index =>
    if 0 <=? index then echo i index else ret (Flag false)).
Proof. reflexivity. Qed.

Lemma echo_spec i e k s :
  0 <= i -> sequence s !! Z.to_nat i = Some e -> 0 <= k <= 3 ->
  exists r tick rest hold,
    Forall (held k) hold /\
    match r with
    | Done t =>
        (exists rel, input s = hold ++ rel :: rest /\ ~ held k rel) /\
        ((k = e /\ t = Flag true /\
          echo i k s = (r, board s tick rest (press_events k (length hold)))) \/
         (k <> e /\ t = Break /\
          echo i k s =
            (r, with_state GAME_OVER (board s tick rest (press_events k (length hold))))))
    | Starved =>
        input s = hold /\ rest = [] /\
        echo i k s = (r, board s tick rest (held_events k (length hold)))
    | _ => False
    end.
Proof.
  intros Hi He Hk. unfold echo.
  each_index k Hk; simpl.
  all: match goal with |- context [wait_release ?f ?k ?s2] =>
     destruct (wait_release_spec f k s2) as (r & tick & rest & hold & E & Hh & Hr);
       [lia | simpl; lia |]; rewrite E; clear E end.
  all: destruct r as [[]| | |]; simpl; try contradiction.
  all: try (destruct (Z.leb_spec 0 i); [|lia]; rewrite He; simpl).
  all: try match goal with |- context [?a =? ?b] =>
         destruct (Z.eqb_spec a b) as [Heq|Hne]; simpl end.
  all: simpl in Hr.
  all: try (change (to_uint32 0) with 0 in *; change (to_uint32 1) with 1 in *;
            change (to_uint32 2) with 2 in *; change (to_uint32 3) with 3 in * ).
  all: match goal with
    | |- context [(Done (Flag true), _)] =>
        destruct Hr as (rel & Hin & Hnh & ->);
        exists (Done (Flag true)), (to_uint32 (at_tick rel + GAME_SPEED_MS)), rest, hold;
        split; [exact Hh|]; split; [by exists rel|]; left;
        split; [exact Heq|]; split; [reflexivity|same_trace]
    | |- context [(Done Break, _)] =>
        destruct Hr as (rel & Hin & Hnh & ->);
        exists (Done Break), (to_uint32 (at_tick rel + GAME_SPEED_MS)), rest, hold;
        split; [exact Hh|]; split; [by exists rel|]; right;
        split; [exact Hne|]; split; [reflexivity|same_trace]
    | |- context [(Starved, _)] =>
        destruct Hr as [Hin ->];
        exists Starved, tick, [], hold;
        split; [exact Hh|]; split; [exact Hin|]; split; [reflexivity|same_trace]
    end.
Qed.

Lemma poll_spec i e s :
  0 <= i -> sequence s !! Z.to_nat i = Some e ->
  exists r tick rest evs,
    match r with
    | Done (Flag false) =>
        poll i s = (r, board s tick rest evs) /\ Forall is_read evs /\
        (length rest < length (input s))%nat
    | Done (Flag true) =>
        poll i s = (r, board s tick rest evs) /\ pressed e evs /\
        (length rest < length (input s))%nat
    | Done Break =>
        poll i s = (r, with_state GAME_OVER (board s tick rest evs)) /\
        (exists k, k <> e /\ pressed k evs) /\
        (length rest < length (input s))%nat
    | Starved =>
        poll i s = (r, board s tick rest evs) /\ stalled evs /\ rest = []
    | _ => False
    end.
Proof.
  intros Hi He.
  destruct (GetPressedButtonIndex_spec s) as (r0 & t0 & rest0 & ev0 & E0 & Hrd & Hr0).
  rewrite poll_unfold. simpl. rewrite E0.
  destruct r0 as [k| | |]; simpl; try contradiction.
  - destruct Hr0 as [[->|Hk] Hlen].
    + simpl. exists (Done (Flag false)), t0, rest0, ev0. done.
    + destruct (Z.leb_spec 0 k); [|lia].
      destruct (echo_spec i e k (board s t0 rest0 ev0) Hi He Hk)
        as (r & tick & rest & hold & Hh & Hr).
      destruct r as [t| | |]; try contradiction.
      * destruct Hr as [(rel & Hin & Hnh) [(Heq & -> & ->)|(Hne & -> & ->)]];
          simpl in Hin; apply (f_equal length) in Hin; rewrite length_app in Hin;
          simpl in Hin; rewrite board_board.
        -- exists (Done (Flag true)), tick, rest, (ev0 ++ press_events k (length hold)).
           split; [done|]. split; [|lia]. rewrite <- Heq. split; [lia|].
           by exists ev0, (length hold).
        -- exists (Done Break), tick, rest, (ev0 ++ press_events k (length hold)).
           split; [done|]. split; [|lia]. exists k. split; [done|].
           split; [lia|]. by exists ev0, (length hold).
      * destruct Hr as (Hin & -> & ->). rewrite board_board.
        exists Starved, tick, [], (ev0 ++ held_events k (length hold)).
        split; [done|]. split; [|done]. right. by exists k, ev0, (length hold).
  - exists Starved, t0, rest0, ev0. split; [done|]. split; [by left|done].
Qed.

Lemma pressed_after_reads k rd evs :
  Forall is_read rd -> pressed k evs -> pressed k (rd ++ evs).
Proof.
  intros Hrd [Hk (scan & n & Hs & ->)]. split; [exact Hk|].
  exists (rd ++ scan), n. split; [by apply Forall_app|by rewrite app_assoc].
Qed.

Lemma stalled_after_reads rd evs :
  Forall is_read rd -> stalled evs -> stalled (rd ++ evs).
Proof.
  intros Hrd [Hs|(k & scan & n & Hk & Hs & ->)].
  - left. by apply Forall_app.
  - right. exists k, (rd ++ scan), n. split; [exact Hk|].
    split; [by apply Forall_app|by rewrite app_assoc].
Qed.

Lemma while_not_flag_S fuel i :
  while_not_flag (S fuel) i =
  bind (poll i) (fun t =>
    match t with
    | Flag true => ret tt
    | Flag false => while_not_flag fuel i
    | Break => ret tt
    end).
Proof. reflexivity. Qed.

Lemma while_not_flag_spec fuel i e s :
  0 <= i -> sequence s !! Z.to_nat i = Some e -> (length (input s) < fuel)%nat ->
  exists r tick rest evs,
    match r with
    | Done _ =>
        (length rest < length (input s))%nat /\
        ((while_not_flag fuel i s = (r, board s tick rest evs) /\ pressed e evs) \/
         (while_not_flag fuel i s = (r, with_state GAME_OVER (board s tick rest evs)) /\
          exists k, k <> e /\ pressed k evs))
    | Starved =>
        while_not_flag fuel i s = (r, board s tick rest evs) /\ stalled evs /\ rest = []
    | _ => False
    end.
Proof.
  intros Hi. revert s. induction fuel as [|fuel IH]; intros s He Hlen; [lia|].
  rewrite while_not_flag_S. simpl.
  destruct (poll_spec i e s Hi He) as (r & tick & rest & evs & Hr).
  destruct r as [[[]|]| | |]; try contradiction.
  - destruct Hr as (-> & Hp & Hl). exists (Done tt), tick, rest, evs. simpl. auto.
  - destruct Hr as (-> & Hrd & Hl).
    destruct (IH (board s tick rest evs)) as (r' & tick' & rest' & evs' & Hr');
      [exact He | simpl; lia |].
    rewrite !board_board in Hr'. simpl in Hr'.
    exists r', tick', rest', (evs ++ evs').
    destruct r' as [[]| | |]; try contradiction.
    + destruct Hr' as (Hl' & [[E Hp]|[E (k & Hk & Hp)]]); (split; [lia|]).
      * left. split; [exact E|]. by apply pressed_after_reads.
      * right. split; [exact E|]. exists k. split; [exact Hk|]. by apply pressed_after_reads.
    + destruct Hr' as (E & Hst & ->). split; [exact E|]. split; [|done].
      by apply stalled_after_reads.
  - destruct Hr as (-> & Hp & Hl). exists (Done tt), tick, rest, evs. simpl. auto.
  - destruct Hr as (-> & Hst & ->). exists Starved, tick, [], evs. simpl. auto.
Qed.

Lemma verify_from_S todo i :
  verify_from (S todo) i =
  bind busy_budget (fun fuel =>
    bind (while_not_flag fuel i) (fun _ =>
      bind (get state) (fun st =>
        match st with
        | PLAYER_SAYS => verify_from todo (i + 1)
        | _ => ret tt
        end))).
Proof. reflexivity. Qed.

Lemma verify_from_spec todo (p : nat) s :
  state s = PLAYER_SAYS -> (p + todo <= length (sequence s))%nat ->
  exists r tick rest evs,
    match r with
    | Done _ =>
        (verify_from todo (Z.of_nat p) s = (r, board s tick rest evs) /\
         rounds (take todo (drop p (sequence s))) evs) \/
        (verify_from todo (Z.of_nat p) s = (r, with_state GAME_OVER (board s tick rest evs)) /\
         exists j k e1 e2,
           (j < todo)%nat /\ rounds (take j (drop p (sequence s))) e1 /\
           pressed k e2 /\ sequence s !! (p + j)%nat <> Some k /\ evs = e1 ++ e2)
    | Starved =>
        verify_from todo (Z.of_nat p) s = (r, board s tick rest evs) /\ rest = [] /\
        exists j e1 e2,
          (j < todo)%nat /\ rounds (take j (drop p (sequence s))) e1 /\
          stalled e2 /\ evs = e1 ++ e2
    | _ => False
    end.
Proof.
  revert p s. induction todo as [|todo IH]; intros p s Hst Hlen.
  - exists (Done tt), (uwTick s), (input s), []. left. rewrite board_nil. split; [done|].
    rewrite take_0. constructor.
  - destruct (lookup_lt_is_Some_2 (sequence s) p) as [e He]; [lia|].
    rewrite verify_from_S. simpl.
    destruct (while_not_flag_spec (S (length (input s))) (Z.of_nat p) e s)
      as (r & tick & rest & evs & Hr); [lia | by rewrite Nat2Z.id | lia |].
    destruct r as [[]| | |]; try contradiction.
    + destruct Hr as (Hl & [[-> Hp]|[-> (k & Hk & Hp)]]); simpl.
      * rewrite Hst.
        destruct (IH (S p) (board s tick rest evs)) as (r' & tick' & rest' & evs' & Hr');
          [exact Hst | simpl; lia |].
        rewrite Nat2Z.inj_succ in Hr'. unfold Z.succ in Hr'.
        rewrite !board_board in Hr'. simpl in Hr'.
        exists r', tick', rest', (evs ++ evs').
        rewrite (drop_S _ _ _ He). simpl.
        destruct r' as [[]| | |]; try contradiction.
        -- destruct Hr' as [[E Hr']|[E (j & k & e1 & e2 & Hj & Hr1 & Hp2 & Hne & ->)]].
           ++ left. split; [exact E|]. by constructor.
           ++ right. split; [exact E|]. exists (S j), k, (evs ++ e1), e2.
              split; [lia|]. split; [by constructor|]. split; [exact Hp2|].
              split; [by rewrite Nat.add_succ_r|by rewrite app_assoc].
        -- destruct Hr' as (E & -> & j & e1 & e2 & Hj & Hr1 & Hs2 & ->).
           split; [exact E|]. split; [done|]. exists (S j), (evs ++ e1), e2.
           split; [lia|]. split; [by constructor|]. split; [exact Hs2|by rewrite app_assoc].
      * exists (Done tt), tick, rest, evs. right. split; [done|].
        exists 0%nat, k, [], evs. split; [lia|]. split; [rewrite take_0; constructor|].
        split; [exact Hp|]. split; [|done]. rewrite Nat.add_0_r, He. congruence.
    + destruct Hr as (-> & Hs & ->). exists Starved, tick, [], evs. simpl.
      split; [done|]. split; [done|]. exists 0%nat, [], evs.
      split; [lia|]. split; [rewrite take_0; constructor|]. done.
Qed.

Lemma player_says_spec s :
  state s = PLAYER_SAYS -> 0 <= current_level s < MAX_LEVEL ->
  length (sequence s) = Z.to_nat MAX_LEVEL ->
  exists r tick rest evs,
    match r with
    | Done _ =>
        (player_says s = (r, next_round (board s tick rest evs)) /\
         rounds (take (Z.to_nat (current_level s + 1)) (sequence s)) evs) \/
        (player_says s = (r, with_state GAME_OVER (board s tick rest evs)) /\
         exists j k e1 e2,
           (j < Z.to_nat (current_level s + 1))%nat /\ rounds (take j (sequence s)) e1 /\
           pressed k e2 /\ sequence s !! j <> Some k /\ evs = e1 ++ e2)
    | Starved =>
        player_says s = (r, board s tick rest evs) /\ rest = [] /\
        exists j e1 e2,
          (j < Z.to_nat (current_level s + 1))%nat /\ rounds (take j (sequence s)) e1 /\
          stalled e2 /\ evs = e1 ++ e2
    | _ => False
    end.
Proof.
  intros Hst Hcl Hlen. unfold MAX_LEVEL in *.
  destruct (verify_from_spec (Z.to_nat (current_level s + 1)) 0 s Hst)
    as (r & tick & rest & evs & Hr); [simpl; lia|].
  change (Z.of_nat 0) with 0 in Hr. simpl in Hr. unfold player_says. simpl.
  exists r, tick, rest, evs. destruct r as [[]| | |]; try contradiction.
  - destruct Hr as [[-> Hr]|[-> Hr]]; simpl.
    + left. split; [|exact Hr]. rewrite Hst. unfold next_round. simpl.
      unfold MAX_LEVEL. destruct (Z.eqb_spec (current_level s) (5 - 1)); simpl; [done|].
      unfold to_uint8. rewrite Z.mod_small by lia. done.
    + right. by split.
  - destruct Hr as (-> & Hr). done.
Qed.

(** *** Presses read off a trace *)

Lemma presses_app a b : presses (a ++ b) = presses a ++ presses b.
Proof. apply omap_app. Qed.

Lemma presses_reads rd : Forall is_read rd -> presses rd = [].
Proof.
  induction 1 as [|e rd He _ IH]; [done|].
  destruct e; try contradiction. exact IH.
Qed.

Lemma presses_replicate_read n port pin level :
  presses (replicate n (ReadPin port pin level)) = [].
Proof. apply presses_reads, Forall_replicate. exact I. Qed.

Lemma presses_press_events k n : 0 <= k <= 3 -> presses (press_events k n) = [k].
Proof.
  intros Hk. unfold press_events. rewrite !presses_app, presses_replicate_read.
  each_index k Hk; reflexivity.
Qed.

Lemma presses_pressed k evs : pressed k evs -> presses evs = [k].
Proof.
  intros [Hk (scan & n & Hs & ->)].
  by rewrite presses_app, (presses_reads _ Hs), presses_press_events.
Qed.

Lemma presses_rounds ks evs : rounds ks evs -> presses evs = ks.
Proof.
  induction 1 as [|k ks e evs Hp _ IH]; [done|].
  by rewrite presses_app, (presses_pressed _ _ Hp), IH.
Qed.

Lemma take_snoc_mismatch (l : list Z) (j n : nat) (k : Z) :
  (j < n)%nat -> (n <= length l)%nat -> take j l ++ [k] = take n l -> l !! j = Some k.
Proof.
  intros Hj Hn E.
  assert (H : (take j l ++ [k]) !! j = take n l !! j) by (by rewrite E).
  rewrite lookup_app_r in H by (rewrite length_take; lia).
  rewrite length_take, Nat.min_l, Nat.sub_diag in H by lia.
  rewrite lookup_take_lt in H by lia. simpl in H. congruence.
Qed.

Lemma step_unfold s :
  step s =
  match state s with
  | IDLE => idle s
  | SIMON_SAYS => simon_says s
  | PLAYER_SAYS => player_says s
  | GAME_OVER => bind ToggleLEDsForGameOver (fun _ => set_state IDLE) s
  | WIN => bind RunningLightForWin (fun _ => set_state IDLE) s
  end.
Proof. unfold step, bind, get. destruct (state s); reflexivity. Qed.

Lemma step_player_says s : state s = PLAYER_SAYS -> step s = player_says s.
Proof. intros H. by rewrite step_unfold, H. Qed.

(** *** SIMON_SAYS *)

Lemma show_spec (p : nat) e s :
  sequence s !! p = Some e -> in_range e ->
  exists tick,
    show (Z.of_nat p) s =
      (Done tt, with_state PLAYER_SAYS (board s tick (input s) (pulse e))).
Proof.
  intros He Hr. unfold show. simpl.
  destruct (Z.leb_spec 0 (Z.of_nat p)); [|lia]. rewrite Nat2Z.id, He. simpl.
  each_index e Hr; simpl; rewrite He; simpl; eexists; same_trace.
Qed.

Lemma for_up_show todo (p : nat) s :
  (p + todo <= length (sequence s))%nat ->
  Forall in_range (take todo (drop p (sequence s))) ->
  exists tick,
    for_up todo (Z.of_nat p) show s =
      (Done tt,
       (match todo with O => id | S _ => with_state PLAYER_SAYS end)
         (board s tick (input s) (flat_map pulse (take todo (drop p (sequence s)))))).
Proof.
  revert p s. induction todo as [|todo IH]; intros p s Hlen Hall.
  - exists (uwTick s). rewrite take_0. simpl. by rewrite board_nil.
  - destruct (lookup_lt_is_Some_2 (sequence s) p) as [e He]; [lia|].
    rewrite (drop_S _ _ _ He) in Hall. simpl in Hall.
    apply List.Forall_cons_iff in Hall as [Hr Hall].
    destruct (show_spec p e s He Hr) as [t1 E1]. simpl. rewrite E1.
    destruct (IH (S p) (with_state PLAYER_SAYS (board s t1 (input s) (pulse e))))
      as [t2 E2]; [simpl; lia | exact Hall |].
    rewrite Nat2Z.inj_succ in E2. unfold Z.succ in E2. rewrite E2.
    exists t2. rewrite (drop_S _ _ _ He). simpl. f_equal.
    destruct todo; unfold with_state, board; simpl; by rewrite <- !app_assoc.
Qed.

Lemma simon_says_spec s :
  0 <= current_level s < MAX_LEVEL ->
  length (sequence s) = Z.to_nat MAX_LEVEL ->
  Forall in_range (take (Z.to_nat (current_level s)) (sequence s)) ->
  in_range (fst (distrib (generator s))) ->
  exists tick,
    simon_says s =
      (Done tt,
       mkSys PLAYER_SAYS (current_level s)
         (<[Z.to_nat (current_level s) := fst (distrib (generator s))]> (sequence s))
         (snd (distrib (generator s))) tick (input s)
         (trace s ++
          flat_map pulse
            (take (Z.to_nat (current_level s + 1))
               (<[Z.to_nat (current_level s) := fst (distrib (generator s))]> (sequence s))))).
Proof.
  intros Hcl Hlen Hall Hv. unfold MAX_LEVEL in *. unfold simon_says. simpl.
  destruct (Z.leb_spec 0 (current_level s)); [|lia].
  destruct (Z.ltb_spec (current_level s) (Z.of_nat (length (sequence s)))); [|lia].
  simpl.
  match goal with |- context [for_up ?n 0 show ?s1] =>
    destruct (for_up_show n 0 s1) as [tick E] end.
  { simpl. rewrite length_insert. lia. }
  { cbn [sequence current_level]. rewrite drop_0.
    replace (Z.to_nat (current_level s + 1)) with (S (Z.to_nat (current_level s)))
      by lia.
    rewrite (take_S_r _ _ (distrib (generator s)).1)
      by (apply list_lookup_insert_eq; lia).
    rewrite take_insert_ge by lia. apply Forall_app. split; [exact Hall|].
    constructor; [exact Hv|constructor]. }
  change (Z.of_nat 0) with 0 in E. rewrite E. exists tick.
  destruct (Z.to_nat (current_level s + 1)) eqn:En; [lia|]. reflexivity.
Qed.

(** *** IDLE, GAME_OVER and WIN *)

Lemma idle_spec s :
  idle s =
  match input s with
  | [] => (Starved, s)
  | x :: rest =>
      match pin_level (IDR_A x) START_Pin with
      | GPIO_PIN_RESET =>
          (Done tt,
           mkSys SIMON_SAYS 0 (sequence s) (engine_seed (at_tick x)) (at_tick x) rest
             (trace s ++ [ReadPin GPIOA START_Pin GPIO_PIN_RESET]))
      | GPIO_PIN_SET =>
          (Done tt, board s (at_tick x) rest [ReadPin GPIOA START_Pin GPIO_PIN_SET])
      end
  end.
Proof.
  unfold idle. simpl. destruct (input s) as [|x rest]; [done|]. simpl.
  by destruct (pin_level _ _).
Qed.

Lemma ToggleLEDsForGameOver_spec s :
  exists tick,
    ToggleLEDsForGameOver s = (Done tt, board s tick (input s) loss_flash).
Proof. unfold ToggleLEDsForGameOver. simpl. eexists. same_trace. Qed.

Lemma for_up_emits (body : Z -> M unit) (ev : Z -> list Event) todo p s :
  (forall i s, p <= i < p + Z.of_nat todo ->
     exists tick, body i s = (Done tt, board s tick (input s) (ev i))) ->
  exists tick,
    for_up todo p body s = (Done tt, board s tick (input s) (flat_map ev (upto todo p))).
Proof.
  revert p s. induction todo as [|todo IH]; intros p s Hbody.
  - exists (uwTick s). simpl. by rewrite board_nil.
  - destruct (Hbody p s) as [t1 E1]; [lia|].
    destruct (IH (p + 1) (board s t1 (input s) (ev p))) as [t2 E2].
    { intros i s' Hi. apply Hbody. lia. }
    exists t2. cbn [for_up bind]. rewrite E1, E2. by rewrite board_board.
Qed.

Lemma RunningLightForWin_spec s :
  exists tick,
    RunningLightForWin s = (Done tt, board s tick (input s) running_light).
Proof.
  unfold RunningLightForWin, running_light.
  apply for_up_emits. intros _ s1 _.
  apply (for_up_emits _ blink). intros i s2 Hi.
  assert (Hr : 0 <= i <= 3) by (unfold LED_COUNT in Hi; lia).
  each_index i Hr; simpl; eexists; same_trace.
Qed.

(** *** The LEDs along a trace *)

Lemma ODR_after_app o a b : ODR_after o (a ++ b) = ODR_after (ODR_after o a) b.
Proof. apply fold_left_app. Qed.

Lemma always_app P o a b :
  always P o (a ++ b) <-> always P o a /\ always P (ODR_after o a) b.
Proof.
  revert o. induction a as [|e a IH]; intros o; simpl; [tauto|].
  rewrite IH. tauto.
Qed.

Lemma always_prefix P o evs pre suf :
  P o -> always P o evs -> evs = pre ++ suf -> P (ODR_after o pre).
Proof.
  intros Ho Hs ->. apply always_app in Hs as [Hs _]. clear suf.
  revert o Ho Hs. induction pre as [|e pre IH]; intros o Ho Hs; [exact Ho|].
  destruct Hs as [He Hs]. simpl. by apply IH.
Qed.

Lemma single_app o a b : single o (a ++ b) <-> single o a /\ single (ODR_after o a) b.
Proof. apply always_app. Qed.

Lemma reads_keep_ODR o rd : Forall is_read rd -> ODR_after o rd = o.
Proof.
  induction 1 as [|e rd He _ IH]; [done|]. destruct e; try contradiction. exact IH.
Qed.

Lemma single_reads o rd : (leds_lit o <= 1)%nat -> Forall is_read rd -> single o rd.
Proof.
  intros Ho. induction 1 as [|e rd He _ IH]; [done|].
  destruct e; try contradiction. by split.
Qed.

Lemma is_read_replicate n port pin level :
  Forall is_read (replicate n (ReadPin port pin level)).
Proof. apply Forall_replicate. exact I. Qed.

Lemma press_events_leds k n :
  0 <= k <= 3 -> single 0 (press_events k n) /\ ODR_after 0 (press_events k n) = 0.
Proof.
  intros Hk. unfold press_events.
  rewrite !single_app, !ODR_after_app.
  rewrite !(reads_keep_ODR _ (replicate _ _)) by apply is_read_replicate.
  each_index k Hk; (split; [|reflexivity]).
  all: split; [|split; [apply single_reads; [|apply is_read_replicate]|]].
  all: unfold single; simpl; repeat split; try apply Nat.leb_le; reflexivity.
Qed.

Lemma held_events_leds k n : 0 <= k <= 3 -> single 0 (held_events k n).
Proof.
  intros Hk. unfold held_events. rewrite !single_app.
  each_index k Hk.
  all: split; [|apply single_reads; [|apply is_read_replicate]].
  all: unfold single; simpl; repeat split; try apply Nat.leb_le; reflexivity.
Qed.

Lemma pressed_leds k evs : pressed k evs -> single 0 evs /\ ODR_after 0 evs = 0.
Proof.
  intros [Hk (scan & n & Hs & ->)].
  destruct (press_events_leds k n Hk) as [H1 H2].
  rewrite single_app, ODR_after_app, (reads_keep_ODR _ _ Hs).
  split; [|exact H2]. split; [|exact H1]. apply single_reads; [|exact Hs].
  apply Nat.leb_le. reflexivity.
Qed.

Lemma stalled_leds evs : stalled evs -> single 0 evs.
Proof.
  intros [Hs|(k & scan & n & Hk & Hs & ->)].
  - apply single_reads; [|exact Hs]. apply Nat.leb_le. reflexivity.
  - rewrite single_app, (reads_keep_ODR _ _ Hs). split; [|by apply held_events_leds].
    apply single_reads; [|exact Hs]. apply Nat.leb_le. reflexivity.
Qed.

Lemma rounds_leds ks evs : rounds ks evs -> single 0 evs /\ ODR_after 0 evs = 0.
Proof.
  induction 1 as [|k ks e evs Hp _ [IH1 IH2]]; [done|].
  destruct (pressed_leds _ _ Hp) as [H1 H2].
  rewrite single_app, ODR_after_app, H2. done.
Qed.

Lemma pulses_leds l :
  Forall in_range l -> single 0 (flat_map pulse l) /\ ODR_after 0 (flat_map pulse l) = 0.
Proof.
  induction 1 as [|e l He _ [IH1 IH2]]; [done|].
  change (flat_map pulse (e :: l)) with (pulse e ++ flat_map pulse l).
  rewrite single_app, ODR_after_app.
  assert (H : single 0 (pulse e) /\ ODR_after 0 (pulse e) = 0).
  { each_index e He; (split; [|reflexivity]).
    all: unfold single; simpl; repeat split; try apply Nat.leb_le; reflexivity. }
  destruct H as [H1 H2]. by rewrite H2.
Qed.

Lemma running_light_leds : single 0 running_light /\ ODR_after 0 running_light = 0.
Proof.
  split; [|reflexivity].
  unfold single; simpl; repeat split; try apply Nat.leb_le; reflexivity.
Qed.

(** *** What one turn of the main loop can do *)

Lemma loss_flash_ODR : ODR_after 0 loss_flash = 0.
Proof. reflexivity. Qed.

Ltac settle :=
  unfold wf, board, with_state, with_level; simpl; repeat split; auto; try done; try (unfold MAX_LEVEL in *; lia);
  try (apply Nat.leb_le; reflexivity).

Lemma step_cases s :
  distrib_in_range U -> wf s ->
  exists r s' evs,
    step s = (r, s') /\ trace s' = trace s ++ evs /\
    (r = Done tt \/ r = Starved) /\ wf s' /\
    (r = Done tt -> ODR_after 0 evs = 0) /\
    (state s <> GAME_OVER -> single 0 evs) /\
    (state s = GAME_OVER -> r = Done tt /\ evs = loss_flash) /\
    (current_level s' = current_level s \/
     (state s = IDLE /\ state s' = SIMON_SAYS /\ current_level s' = 0) \/
     (state s = PLAYER_SAYS /\ state s' = SIMON_SAYS /\
      current_level s' = current_level s + 1)).
Proof.
  intros HU (Hcl & Hlen & Hall). rewrite step_unfold.
  destruct (state s) eqn:Hst.
  - rewrite idle_spec. destruct (input s) as [|x rest].
    + exists Starved, s, []. rewrite app_nil_r. settle.
    + destruct (pin_level _ _); eexists _, _, _; (split; [reflexivity|]); settle.
  - destruct (simon_says_spec s Hcl Hlen (Forall_take _ _ _ Hall) (HU _)) as [tick ->].
    eexists _, _, _. split; [reflexivity|]. simpl.
    assert (Hall' : Forall in_range
              (<[Z.to_nat (current_level s) := (distrib (generator s)).1]> (sequence s)))
      by (apply Forall_insert; [exact Hall|apply HU]).
    destruct (pulses_leds (take (Z.to_nat (current_level s + 1))
                (<[Z.to_nat (current_level s) := (distrib (generator s)).1]> (sequence s))))
      as [H1 H2]; [by apply Forall_take|].
    settle. by rewrite length_insert.
  - destruct (player_says_spec s Hst Hcl Hlen) as (r & tick & rest & evs & Hr).
    destruct r as [[]| | |]; try contradiction.
    + destruct Hr as [[-> Hr]|[-> (j & k & e1 & e2 & Hj & Hr1 & Hp & Hne & ->)]].
      * destruct (rounds_leds _ _ Hr) as [H1 H2].
        eexists _, _, evs. split; [reflexivity|].
        unfold next_round, wf. simpl. unfold MAX_LEVEL in *.
        destruct (Z.eqb_spec (current_level s) (5 - 1)); simpl; settle.
      * destruct (rounds_leds _ _ Hr1) as [H1 H2].
        destruct (pressed_leds _ _ Hp) as [H3 H4].
        eexists _, _, (e1 ++ e2). split; [reflexivity|]. simpl.
        rewrite single_app, ODR_after_app, H2. settle.
    + destruct Hr as (-> & -> & j & e1 & e2 & Hj & Hr1 & Hs & ->).
      destruct (rounds_leds _ _ Hr1) as [H1 H2].
      eexists _, _, (e1 ++ e2). split; [reflexivity|]. simpl.
      rewrite single_app, H2. settle. by apply stalled_leds.
  - destruct (ToggleLEDsForGameOver_spec s) as [tick E].
    unfold bind. rewrite E.
    eexists _, _, _. split; [reflexivity|].
    cbn [set_state trace board state current_level sequence].
    split; [reflexivity|]. split; [by left|].
    split; [exact (conj Hcl (conj Hlen Hall))|].
    split; [intros _; apply loss_flash_ODR|].
    split; [intros H; by destruct H|]. split; [done|by left].
  - destruct (RunningLightForWin_spec s) as [tick E].
    unfold bind. rewrite E.
    destruct running_light_leds as [H1 H2].
    eexists _, _, _. split; [reflexivity|].
    cbn [set_state trace board state current_level sequence].
    split; [reflexivity|]. split; [by left|].
    split; [exact (conj Hcl (conj Hlen Hall))|].
    split; [intros _; exact H2|]. split; [intros _; exact H1|].
    split; [intros H; discriminate H|by left].
Qed.

(** *** Every turn of the main loop *)

Lemma main_loop_S n : main_loop (S n) = bind step (fun _ => main_loop n).
Proof. reflexivity. Qed.

Lemma wf_boot ins : wf (boot ins).
Proof.
  unfold wf, boot, MAX_LEVEL. simpl. split; [lia|]. split; [done|].
  repeat constructor; unfold in_range; lia.
Qed.

Lemma main_loop_inv n s r s' :
  distrib_in_range U -> wf s -> ODR_after 0 (trace s) = 0 ->
  main_loop n s = (r, s') ->
  (r = Done tt \/ r = Starved) /\ wf s' /\ (r = Done tt -> ODR_after 0 (trace s') = 0).
Proof.
  intros HU. revert s. induction n as [|n IH]; intros s Hwf Hdark Hrun.
  - injection Hrun as <- <-. auto.
  - rewrite main_loop_S in Hrun. unfold bind in Hrun.
    destruct (step_cases s HU Hwf)
      as (r1 & s1 & evs & E & Htr & Hr1 & Hwf1 & Hodr & _).
    rewrite E in Hrun. destruct Hr1 as [-> | ->].
    + apply (IH s1); [exact Hwf1| |exact Hrun].
      by rewrite Htr, ODR_after_app, Hdark, Hodr.
    + injection Hrun as <- <-. split; [by right|]. split; [exact Hwf1|done].
Qed.

Lemma main_loop_boot n ins r s :
  distrib_in_range U -> main_loop n (boot ins) = (r, s) ->
  (r = Done tt \/ r = Starved) /\ wf s /\ (r = Done tt -> ODR_after 0 (trace s) = 0).
Proof. intros HU. apply main_loop_inv; [exact HU|apply wf_boot|reflexivity]. Qed.

(** The polling budget of the model never runs out: a run of the loop
    returns or is left waiting for input. *)
Lemma loop_budget_suffices n ins :
  distrib_in_range U ->
  (main_loop n (boot ins)).1 = Done tt \/ (main_loop n (boot ins)).1 = Starved.
Proof.
  intros HU. destruct (main_loop n (boot ins)) as [r s] eqn:E.
  by destruct (main_loop_boot n ins r s HU E) as (Hr & _).
Qed.

(** C5.  With a distribution that keeps the range it was built with, 0 to
    3, every drawn value lies in 0..3, and so does every cell of
    [sequence] after any number of turns on any input. *)
Theorem generated_indices_in_range :
  distrib_in_range U ->
  (forall s v s', draw s = (Done v, s') -> 0 <= v <= 3) /\
  (forall n ins, Forall (fun v => 0 <= v <= 3) (sequence (main_loop n (boot ins)).2)).
Proof.
  intros HU. split.
  - intros s v s' H. unfold draw in H. simpl in H. injection H as <- _. apply HU.
  - intros n ins. destruct (main_loop n (boot ins)) as [r s] eqn:E.
    by destruct (main_loop_boot n ins r s HU E) as (_ & (_ & _ & H) & _).
Qed.

(** C10.  No turn of the loop, on any input, indexes an array out of
    range: the run never ends in [BadIndex], [current_level] stays within
    0..MAX_LEVEL-1, [sequence] keeps its five cells and each of them
    indexes [led_pins]; and an index the scan returns is -1 or indexes
    both [led_pins] and [button_pins]. *)
Theorem array_accesses_in_bounds :
  distrib_in_range U ->
  (forall n ins,
     (main_loop n (boot ins)).1 <> BadIndex /\
     0 <= current_level (main_loop n (boot ins)).2 <= MAX_LEVEL - 1 /\
     length (sequence (main_loop n (boot ins)).2) = Z.to_nat MAX_LEVEL /\
     Forall (fun v => 0 <= v < Z.of_nat (length led_pins))
       (sequence (main_loop n (boot ins)).2)) /\
  (forall s k s',
     GetPressedButtonIndex s = (Done k, s') ->
     k = -1 \/ (0 <= k < Z.of_nat (length led_pins) /\
                0 <= k < Z.of_nat (length button_pins))).
Proof.
  intros HU. split.
  - intros n ins. destruct (main_loop n (boot ins)) as [r s] eqn:E.
    destruct (main_loop_boot n ins r s HU E) as (Hr & (Hcl & Hlen & Hall) & _).
    simpl. split; [by destruct Hr as [-> | ->]|]. split; [lia|]. split; [exact Hlen|].
    eapply Forall_impl; [exact Hall|]. unfold in_range. simpl. lia.
  - intros s k s' H.
    destruct (GetPressedButtonIndex_spec s) as (r & tick & rest & evs & E & _ & Hk).
    rewrite E in H. injection H as -> _. simpl. destruct Hk as [[?|?] _]; [by left|right; lia].
Qed.

(** C6, as amended.  Every handler is entered with all four LEDs dark.
    In IDLE, SIMON_SAYS, PLAYER_SAYS and WIN at most one LED is lit at
    every point of the handler.  GAME_OVER runs [loss_flash]: it toggles
    all four LEDs together, so after its first toggle four LEDs are lit,
    and at every point of it all four are lit or none is. *)
Theorem one_led_outside_loss_flash n ins s :
  distrib_in_range U -> main_loop n (boot ins) = (Done tt, s) ->
  ODR_after 0 (trace s) = 0 /\
  forall r s', step s = (r, s') ->
    exists evs,
      trace s' = trace s ++ evs /\
      (state s <> GAME_OVER ->
       forall pre suf, evs = pre ++ suf ->
         (leds_lit (ODR_after 0 (trace s ++ pre)) <= 1)%nat) /\
      (state s = GAME_OVER ->
       evs = loss_flash /\
       ODR_after 0 (trace s ++ [TogglePin GPIOA ALL_LEDS]) = ALL_LEDS /\
       leds_lit ALL_LEDS = 4%nat /\
       forall pre suf, evs = pre ++ suf ->
         ODR_after 0 (trace s ++ pre) = 0 \/ ODR_after 0 (trace s ++ pre) = ALL_LEDS).
Proof.
  intros HU Hrun.
  destruct (main_loop_boot n ins _ s HU Hrun) as (_ & Hwf & Hdark).
  specialize (Hdark eq_refl). split; [exact Hdark|].
  intros r s' Hstep.
  destruct (step_cases s HU Hwf) as (r1 & s1 & evs & E & Htr & _ & _ & _ & Hs & Hg & _).
  rewrite E in Hstep. injection Hstep as -> ->. exists evs. split; [exact Htr|]. split.
  - intros Hne pre suf Hpre. rewrite ODR_after_app, Hdark.
    apply (always_prefix (fun o => (leds_lit o <= 1)%nat) 0 evs pre suf);
      [apply Nat.leb_le; reflexivity| |exact Hpre].
    by apply Hs.
  - intros Hst. destruct (Hg Hst) as [_ ->]. split; [done|].
    split; [by rewrite ODR_after_app, Hdark|]. split; [reflexivity|].
    intros pre suf Hpre. rewrite ODR_after_app, Hdark.
    apply (always_prefix (fun o => o = 0 \/ o = ALL_LEDS) 0 loss_flash pre suf);
      [by left| |exact Hpre].
    simpl. repeat split; auto.
Qed.

(** *** The claims about single handlers *)

(** C3.  A turn of SIMON_SAYS draws one index, stores it at
    [sequence[current_level]], advances the engine once, and emits one
    pulse (on, 500 ms, off, 500 ms) for each of
    [sequence[0..current_level]] in ascending position; it reads no input
    and leaves the machine in PLAYER_SAYS at the same level. *)
Theorem simon_says_replays_prefix s :
  distrib_in_range U -> state s = SIMON_SAYS -> wf s ->
  let v := (distrib (generator s)).1 in
  let sequence' := <[Z.to_nat (current_level s) := v]> (sequence s) in
  exists s',
    step s = (Done tt, s') /\
    state s' = PLAYER_SAYS /\ current_level s' = current_level s /\
    sequence s' = sequence' /\ generator s' = (distrib (generator s)).2 /\
    input s' = input s /\
    trace s' =
      trace s ++ flat_map pulse (take (Z.to_nat (current_level s + 1)) sequence').
Proof.
  intros HU Hst (Hcl & Hlen & Hall). simpl.
  destruct (simon_says_spec s Hcl Hlen (Forall_take _ _ _ Hall) (HU _)) as [tick E].
  rewrite step_unfold, Hst, E. eexists. split; [reflexivity|]. by simpl.
Qed.

Lemma terminal_returns_to_idle s :
  state s = GAME_OVER \/ state s = WIN ->
  exists s',
    step s = (Done tt, s') /\ state s' = IDLE /\
    current_level s' = current_level s /\ sequence s' = sequence s.
Proof.
  intros [Hst|Hst]; rewrite step_unfold, Hst; unfold bind.
  - destruct (ToggleLEDsForGameOver_spec s) as [tick ->].
    eexists. split; [reflexivity|]. by cbn [set_state state current_level sequence board].
  - destruct (RunningLightForWin_spec s) as [tick ->].
    eexists. split; [reflexivity|]. by cbn [set_state state current_level sequence board].
Qed.

(** C9.  GAME_OVER and WIN return to IDLE and leave level and sequence
    alone.  From IDLE, whatever level and sequence are left over, a press
    of Start seeds the engine with the tick of that reading and the next
    turn plays level 0 with [sequence[0]] drawn from the fresh engine.  A
    turn changes [current_level] only from IDLE to SIMON_SAYS, to 0, or
    from PLAYER_SAYS to SIMON_SAYS, by one up. *)
Theorem new_session_starts_afresh :
  distrib_in_range U ->
  (forall s, state s = GAME_OVER \/ state s = WIN ->
     exists s',
       step s = (Done tt, s') /\ state s' = IDLE /\
       current_level s' = current_level s /\ sequence s' = sequence s) /\
  (forall s x rest,
     state s = IDLE -> length (sequence s) = Z.to_nat MAX_LEVEL ->
     input s = x :: rest -> pin_level (IDR_A x) START_Pin = GPIO_PIN_RESET ->
     exists s2,
       main_loop 2 s = (Done tt, s2) /\ state s2 = PLAYER_SAYS /\
       current_level s2 = 0 /\
       sequence s2 = <[0%nat := (distrib (engine_seed (at_tick x))).1]> (sequence s) /\
       generator s2 = (distrib (engine_seed (at_tick x))).2) /\
  (forall s r s',
     wf s -> step s = (r, s') ->
     current_level s' = current_level s \/
     (state s = IDLE /\ state s' = SIMON_SAYS /\ current_level s' = 0) \/
     (state s = PLAYER_SAYS /\ state s' = SIMON_SAYS /\
      current_level s' = current_level s + 1)).
Proof.
  intros HU. split; [exact terminal_returns_to_idle|]. split.
  - intros s x rest Hst Hlen Hin Hlow.
    rewrite !main_loop_S. unfold bind at 1.
    rewrite step_unfold, Hst, idle_spec, Hin, Hlow.
    unfold bind at 1. rewrite step_unfold. cbn [state].
    match goal with |- context [simon_says ?s1] =>
      destruct (simon_says_spec s1) as [tick E] end.
    { simpl. unfold MAX_LEVEL. lia. } { exact Hlen. } { simpl. constructor. }
    { apply HU. }
    rewrite E. eexists. split; [reflexivity|]. by simpl.
  - intros s r s' Hwf Hstep.
    destruct (step_cases s HU Hwf) as (r1 & s1 & evs & E & _ & _ & _ & _ & _ & _ & H).
    rewrite E in Hstep. by injection Hstep as _ <-.
Qed.

(** C7.  While port B reads [b], [GetPressedButtonIndex] reads the
    buttons in ascending order, stops at the first one that is down and
    returns its index, the smallest one down; with no button down it reads
    all four and returns -1. *)
Theorem scan_returns_lowest_active s x0 x1 x2 x3 rest b :
  input s = x0 :: x1 :: x2 :: x3 :: rest ->
  IDR_B x0 = b -> IDR_B x1 = b -> IDR_B x2 = b -> IDR_B x3 = b ->
  exists k s',
    GetPressedButtonIndex s = (Done k, s') /\
    ((k = -1 /\ forall j, 0 <= j <= 3 -> active b j = false) \/
     (0 <= k <= 3 /\ active b k = true /\ forall j, 0 <= j < k -> active b j = false)) /\
    trace s' = trace s ++ scan_reads b (if k =? -1 then 4 else Z.to_nat (k + 1)) /\
    input s' = drop (if k =? -1 then 4 else Z.to_nat (k + 1)) (input s) /\
    state s' = state s /\ current_level s' = current_level s /\
    sequence s' = sequence s.
Proof.
  destruct s as [st cl sq g tk ins tr]. simpl. intros -> Hb0 Hb1 Hb2 Hb3.
  destruct x0 as [t0 a0 b0], x1 as [t1 a1 b1], x2 as [t2 a2 b2], x3 as [t3 a3 b3].
  simpl in *. subst b0 b1 b2 b3.
  unfold GetPressedButtonIndex, BUTTON_COUNT. change (Z.to_nat 4) with 4%nat.
  simpl.
  destruct (pin_level b GPIO_PIN_3) eqn:E0; simpl.
  2: destruct (pin_level b GPIO_PIN_4) eqn:E1; simpl.
  3: destruct (pin_level b GPIO_PIN_5) eqn:E2; simpl.
  4: destruct (pin_level b GPIO_PIN_6) eqn:E3; simpl.
  all: repeat match goal with |- context [to_int8 ?x] =>
         let v := eval vm_compute in (to_int8 x) in change (to_int8 x) with v end.
  all: eexists _, _; (split; [reflexivity|]); simpl.
  all: unfold scan_reads, pin_of; simpl; rewrite ?E0, ?E1, ?E2, ?E3.
  all: rewrite <- ?app_assoc; simpl.
  all: split; [|done].
  all: unfold active, pin_of, pin_level in *; simpl.
  all: repeat match goal with
         | H : (if ?c then _ else _) = _ |- _ =>
             destruct c eqn:?; try discriminate H; clear H
         end.
  1-4: right; split; [lia|]; split; [done|].
  5: left; split; [done|].
  all: intros j Hj.
  all: assert (Hc : j = 0 \/ j = 1 \/ j = 2 \/ j = 3) by lia.
  all: destruct Hc as [-> | [-> | [-> | ->]]]; simpl; try lia; assumption.
Qed.

Lemma hold_split_unique k h1 r1 t1 h2 r2 t2 :
  Forall (held k) h1 -> ~ held k r1 -> Forall (held k) h2 -> ~ held k r2 ->
  h1 ++ r1 :: t1 = h2 ++ r2 :: t2 -> h1 = h2 /\ t1 = t2.
Proof.
  intros H1 Hr1. revert h2. induction H1 as [|x h1 Hx _ IH]; intros h2 H2 Hr2 E.
  - destruct H2 as [|y h2 Hy _]; simpl in E; injection E as -> E; [done|contradiction].
  - destruct H2 as [|y h2 Hy H2]; simpl in E; injection E as -> E; [contradiction|].
    destruct (IH h2 H2 Hr2 E) as [-> ->]. done.
Qed.

Lemma held_throughout k h r t : Forall (held k) (h ++ r :: t) -> held k r.
Proof. intros H. apply Forall_app in H as [_ H]. by apply List.Forall_cons_iff in H as [H _]. Qed.

(** C4.  Once the scan has found button [k] down, [poll] lights LED [k],
    waits 500 ms and reads the pin of button [k] until it reads released:
    every reading that shows the button down is used up by that wait, and
    only then does the LED go dark.  However long the hold, one press is
    registered.  If the recording ends with the button still down, [poll]
    has not returned: the LED is still lit and state, level and sequence
    are untouched. *)
Theorem press_waits_for_release i s k s1 hold :
  GetPressedButtonIndex s = (Done k, s1) -> 0 <= k ->
  0 <= i -> is_Some (sequence s !! Z.to_nat i) ->
  Forall (held k) hold ->
  (forall rel rest,
     input s1 = hold ++ rel :: rest -> ~ held k rel ->
     exists t s2,
       poll i s = (Done t, s2) /\ t <> Flag false /\
       trace s2 = trace s1 ++ press_events k (length hold) /\
       presses (press_events k (length hold)) = [k] /\
       input s2 = rest) /\
  (input s1 = hold ->
   exists s2,
     poll i s = (Starved, s2) /\
     trace s2 = trace s1 ++ held_events k (length hold) /\
     state s2 = state s /\ current_level s2 = current_level s /\
     sequence s2 = sequence s).
Proof.
  intros Hscan Hk0 Hi [e He] Hhold.
  destruct (GetPressedButtonIndex_spec s) as (r0 & t0 & rest0 & ev0 & E0 & _ & Hr0).
  rewrite E0 in Hscan. injection Hscan as -> <-.
  destruct Hr0 as [[->|Hk] _]; [lia|].
  assert (Hpoll : poll i s = echo i k (board s t0 rest0 ev0)).
  { rewrite poll_unfold. unfold bind at 1. rewrite E0.
    by destruct (Z.leb_spec 0 k); [|lia]. }
  rewrite Hpoll.
  destruct (echo_spec i e k (board s t0 rest0 ev0) Hi He Hk)
    as (r & tick & rest' & hold' & Hh & Hr).
  split.
  - intros rel rest Hin Hrel.
    destruct r as [t| | |]; try contradiction.
    + destruct Hr as [(rel' & Hin' & Hrel') Hr]. rewrite Hin in Hin'.
      destruct (hold_split_unique _ _ _ _ _ _ _ Hhold Hrel Hh Hrel' Hin') as [<- <-].
      destruct Hr as [(_ & -> & E)|(_ & -> & E)]; eexists _, _;
        (split; [exact E|]); (split; [done|]); simpl;
        (split; [done|]); (split; [by apply presses_press_events|done]).
    + destruct Hr as (Hin' & _). rewrite Hin in Hin'. subst hold'.
      exfalso. apply Hrel. by eapply held_throughout.
  - intros Hin. destruct r as [t| | |]; try contradiction.
    + destruct Hr as [(rel' & Hin' & Hrel') _]. rewrite Hin in Hin'. subst hold.
      exfalso. apply Hrel'. by eapply held_throughout.
    + destruct Hr as (Hin' & -> & E). rewrite Hin in Hin'. subst hold'.
      eexists. split; [exact E|]. by simpl.
Qed.

(** *** Port A does not matter outside IDLE *)

Lemma blind_ret {A} (a : A) : port_A_blind (ret a).
Proof. by intros s. Qed.

Lemma blind_bind {A B} (m : M A) (k : A -> M B) :
  port_A_blind m -> (forall a, port_A_blind (k a)) -> port_A_blind (bind m k).
Proof.
  intros Hm Hk s. unfold bind. rewrite Hm.
  destruct (m s) as [[a| | |] s1]; cbn [fst snd]; [apply Hk|done..].
Qed.

Lemma blind_get {A} (f : Sys -> A) :
  (forall s, f (blind s) = f s) -> port_A_blind (get f).
Proof. intros Hf s. unfold get. by rewrite Hf. Qed.

Lemma blind_busy_budget : port_A_blind busy_budget.
Proof. apply blind_get. intros s. simpl. by rewrite length_map. Qed.

Lemma blind_emit e : port_A_blind (emit e).
Proof. by intros s. Qed.

Lemma blind_set_state v : port_A_blind (set_state v).
Proof. by intros s. Qed.

Lemma blind_set_current_level v : port_A_blind (set_current_level v).
Proof. by intros s. Qed.

Lemma blind_set_generator g : port_A_blind (set_generator g).
Proof. by intros s. Qed.

Lemma blind_out_of_fuel {A} : port_A_blind (@out_of_fuel U A).
Proof. by intros s. Qed.

Lemma blind_HAL_Delay ms : port_A_blind (HAL_Delay ms).
Proof. by intros s. Qed.

Lemma blind_HAL_GPIO_WritePin port pin level :
  port_A_blind (HAL_GPIO_WritePin port pin level).
Proof. by intros s. Qed.

Lemma blind_HAL_GPIO_TogglePin port pin : port_A_blind (HAL_GPIO_TogglePin port pin).
Proof. by intros s. Qed.

Lemma blind_read_port_B pin : port_A_blind (HAL_GPIO_ReadPin GPIOB pin).
Proof. intros s. destruct s as [st cl sq g tk [|x ins] tr]; reflexivity. Qed.

Lemma blind_at_index arr i : port_A_blind (at_index arr i).
Proof. intros s. unfold at_index. destruct (0 <=? i); [|done]. by destruct (arr !! _). Qed.

Lemma blind_sequence_at i : port_A_blind (sequence_at i).
Proof.
  unfold sequence_at. apply blind_bind; [by apply blind_get|].
  intros arr. apply blind_at_index.
Qed.

Lemma blind_sequence_store i v : port_A_blind (sequence_store i v).
Proof. intros s. unfold sequence_store. cbn [sequence blind with_input]. by destruct (_ && _). Qed.

Lemma blind_draw : port_A_blind draw.
Proof.
  unfold draw. apply blind_bind; [by apply blind_get|]. intros g.
  apply blind_bind; [apply blind_set_generator|]. intros _. apply blind_ret.
Qed.

Create HintDb blind discriminated.
Hint Resolve blind_ret blind_busy_budget blind_emit blind_set_state
  blind_set_current_level blind_set_generator blind_out_of_fuel blind_HAL_Delay
  blind_HAL_GPIO_WritePin blind_HAL_GPIO_TogglePin blind_read_port_B blind_at_index
  blind_sequence_at blind_sequence_store blind_draw : blind.

Ltac blind_step :=
  first [ solve [auto with blind]
        | apply blind_get; reflexivity
        | match goal with |- port_A_blind (match ?x with _ => _ end) => destruct x end
        | apply blind_bind; [|intros ?] ].

Lemma blind_for_up count i body :
  (forall j, port_A_blind (body j)) -> port_A_blind (for_up count i body).
Proof.
  intros Hb. revert i. induction count as [|c IH]; intros i; cbn [for_up].
  - apply blind_ret.
  - apply blind_bind; [apply Hb|]. intros _. apply IH.
Qed.

Lemma blind_scan_from todo i : port_A_blind (scan_from todo i).
Proof.
  revert i. induction todo as [|todo IH]; intros i; cbn [scan_from].
  - apply blind_ret.
  - repeat blind_step.
Qed.

Lemma blind_wait_release fuel index : port_A_blind (wait_release fuel index).
Proof.
  induction fuel as [|fuel IH]; [apply blind_out_of_fuel|].
  rewrite wait_release_S. repeat blind_step.
Qed.

Lemma blind_poll i : port_A_blind (poll i).
Proof.
  rewrite poll_unfold. apply blind_bind; [apply blind_scan_from|]. intros index.
  destruct (0 <=? index); [|apply blind_ret].
  unfold echo. repeat blind_step. apply blind_wait_release.
Qed.

Lemma blind_while_not_flag fuel i : port_A_blind (while_not_flag fuel i).
Proof.
  induction fuel as [|fuel IH]; [apply blind_out_of_fuel|].
  rewrite while_not_flag_S. apply blind_bind; [apply blind_poll|].
  intros [[]|]; [apply blind_ret|exact IH|apply blind_ret].
Qed.

Lemma blind_verify_from todo i : port_A_blind (verify_from todo i).
Proof.
  revert i. induction todo as [|todo IH]; intros i; [apply blind_ret|].
  rewrite verify_from_S. apply blind_bind; [apply blind_busy_budget|]. intros fuel.
  apply blind_bind; [apply blind_while_not_flag|]. intros _.
  apply blind_bind; [by apply blind_get|]. intros []; auto with blind.
Qed.

Lemma blind_player_says : port_A_blind player_says.
Proof.
  unfold player_says. apply blind_bind; [by apply blind_get|]. intros cl.
  apply blind_bind; [apply blind_verify_from|]. intros _.
  apply blind_bind; [by apply blind_get|]. intros []; auto with blind.
  apply blind_bind; [by apply blind_get|]. intros cl'.
  destruct (_ =? _); repeat blind_step.
Qed.

Lemma blind_simon_says : port_A_blind simon_says.
Proof.
  unfold simon_says. apply blind_bind; [by apply blind_get|]. intros cl.
  apply blind_bind; [apply blind_draw|]. intros v.
  apply blind_bind; [apply blind_sequence_store|]. intros _.
  apply blind_bind; [by apply blind_get|]. intros cl'.
  apply blind_for_up. intros j. unfold show. repeat blind_step.
Qed.

Lemma blind_ToggleLEDsForGameOver : port_A_blind ToggleLEDsForGameOver.
Proof. unfold ToggleLEDsForGameOver. apply blind_for_up. intros j. repeat blind_step. Qed.

Lemma blind_RunningLightForWin : port_A_blind RunningLightForWin.
Proof.
  unfold RunningLightForWin. apply blind_for_up. intros _.
  apply blind_for_up. intros j. repeat blind_step.
Qed.

Lemma blind_step_outside_idle s :
  state s <> IDLE -> step (blind s) = ((step s).1, blind (step s).2).
Proof.
  intros Hst. rewrite !step_unfold. cbn [blind with_input state].
  destruct (state s); [done|..].
  - apply blind_simon_says.
  - apply blind_player_says.
  - apply (blind_bind ToggleLEDsForGameOver);
      [apply blind_ToggleLEDsForGameOver|intros _; apply blind_set_state].
  - apply (blind_bind RunningLightForWin);
      [apply blind_RunningLightForWin|intros _; apply blind_set_state].
Qed.

(** C8.  Outside IDLE a turn of the loop does not depend on port A, where
    the Start button sits: on two recordings that agree on ticks and on
    port B it ends the same way, in the same state, level, sequence and
    engine, after the same HAL calls. *)
Theorem start_ignored_outside_idle s ins1 ins2 :
  state s <> IDLE ->
  map hide_port_A ins1 = map hide_port_A ins2 ->
  let run1 := step (with_input ins1 s) in
  let run2 := step (with_input ins2 s) in
  run1.1 = run2.1 /\
  state run1.2 = state run2.2 /\
  current_level run1.2 = current_level run2.2 /\
  sequence run1.2 = sequence run2.2 /\
  generator run1.2 = generator run2.2 /\
  trace run1.2 = trace run2.2 /\
  map hide_port_A (input run1.2) = map hide_port_A (input run2.2).
Proof.
  intros Hst Hins. simpl.
  pose proof (blind_step_outside_idle (with_input ins1 s) Hst) as H1.
  pose proof (blind_step_outside_idle (with_input ins2 s) Hst) as H2.
  assert (Hb : blind (with_input ins1 s) = blind (with_input ins2 s)).
  { unfold blind, with_input. cbn [input state current_level sequence generator uwTick trace].
    by rewrite Hins. }
  rewrite Hb, H2 in H1.
  pose proof (f_equal fst H1) as Hr. pose proof (f_equal snd H1) as Hs.
  cbn [fst snd] in Hr, Hs.
  pose proof (f_equal state Hs) as Hs1. pose proof (f_equal current_level Hs) as Hs2.
  pose proof (f_equal sequence Hs) as Hs3. pose proof (f_equal generator Hs) as Hs4.
  pose proof (f_equal trace Hs) as Hs5. pose proof (f_equal input Hs) as Hs6.
  by repeat split.
Qed.

(** *** The player's gestures on the board *)

Lemma held_button_down k : 0 <= k <= 3 -> held k (button_down k).
Proof. intros Hk. each_index k Hk; reflexivity. Qed.

Lemma released_not_held k : 0 <= k <= 3 -> ~ held k released_board.
Proof. intros Hk. each_index k Hk; discriminate. Qed.

Lemma scan_gesture k h tail s :
  0 <= k <= 3 -> input s = gesture k h ++ tail ->
  exists tick evs,
    GetPressedButtonIndex s =
      (Done k, board s tick (replicate h (button_down k) ++ released_board :: tail) evs) /\
    Forall is_read evs.
Proof.
  intros Hk. destruct s as [st cl sq g tk ins tr]. simpl. intros ->.
  unfold GetPressedButtonIndex, BUTTON_COUNT, gesture. change (Z.to_nat 4) with 4%nat.
  each_index k Hk; simpl.
  all: eexists _, _; split; [unfold board; simpl; rewrite <- ?app_assoc; simpl; reflexivity|].
  all: repeat constructor.
Qed.


Lemma poll_gesture i e k h tail s :
  0 <= i -> sequence s !! Z.to_nat i = Some e -> 0 <= k <= 3 ->
  input s = gesture k h ++ tail ->
  exists tick evs,
    pressed k evs /\
    ((k = e /\ poll i s = (Done (Flag true), board s tick tail evs)) \/
     (k <> e /\ poll i s = (Done Break, with_state GAME_OVER (board s tick tail evs)))).
Proof.
  intros Hi He Hk Hin.
  destruct (scan_gesture k h tail s Hk Hin) as (t0 & ev0 & E0 & Hrd).
  assert (Hpoll : poll i s =
            echo i k (board s t0 (replicate h (button_down k) ++ released_board :: tail) ev0)).
  { rewrite poll_unfold. unfold bind at 1. rewrite E0.
    by destruct (Z.leb_spec 0 k); [|lia]. }
  rewrite Hpoll.
  destruct (echo_spec i e k
              (board s t0 (replicate h (button_down k) ++ released_board :: tail) ev0)
              Hi He Hk) as (r & tick & rest' & hold' & Hh & Hr).
  assert (Hdown : Forall (held k) (replicate h (button_down k)))
    by (apply Forall_replicate; by apply held_button_down).
  destruct r as [t| | |]; try contradiction.
  - destruct Hr as [(rel' & Hin' & Hrel') Hr]. cbn [input board] in Hin'.
    destruct (hold_split_unique _ _ _ _ _ _ _ Hdown (released_not_held k Hk) Hh Hrel' Hin')
      as [<- <-].
    exists tick, (ev0 ++ press_events k (length (replicate h (button_down k)))).
    split; [split; [exact Hk|]; by eexists _, _|].
    rewrite !board_board in Hr.
    destruct Hr as [(Heq & -> & E)|(Hne & -> & E)]; [by left|by right].
  - destruct Hr as (Hin' & _). cbn [input board] in Hin'. subst hold'.
    exfalso. apply (released_not_held k Hk). by eapply held_throughout.
Qed.

Lemma while_gesture i e k h tail s :
  0 <= i -> sequence s !! Z.to_nat i = Some e -> 0 <= k <= 3 ->
  input s = gesture k h ++ tail ->
  exists tick evs,
    pressed k evs /\
    ((k = e /\
      while_not_flag (S (length (input s))) i s = (Done tt, board s tick tail evs)) \/
     (k <> e /\
      while_not_flag (S (length (input s))) i s =
        (Done tt, with_state GAME_OVER (board s tick tail evs)))).
Proof.
  intros Hi He Hk Hin.
  destruct (poll_gesture i e k h tail s Hi He Hk Hin) as (tick & evs & Hp & Hr).
  exists tick, evs. split; [exact Hp|].
  rewrite while_not_flag_S. unfold bind.
  destruct Hr as [[Heq ->]|[Hne ->]]; [by left|by right].
Qed.

Lemma verify_gestures gs (p : nat) s rest :
  state s = PLAYER_SAYS -> Forall (fun g => in_range g.1) gs ->
  input s = plays gs ++ rest ->
  take (length gs) (drop p (sequence s)) = gs.*1 ->
  exists tick evs,
    verify_from (length gs) (Z.of_nat p) s = (Done tt, board s tick rest evs) /\
    rounds gs.*1 evs.
Proof.
  revert p s. induction gs as [|[k h] gs IH]; intros p s Hst Hall Hin Hseq.
  - exists (uwTick s), []. simpl in Hin. subst rest. rewrite board_nil. split; [done|constructor].
  - apply List.Forall_cons_iff in Hall as [Hk Hall]. cbn [fst] in Hk.
    assert (He : sequence s !! p = Some k).
    { apply (f_equal (fun l => l !! 0%nat)) in Hseq. cbn [length] in Hseq.
      rewrite lookup_take_lt, lookup_drop, Nat.add_0_r in Hseq by lia. exact Hseq. }
    cbn [length] in Hseq. rewrite (drop_S _ _ _ He) in Hseq. simpl in Hseq.
    injection Hseq as Hseq.
    unfold plays in Hin. cbn [flat_map fst snd] in Hin. rewrite <- app_assoc in Hin.
    destruct (while_gesture (Z.of_nat p) k k h (plays gs ++ rest) s) as (t1 & e1 & Hp & Hr);
      [lia | by rewrite Nat2Z.id | exact Hk | exact Hin |].
    destruct Hr as [[_ E]|[Hne _]]; [|done].
    cbn [length]. rewrite verify_from_S. unfold bind, busy_budget, get. rewrite E.
    cbn [state board]. rewrite Hst.
    destruct (IH (S p) (board s t1 (plays gs ++ rest) e1)) as (t2 & e2 & E2 & Hr2);
      [exact Hst | exact Hall | reflexivity | exact Hseq |].
    rewrite Nat2Z.inj_succ in E2. unfold Z.succ in E2. rewrite E2, board_board.
    exists t2, (e1 ++ e2). split; [done|]. by constructor.
Qed.

Lemma verify_wrong_gesture gs k h todo (p : nat) s rest :
  state s = PLAYER_SAYS -> Forall (fun g => in_range g.1) gs -> in_range k ->
  input s = plays gs ++ gesture k h ++ rest ->
  take (length gs) (drop p (sequence s)) = gs.*1 ->
  (length gs < todo)%nat -> (p + todo <= length (sequence s))%nat ->
  sequence s !! (p + length gs)%nat <> Some k ->
  exists tick evs,
    verify_from todo (Z.of_nat p) s = (Done tt, with_state GAME_OVER (board s tick rest evs)) /\
    presses evs = gs.*1 ++ [k].
Proof.
  revert todo p s.
  induction gs as [|[k' h'] gs IH]; intros todo p s Hst Hall Hk Hin Hseq Htodo Hlen Hne.
  - destruct todo as [|todo]; [simpl in Htodo; lia|].
    destruct (lookup_lt_is_Some_2 (sequence s) p) as [e He]; [lia|].
    simpl in Hin.
    destruct (while_gesture (Z.of_nat p) e k h rest s) as (t1 & e1 & Hp & Hr);
      [lia | by rewrite Nat2Z.id | exact Hk | exact Hin |].
    destruct Hr as [[Heq _]|[_ E]].
    { exfalso. apply Hne. cbn [length]. rewrite Nat.add_0_r, He. by subst. }
    rewrite verify_from_S. unfold bind, busy_budget, get. rewrite E.
    exists t1, e1. split; [done|]. by apply presses_pressed.
  - destruct todo as [|todo]; [simpl in Htodo; lia|].
    apply List.Forall_cons_iff in Hall as [Hk' Hall]. cbn [fst] in Hk'.
    assert (He : sequence s !! p = Some k').
    { apply (f_equal (fun l => l !! 0%nat)) in Hseq. cbn [length] in Hseq.
      rewrite lookup_take_lt, lookup_drop, Nat.add_0_r in Hseq by lia. exact Hseq. }
    cbn [length] in Hseq. rewrite (drop_S _ _ _ He) in Hseq. simpl in Hseq.
    injection Hseq as Hseq.
    unfold plays in Hin. cbn [flat_map fst snd] in Hin. rewrite <- app_assoc in Hin.
    destruct (while_gesture (Z.of_nat p) k' k' h' (plays gs ++ gesture k h ++ rest) s)
      as (t1 & e1 & Hp & Hr); [lia | by rewrite Nat2Z.id | exact Hk' | exact Hin |].
    destruct Hr as [[_ E]|[Hno _]]; [|done].
    rewrite verify_from_S. unfold bind, busy_budget, get. rewrite E.
    cbn [state board]. rewrite Hst.
    destruct (IH todo (S p) (board s t1 (plays gs ++ gesture k h ++ rest) e1))
      as (t2 & e2 & E2 & Hp2); [exact Hst | exact Hall | exact Hk | reflexivity | exact Hseq
                               | cbn [length] in Htodo; lia | cbn [sequence board]; lia | |].
    { cbn [sequence board length] in *. by rewrite Nat.add_succ_r in Hne. }
    rewrite Nat2Z.inj_succ in E2. unfold Z.succ in E2. rewrite E2, board_board.
    exists t2, (e1 ++ e2). split; [done|].
    rewrite presses_app, (presses_pressed _ _ Hp), Hp2. reflexivity.
Qed.

(** X1.  If the board shows the buttons [sequence[0..current_level]] going
    down and up in order, each held for any number of reads, the turn of
    PLAYER_SAYS returns, has registered exactly these presses, used up
    exactly these readings, and has moved on as lines 157-164 say. *)
Theorem reproduced_gestures_advance s gs rest :
  state s = PLAYER_SAYS -> wf s ->
  gs.*1 = take (Z.to_nat (current_level s + 1)) (sequence s) ->
  input s = plays gs ++ rest ->
  exists tick evs,
    step s = (Done tt, next_round (board s tick rest evs)) /\ presses evs = gs.*1.
Proof.
  intros Hst (Hcl & Hlen & Hall) Hgs Hin. unfold MAX_LEVEL in *.
  assert (Hn : length gs = Z.to_nat (current_level s + 1)).
  { rewrite <- (length_fmap fst gs), Hgs, length_take. lia. }
  destruct (verify_gestures gs 0 s rest Hst) as (tick & evs & E & Hr).
  { change (Forall (in_range ∘ fst) gs). apply Forall_fmap. rewrite Hgs.
    by apply Forall_take. }
  { exact Hin. } { by rewrite drop_0, Hn. }
  exists tick, evs. split; [|by apply presses_rounds].
  rewrite step_unfold, Hst. unfold player_says, bind, get.
  rewrite <- Hn. change 0 with (Z.of_nat 0). rewrite E. cbn [state board]. rewrite Hst.
  unfold next_round. cbn [current_level board].
  destruct (_ =? _); [done|].
  unfold set_current_level, set_state, to_uint8. cbn [current_level state board].
  rewrite Z.mod_small by lia. done.
Qed.

(** X2.  If the board shows a correct prefix and then a button that is not
    the expected one, the turn returns in GAME_OVER with what was recorded
    after that gesture unread. *)
Theorem wrong_gesture_loses s gs k h rest :
  state s = PLAYER_SAYS -> wf s ->
  (length gs < Z.to_nat (current_level s + 1))%nat ->
  gs.*1 = take (length gs) (sequence s) ->
  in_range k -> sequence s !! length gs <> Some k ->
  input s = plays gs ++ gesture k h ++ rest ->
  exists tick evs,
    step s = (Done tt, with_state GAME_OVER (board s tick rest evs)) /\
    presses evs = gs.*1 ++ [k].
Proof.
  intros Hst (Hcl & Hlen & Hall) Hj Hgs Hk Hne Hin. unfold MAX_LEVEL in *.
  destruct (verify_wrong_gesture gs k h (Z.to_nat (current_level s + 1)) 0 s rest Hst)
    as (tick & evs & E & Hp); [|exact Hk|exact Hin|by rewrite drop_0|exact Hj|lia|exact Hne|].
  { change (Forall (in_range ∘ fst) gs). apply Forall_fmap. rewrite Hgs.
    by apply Forall_take. }
  exists tick, evs. split; [|exact Hp].
  rewrite step_unfold, Hst. unfold player_says, bind, get.
  change 0 with (Z.of_nat 0). by rewrite E.
Qed.

(** *** The footprint of the game on the board *)

Lemma keeps_weaken {A} (Q R : A -> Prop) (m : M A) :
  (forall a, Q a -> R a) -> keeps Q m -> keeps R m.
Proof.
  intros HQ Hm s. destruct (Hm s) as (used & evs & H1 & H2 & H3 & H4).
  exists used, evs. repeat split; auto.
Qed.

Lemma keeps_bind {A B} (Q : A -> Prop) (R : B -> Prop) (m : M A) (k : A -> M B) :
  keeps Q m -> (forall a, Q a -> keeps R (k a)) -> keeps R (bind m k).
Proof.
  intros Hm Hk s. destruct (Hm s) as (used & evs & H1 & H2 & H3 & H4).
  unfold bind. destruct (m s) as [[a| | |] s1]; cbn [fst snd] in *.
  - destruct (Hk a (H4 a eq_refl) s1) as (used' & evs' & K1 & K2 & K3 & K4).
    exists (used ++ used'), (evs ++ evs').
    split; [by rewrite H1, K1, app_assoc|].
    split; [by rewrite K2, H2, app_assoc|].
    split; [by apply Forall_app|exact K4].
  - exists used, evs. repeat split; auto. intros a Ha. discriminate Ha.
  - exists used, evs. repeat split; auto. intros a Ha. discriminate Ha.
  - exists used, evs. repeat split; auto. intros a Ha. discriminate Ha.
Qed.

Lemma keeps_still {A} (Q : A -> Prop) (m : M A) :
  (forall s, input (m s).2 = input s /\ trace (m s).2 = trace s /\
             forall a, (m s).1 = Done a -> Q a) ->
  keeps Q m.
Proof.
  intros H s. destruct (H s) as (H1 & H2 & H3).
  exists [], []. rewrite H1, H2, app_nil_r. repeat split; auto.
Qed.

Lemma keeps_ret {A} (Q : A -> Prop) (a : A) : Q a -> keeps Q (ret a).
Proof. intros Ha. apply keeps_still. intros s. simpl. repeat split. by intros ? [= <-]. Qed.

Lemma keeps_get {A} (f : Sys -> A) : keeps (fun _ => True) (get f).
Proof. apply keeps_still. intros s. simpl. done. Qed.

Lemma keeps_set_state v : keeps (fun _ => True) (set_state v).
Proof. apply keeps_still. intros s. simpl. done. Qed.

Lemma keeps_set_current_level v : keeps (fun _ => True) (set_current_level v).
Proof. apply keeps_still. intros s. simpl. done. Qed.

Lemma keeps_set_generator g : keeps (fun _ => True) (set_generator g).
Proof. apply keeps_still. intros s. simpl. done. Qed.

Lemma keeps_out_of_fuel {A} (Q : A -> Prop) : keeps Q (@out_of_fuel U A).
Proof. apply keeps_still. intros s. simpl. repeat split. intros a Ha. discriminate Ha. Qed.

Lemma keeps_busy_budget : keeps (fun _ => True) busy_budget.
Proof. apply keeps_get. Qed.

Lemma keeps_emit e : wired e -> keeps (fun _ => True) (emit e).
Proof.
  intros He s. exists [], [e]. simpl. repeat split; auto.
Qed.

Lemma keeps_HAL_Delay ms :
  ms ∈ [GAME_SPEED_MS; ERROR_BLINK_MS; WIN_ANIMATION_MS] ->
  keeps (fun _ => True) (HAL_Delay ms).
Proof. intros He s. exists [], [Delay ms]. simpl. repeat split; auto. Qed.

Lemma keeps_HAL_GPIO_WritePin pin level :
  pin ∈ led_pins -> keeps (fun _ => True) (HAL_GPIO_WritePin GPIOA pin level).
Proof. intros He. by apply keeps_emit. Qed.

Lemma keeps_HAL_GPIO_ReadPin port pin :
  wired (ReadPin port pin GPIO_PIN_SET) ->
  keeps (fun _ => True) (HAL_GPIO_ReadPin port pin).
Proof.
  intros He s. destruct s as [st cl sq g tk [|x ins] tr]; simpl.
  - exists [], []. simpl. rewrite app_nil_r. split; [done|]. split; [done|]. split; [constructor|done].
  - exists [x], [ReadPin port pin (pin_level (IDR port x) pin)]. simpl.
    repeat split; auto.
Qed.

Lemma keeps_at_index arr i :
  keeps (fun a => 0 <= i /\ arr !! Z.to_nat i = Some a) (at_index arr i).
Proof.
  apply keeps_still. intros s. unfold at_index.
  destruct (Z.leb_spec 0 i); [|by split_and!].
  destruct (arr !! Z.to_nat i) eqn:E; (split; [done|]); (split; [done|]).
  - by intros ? [= <-].
  - done.
Qed.

Lemma keeps_pin arr i : keeps (fun a => a ∈ arr) (at_index arr i).
Proof.
  eapply keeps_weaken; [|apply keeps_at_index].
  intros a [_ Ha]. by eapply list_elem_of_lookup_2.
Qed.

Lemma keeps_sequence_at i : keeps (fun _ => True) (sequence_at i).
Proof.
  unfold sequence_at. eapply keeps_bind; [apply keeps_get|]. intros arr _.
  eapply keeps_weaken; [|apply keeps_at_index]. done.
Qed.

Lemma keeps_sequence_store i v : keeps (fun _ => True) (sequence_store i v).
Proof.
  apply keeps_still. intros s. unfold sequence_store. by destruct (_ && _).
Qed.

Lemma keeps_draw : keeps (fun _ => True) draw.
Proof.
  unfold draw. eapply keeps_bind; [apply keeps_get|]. intros g _.
  eapply keeps_bind; [apply keeps_set_generator|]. intros _ _. by apply keeps_ret.
Qed.

Lemma keeps_for_up count i body :
  (forall j, keeps (fun _ => True) (body j)) -> keeps (fun _ => True) (for_up count i body).
Proof.
  intros Hb. revert i. induction count as [|c IH]; intros i; cbn [for_up].
  - by apply keeps_ret.
  - eapply keeps_bind; [apply Hb|]. intros _ _. apply IH.
Qed.

Lemma wired_delays :
  GAME_SPEED_MS ∈ [GAME_SPEED_MS; ERROR_BLINK_MS; WIN_ANIMATION_MS] /\
  ERROR_BLINK_MS ∈ [GAME_SPEED_MS; ERROR_BLINK_MS; WIN_ANIMATION_MS] /\
  WIN_ANIMATION_MS ∈ [GAME_SPEED_MS; ERROR_BLINK_MS; WIN_ANIMATION_MS].
Proof. repeat split; repeat constructor. Qed.

Lemma keeps_scan_from todo i : keeps (fun _ => True) (scan_from todo i).
Proof.
  revert i. induction todo as [|todo IH]; intros i; cbn [scan_from].
  - by apply keeps_ret.
  - eapply keeps_bind; [apply keeps_pin|]. intros pin Hpin.
    eapply keeps_bind; [by apply keeps_HAL_GPIO_ReadPin|]. intros [] _.
    + by apply keeps_ret.
    + apply IH.
Qed.

Lemma keeps_GetPressedButtonIndex : keeps (fun _ => True) GetPressedButtonIndex.
Proof. apply keeps_scan_from. Qed.

Lemma keeps_ToggleLEDsForGameOver : keeps (fun _ => True) ToggleLEDsForGameOver.
Proof.
  unfold ToggleLEDsForGameOver. apply keeps_for_up. intros _.
  eapply keeps_bind; [apply keeps_at_index|]. intros p0 [_ [= <-]].
  eapply keeps_bind; [apply keeps_at_index|]. intros p1 [_ [= <-]].
  eapply keeps_bind; [apply keeps_at_index|]. intros p2 [_ [= <-]].
  eapply keeps_bind; [apply keeps_at_index|]. intros p3 [_ [= <-]].
  eapply keeps_bind; [by apply keeps_emit|]. intros _ _.
  apply keeps_HAL_Delay, wired_delays.
Qed.

Lemma keeps_RunningLightForWin : keeps (fun _ => True) RunningLightForWin.
Proof.
  unfold RunningLightForWin. apply keeps_for_up. intros _. apply keeps_for_up. intros i.
  eapply keeps_bind; [apply keeps_pin|]. intros pin Hpin.
  eapply keeps_bind; [by apply keeps_HAL_GPIO_WritePin|]. intros _ _.
  eapply keeps_bind; [apply keeps_HAL_Delay, wired_delays|]. intros _ _.
  eapply keeps_bind; [apply keeps_pin|]. intros pin' Hpin'.
  by apply keeps_HAL_GPIO_WritePin.
Qed.

Lemma keeps_idle : keeps (fun _ => True) idle.
Proof.
  unfold idle. eapply keeps_bind; [by apply keeps_HAL_GPIO_ReadPin|]. intros [] _.
  - eapply keeps_bind; [apply keeps_get|]. intros t _.
    eapply keeps_bind; [apply keeps_set_generator|]. intros _ _.
    eapply keeps_bind; [apply keeps_set_current_level|]. intros _ _.
    apply keeps_set_state.
  - by apply keeps_ret.
Qed.

Lemma keeps_show i : keeps (fun _ => True) (show i).
Proof.
  unfold show.
  eapply keeps_bind; [apply keeps_sequence_at|]. intros e _.
  eapply keeps_bind; [apply keeps_pin|]. intros pin Hpin.
  eapply keeps_bind; [by apply keeps_HAL_GPIO_WritePin|]. intros _ _.
  eapply keeps_bind; [apply keeps_HAL_Delay, wired_delays|]. intros _ _.
  eapply keeps_bind; [apply keeps_sequence_at|]. intros e' _.
  eapply keeps_bind; [apply keeps_pin|]. intros pin' Hpin'.
  eapply keeps_bind; [by apply keeps_HAL_GPIO_WritePin|]. intros _ _.
  eapply keeps_bind; [apply keeps_HAL_Delay, wired_delays|]. intros _ _.
  apply keeps_set_state.
Qed.

Lemma keeps_simon_says : keeps (fun _ => True) simon_says.
Proof.
  unfold simon_says.
  eapply keeps_bind; [apply keeps_get|]. intros cl _.
  eapply keeps_bind; [apply keeps_draw|]. intros v _.
  eapply keeps_bind; [apply keeps_sequence_store|]. intros _ _.
  eapply keeps_bind; [apply keeps_get|]. intros cl' _.
  apply keeps_for_up, keeps_show.
Qed.

Lemma keeps_wait_release fuel index : keeps (fun _ => True) (wait_release fuel index).
Proof.
  induction fuel as [|fuel IH]; [apply keeps_out_of_fuel|].
  rewrite wait_release_S.
  eapply keeps_bind; [apply keeps_pin|]. intros pin Hpin.
  eapply keeps_bind; [by apply keeps_HAL_GPIO_ReadPin|]. intros [] _.
  - exact IH.
  - by apply keeps_ret.
Qed.

Lemma keeps_poll i : keeps (fun _ => True) (poll i).
Proof.
  rewrite poll_unfold.
  eapply keeps_bind; [apply keeps_GetPressedButtonIndex|]. intros index _.
  destruct (0 <=? index); [|by apply keeps_ret]. unfold echo.
  eapply keeps_bind; [apply keeps_pin|]. intros pin Hpin.
  eapply keeps_bind; [by apply keeps_HAL_GPIO_WritePin|]. intros _ _.
  eapply keeps_bind; [apply keeps_HAL_Delay, wired_delays|]. intros _ _.
  eapply keeps_bind; [apply keeps_busy_budget|]. intros fuel _.
  eapply keeps_bind; [apply keeps_wait_release|]. intros _ _.
  eapply keeps_bind; [apply keeps_pin|]. intros pin' Hpin'.
  eapply keeps_bind; [by apply keeps_HAL_GPIO_WritePin|]. intros _ _.
  eapply keeps_bind; [apply keeps_HAL_Delay, wired_delays|]. intros _ _.
  eapply keeps_bind; [apply keeps_sequence_at|]. intros e _.
  destruct (_ =? _); [by apply keeps_ret|].
  eapply keeps_bind; [apply keeps_set_state|]. intros _ _. by apply keeps_ret.
Qed.

Lemma keeps_while_not_flag fuel i : keeps (fun _ => True) (while_not_flag fuel i).
Proof.
  induction fuel as [|fuel IH]; [apply keeps_out_of_fuel|].
  rewrite while_not_flag_S. eapply keeps_bind; [apply keeps_poll|].
  intros [[]|] _; [by apply keeps_ret|exact IH|by apply keeps_ret].
Qed.

Lemma keeps_verify_from todo i : keeps (fun _ => True) (verify_from todo i).
Proof.
  revert i. induction todo as [|todo IH]; intros i; [by apply keeps_ret|].
  rewrite verify_from_S.
  eapply keeps_bind; [apply keeps_busy_budget|]. intros fuel _.
  eapply keeps_bind; [apply keeps_while_not_flag|]. intros _ _.
  eapply keeps_bind; [apply keeps_get|]. intros [] _; try by apply keeps_ret.
  apply IH.
Qed.

Lemma keeps_player_says : keeps (fun _ => True) player_says.
Proof.
  unfold player_says.
  eapply keeps_bind; [apply keeps_get|]. intros cl _.
  eapply keeps_bind; [apply keeps_verify_from|]. intros _ _.
  eapply keeps_bind; [apply keeps_get|]. intros [] _; try by apply keeps_ret.
  eapply keeps_bind; [apply keeps_get|]. intros cl' _.
  destruct (_ =? _); [apply keeps_set_state|].
  eapply keeps_bind; [apply keeps_set_current_level|]. intros _ _. apply keeps_set_state.
Qed.

Lemma keeps_step : keeps (fun _ => True) step.
Proof.
  unfold step. eapply keeps_bind; [apply keeps_get|]. intros [] _.
  - apply keeps_idle.
  - apply keeps_simon_says.
  - apply keeps_player_says.
  - eapply keeps_bind; [apply keeps_ToggleLEDsForGameOver|]. intros _ _. apply keeps_set_state.
  - eapply keeps_bind; [apply keeps_RunningLightForWin|]. intros _ _. apply keeps_set_state.
Qed.

Lemma keeps_main_loop n : keeps (fun _ => True) (main_loop n).
Proof.
  induction n as [|n IH]; [by apply keeps_ret|].
  rewrite main_loop_S. eapply keeps_bind; [apply keeps_step|]. intros _ _. exact IH.
Qed.

(** X3.  Whatever state the loop is started in and however many turns it
    runs, it uses up a prefix of the readings, only appends to the trace,
    and every HAL call it appends is wired: it reads only the Start pin on
    port A and the four button pins on port B, writes only single LED pins
    and toggles only all four LEDs on port A, and sleeps only 500, 200 or
    100 ms. *)
Theorem hal_calls_stay_on_wired_pins n s :
  exists used evs,
    input s = used ++ input (main_loop n s).2 /\
    trace (main_loop n s).2 = trace s ++ evs /\
    Forall wired evs.
Proof.
  destruct (keeps_main_loop n s) as (used & evs & H1 & H2 & H3 & _).
  by exists used, evs.
Qed.

(** *** Handlers that read nothing, and what IDLE does not read *)

Lemma free_ret {A} (a : A) : input_free (ret a).
Proof. by intros s ins. Qed.

Lemma free_bind {A B} (m : M A) (k : A -> M B) :
  input_free m -> (forall a, input_free (k a)) -> input_free (bind m k).
Proof.
  intros Hm Hk s ins. unfold bind. rewrite Hm.
  destruct (m s) as [[a| | |] s1]; cbn [fst snd]; [apply Hk|done..].
Qed.

Lemma free_get {A} (f : Sys -> A) :
  (forall s ins, f (with_input ins s) = f s) -> input_free (get f).
Proof. intros Hf s ins. unfold get. by rewrite Hf. Qed.

Lemma free_emit e : input_free (emit e).
Proof. by intros s ins. Qed.

Lemma free_set_state v : input_free (set_state v).
Proof. by intros s ins. Qed.

Lemma free_set_generator g : input_free (set_generator g).
Proof. by intros s ins. Qed.

Lemma free_HAL_Delay ms : input_free (HAL_Delay ms).
Proof. by intros s ins. Qed.

Lemma free_at_index arr i : input_free (at_index arr i).
Proof. intros s ins. unfold at_index. destruct (0 <=? i); [|done]. by destruct (arr !! _). Qed.

Lemma free_sequence_at i : input_free (sequence_at i).
Proof.
  unfold sequence_at. apply free_bind; [by apply free_get|].
  intros arr. apply free_at_index.
Qed.

Lemma free_sequence_store i v : input_free (sequence_store i v).
Proof.
  intros s ins. unfold sequence_store. cbn [sequence with_input]. by destruct (_ && _).
Qed.

Lemma free_draw : input_free draw.
Proof.
  unfold draw. apply free_bind; [by apply free_get|]. intros g.
  apply free_bind; [apply free_set_generator|]. intros _. apply free_ret.
Qed.

Lemma free_for_up count i body :
  (forall j, input_free (body j)) -> input_free (for_up count i body).
Proof.
  intros Hb. revert i. induction count as [|c IH]; intros i; cbn [for_up].
  - apply free_ret.
  - apply free_bind; [apply Hb|]. intros _. apply IH.
Qed.

Ltac free_step :=
  first [ apply free_ret | apply free_emit | apply free_set_state | apply free_HAL_Delay
        | apply free_at_index | apply free_sequence_at
        | apply free_bind; [|intros ?] ].

Lemma free_show i : input_free (show i).
Proof. unfold show. repeat free_step. Qed.

Lemma free_simon_says : input_free simon_says.
Proof.
  unfold simon_says. apply free_bind; [by apply free_get|]. intros cl.
  apply free_bind; [apply free_draw|]. intros v.
  apply free_bind; [apply free_sequence_store|]. intros _.
  apply free_bind; [by apply free_get|]. intros cl'.
  apply free_for_up, free_show.
Qed.

Lemma free_ToggleLEDsForGameOver : input_free ToggleLEDsForGameOver.
Proof.
  unfold ToggleLEDsForGameOver, HAL_GPIO_TogglePin. apply free_for_up. intros j.
  repeat free_step.
Qed.

Lemma free_RunningLightForWin : input_free RunningLightForWin.
Proof.
  unfold RunningLightForWin, HAL_GPIO_WritePin. apply free_for_up. intros _.
  apply free_for_up. intros j. repeat free_step.
Qed.

Lemma with_input_same (s : Sys) : with_input (input s) s = s.
Proof. by destruct s. Qed.

(** X8.  A turn of SIMON_SAYS, GAME_OVER or WIN does not read the board:
    it runs the same whatever the readings are, and leaves them all to be
    read later. *)
Theorem output_turns_ignore_input s ins :
  state s = SIMON_SAYS \/ state s = GAME_OVER \/ state s = WIN ->
  step (with_input ins s) = ((step s).1, with_input ins (step s).2) /\
  input (step s).2 = input s.
Proof.
  intros Hst.
  assert (H : forall ins, step (with_input ins s) = ((step s).1, with_input ins (step s).2)).
  { clear ins. intros ins. rewrite !step_unfold. cbn [with_input state].
    destruct Hst as [-> | [-> | ->]].
    - apply free_simon_says.
    - apply (free_bind ToggleLEDsForGameOver);
        [apply free_ToggleLEDsForGameOver|intros _; apply free_set_state].
    - apply (free_bind RunningLightForWin);
        [apply free_RunningLightForWin|intros _; apply free_set_state]. }
  split; [apply H|].
  specialize (H (input s)). rewrite with_input_same in H.
  apply (f_equal (fun x => input x.2)) in H. cbn [snd with_input input] in H. done.
Qed.

(** X9.  A turn of IDLE does not depend on port B: with the buttons blanked
    out of the readings it ends the same way. *)
Theorem buttons_ignored_in_idle s :
  state s = IDLE ->
  step (with_input (map hide_port_B (input s)) s) =
    ((step s).1, with_input (map hide_port_B (input (step s).2)) (step s).2).
Proof.
  intros Hst. rewrite !step_unfold. cbn [with_input state]. rewrite Hst.
  rewrite !idle_spec. cbn [with_input input].
  destruct (input s) as [|x rest] eqn:E; cbn [fst snd]; [by rewrite E|].
  cbn [map hide_port_B IDR_A at_tick]. by destruct (pin_level _ _).
Qed.

Lemma default_last_cons {A} (d d' a : A) l :
  default d (last (a :: l)) = default d' (last (a :: l)).
Proof. revert a. induction l as [|b l IH]; intros a; [done|]. exact (IH b). Qed.

(** X13.  While the readings show Start released, IDLE stays IDLE: each
    turn uses one reading and adds one read of the Start pin to the trace;
    level, sequence and engine stay as they are and no LED is written. *)
Theorem idle_until_start s waiting rest :
  state s = IDLE ->
  Forall (fun x => pin_level (IDR_A x) START_Pin = GPIO_PIN_SET) waiting ->
  input s = waiting ++ rest ->
  main_loop (length waiting) s =
    (Done tt,
     board s (default (uwTick s) (last (map at_tick waiting))) rest
       (replicate (length waiting) (ReadPin GPIOA START_Pin GPIO_PIN_SET))).
Proof.
  intros Hst Hw. revert s Hst. induction Hw as [|x waiting Hx _ IH]; intros s Hst Hin.
  - simpl in *. subst rest. by rewrite board_nil.
  - cbn [length]. rewrite main_loop_S. unfold bind.
    rewrite step_unfold, Hst, idle_spec, Hin. cbn [app]. rewrite Hx.
    rewrite (IH (board s (at_tick x) (waiting ++ rest) [ReadPin GPIOA START_Pin GPIO_PIN_SET]));
      [|exact Hst|done].
    rewrite board_board.
    replace (default (uwTick s) (last (map at_tick (x :: waiting))))
      with (default (at_tick x) (last (map at_tick waiting)))
      by (destruct waiting as [|y w];
          [done|exact (default_last_cons _ _ (at_tick y) (map at_tick w))]).
    reflexivity.
Qed.

(** *** The two animations *)

Lemma ldiff_lor_same o p : Z.ldiff (Z.lor o p) p = Z.ldiff o p.
Proof.
  apply Z.bits_inj'. intros n Hn. rewrite !Z.ldiff_spec, Z.lor_spec.
  by destruct (Z.testbit o n), (Z.testbit p n).
Qed.

Lemma ldiff_ldiff o p q : Z.ldiff (Z.ldiff o p) q = Z.ldiff o (Z.lor p q).
Proof.
  apply Z.bits_inj'. intros n Hn. rewrite !Z.ldiff_spec, Z.lor_spec.
  by destruct (Z.testbit o n), (Z.testbit p n), (Z.testbit q n).
Qed.

Lemma lxor_twice o p : Z.lxor (Z.lxor o p) p = o.
Proof. by rewrite Z.lxor_assoc, Z.lxor_nilpotent, Z.lxor_0_r. Qed.

Lemma to_uint32_add a b : to_uint32 (to_uint32 a + b) = to_uint32 (a + b).
Proof. unfold to_uint32. by rewrite Zplus_mod_idemp_l. Qed.

Lemma loss_flash_restores o : ODR_after o loss_flash = o.
Proof.
  unfold loss_flash, ODR_after. cbn [replicate concat app fold_left drive].
  by rewrite !lxor_twice.
Qed.

Lemma running_light_clears o : ODR_after o running_light = Z.ldiff o ALL_LEDS.
Proof.
  unfold running_light, ODR_after, blink, pin_of.
  cbn [upto flat_map app fold_left drive led_pins lookup list_lookup Z.to_nat Z.add
       Pos.to_nat Pos.iter_op Nat.add default Pos.add Pos.succ].
  rewrite !ldiff_lor_same, !ldiff_ldiff. reflexivity.
Qed.


(** X5.  [ToggleLEDsForGameOver] always returns, reads nothing and leaves
    the globals alone.  It sleeps 4 x 200 ms, and whatever the LEDs showed
    before, at every point of it they show that or its inverse on all four,
    and at the end they show what they showed before. *)
Theorem loss_animation_restores_leds s :
  exists tick evs,
    ToggleLEDsForGameOver s = (Done tt, board s tick (input s) evs) /\
    duration evs = 4 * ERROR_BLINK_MS /\
    (forall o, ODR_after o evs = o) /\
    (forall o pre suf, evs = pre ++ suf ->
       ODR_after o pre = o \/ ODR_after o pre = Z.lxor o ALL_LEDS).
Proof.
  destruct (ToggleLEDsForGameOver_spec s) as [tick E].
  exists tick, loss_flash. split; [exact E|]. split; [reflexivity|].
  split; [apply loss_flash_restores|].
  intros o pre suf Hpre.
  apply (always_prefix (fun x => x = o \/ x = Z.lxor o ALL_LEDS) o loss_flash pre suf);
    [by left| |exact Hpre].
  unfold loss_flash. cbn [replicate concat app always drive].
  rewrite !lxor_twice. repeat split; auto.
Qed.

(** X6.  [RunningLightForWin] always returns, reads nothing and leaves the
    globals alone.  It lights LED 0, 1, 2, 3 in this order four times,
    sleeps 16 x 100 ms, and whatever port A showed before, it ends with the
    four LEDs dark and every other pin of the port untouched. *)
Theorem win_animation_clears_leds s :
  exists tick evs,
    RunningLightForWin s = (Done tt, board s tick (input s) evs) /\
    duration evs = 16 * WIN_ANIMATION_MS /\
    presses evs = concat (replicate 4 [0; 1; 2; 3]) /\
    (forall o, ODR_after o evs = Z.ldiff o ALL_LEDS).
Proof.
  destruct (RunningLightForWin_spec s) as [tick E].
  exists tick, running_light. split; [exact E|]. split; [reflexivity|].
  split; [reflexivity|]. apply running_light_clears.
Qed.

(** *** How long a turn sleeps *)

Lemma duration_app a b : duration (a ++ b) = duration a + duration b.
Proof.
  induction a as [|e a IH]; [done|]. cbn [app]. unfold duration in *. cbn [fold_right].
  rewrite IH. destruct e; lia.
Qed.

Lemma duration_reads rd : Forall is_read rd -> duration rd = 0.
Proof.
  induction 1 as [|e rd He _ IH]; [done|]. destruct e; try contradiction. exact IH.
Qed.

Lemma duration_press_events k n : duration (press_events k n) = 2 * GAME_SPEED_MS.
Proof.
  unfold press_events. rewrite !duration_app.
  rewrite (duration_reads (replicate _ _)) by apply is_read_replicate. reflexivity.
Qed.

Lemma duration_pressed k evs : pressed k evs -> duration evs = 2 * GAME_SPEED_MS.
Proof.
  intros [_ (scan & n & Hs & ->)].
  by rewrite duration_app, (duration_reads _ Hs), duration_press_events.
Qed.

Lemma duration_rounds ks evs :
  rounds ks evs -> duration evs = Z.of_nat (length ks) * (2 * GAME_SPEED_MS).
Proof.
  induction 1 as [|k ks e evs Hp _ IH]; [done|].
  rewrite duration_app, (duration_pressed _ _ Hp), IH. cbn [length]. lia.
Qed.

Lemma duration_pulses l :
  duration (flat_map pulse l) = Z.of_nat (length l) * (2 * GAME_SPEED_MS).
Proof.
  induction l as [|e l IH]; [done|].
  change (flat_map pulse (e :: l)) with (pulse e ++ flat_map pulse l).
  rewrite duration_app, IH. change (duration (pulse e)) with (2 * GAME_SPEED_MS).
  cbn [length]. lia.
Qed.

Lemma duration_loss_flash : duration loss_flash = 4 * ERROR_BLINK_MS.
Proof. vm_compute. reflexivity. Qed.

Lemma duration_running_light : duration running_light = 16 * WIN_ANIMATION_MS.
Proof. vm_compute. reflexivity. Qed.

Lemma step_sleeps s :
  distrib_in_range U -> wf s ->
  exists r s' evs,
    step s = (r, s') /\ trace s' = trace s ++ evs /\
    (r = Done tt ->
     duration evs =
       match state s with
       | IDLE => 0
       | SIMON_SAYS => (current_level s + 1) * (2 * GAME_SPEED_MS)
       | PLAYER_SAYS => Z.of_nat (length (presses evs)) * (2 * GAME_SPEED_MS)
       | GAME_OVER => 4 * ERROR_BLINK_MS
       | WIN => 16 * WIN_ANIMATION_MS
       end).
Proof.
  intros HU (Hcl & Hlen & Hall). rewrite step_unfold.
  destruct (state s) eqn:Hst.
  - rewrite idle_spec. destruct (input s) as [|x rest].
    + exists Starved, s, []. by rewrite app_nil_r.
    + destruct (pin_level _ _); eexists _, _, _; (split; [reflexivity|]); by split.
  - destruct (simon_says_spec s Hcl Hlen (Forall_take _ _ _ Hall) (HU _)) as [tick ->].
    eexists _, _, _. split; [reflexivity|]. split; [reflexivity|]. intros _.
    rewrite duration_pulses, length_take, length_insert, Hlen.
    unfold MAX_LEVEL, GAME_SPEED_MS in *. lia.
  - destruct (player_says_spec s Hst Hcl Hlen) as (r & tick & rest & evs & Hr).
    destruct r as [[]| | |]; try contradiction.
    + destruct Hr as [[-> Hr]|[-> (j & k & e1 & e2 & Hj & Hr1 & Hp & Hne & ->)]].
      * eexists _, _, evs. split; [reflexivity|].
        split; [unfold next_round; by destruct (_ =? _)|]. intros _.
        by rewrite (duration_rounds _ _ Hr), (presses_rounds _ _ Hr).
      * eexists _, _, (e1 ++ e2). split; [reflexivity|]. split; [done|]. intros _.
        rewrite duration_app, presses_app, length_app.
        rewrite (duration_rounds _ _ Hr1), (presses_rounds _ _ Hr1).
        rewrite (duration_pressed _ _ Hp), (presses_pressed _ _ Hp). cbn [length]. lia.
    + destruct Hr as (-> & _). eexists _, _, _. split; [reflexivity|].
      split; [reflexivity|]. intros H. discriminate H.
  - destruct (ToggleLEDsForGameOver_spec s) as [tick E].
    unfold bind. rewrite E. eexists _, _, _. split; [reflexivity|].
    cbn [set_state trace board]. split; [reflexivity|]. intros _. exact duration_loss_flash.
  - destruct (RunningLightForWin_spec s) as [tick E].
    unfold bind. rewrite E. eexists _, _, _. split; [reflexivity|].
    cbn [set_state trace board]. split; [reflexivity|]. intros _. exact duration_running_light.
Qed.

(** X7.  How long a turn that returns has slept: nothing in IDLE, one
    second per position shown in SIMON_SAYS, one second per press
    registered in PLAYER_SAYS, 800 ms in GAME_OVER and 1600 ms in WIN. *)
Theorem turn_sleeps_for s s' :
  distrib_in_range U -> wf s -> step s = (Done tt, s') ->
  exists evs,
    trace s' = trace s ++ evs /\
    duration evs =
      match state s with
      | IDLE => 0
      | SIMON_SAYS => (current_level s + 1) * (2 * GAME_SPEED_MS)
      | PLAYER_SAYS => Z.of_nat (length (presses evs)) * (2 * GAME_SPEED_MS)
      | GAME_OVER => 4 * ERROR_BLINK_MS
      | WIN => 16 * WIN_ANIMATION_MS
      end.
Proof.
  intros HU Hwf Hstep.
  destruct (step_sleeps s HU Hwf) as (r & s1 & evs & E & Htr & Hd).
  rewrite E in Hstep.
  pose proof (f_equal fst Hstep) as Hr. pose proof (f_equal snd Hstep) as Hs.
  cbn [fst snd] in Hr, Hs. subst r s1. exists evs. split; [exact Htr|by apply Hd].
Qed.

(** *** One scan, reading by reading *)

Ltac not_held :=
  let j := fresh "j" in let Hh := fresh "Hh" in
  intros j ?; do 5 (try (destruct j as [|j])); cbn [lookup list_lookup]; intros;
  try lia; try discriminate;
  match goal with H : Some _ = Some _ |- _ => injection H as <- end;
  unfold held, pin_of; intros Hh;
  match goal with
  | E : pin_level ?a ?p = GPIO_PIN_SET |- _ =>
      assert (pin_level a p = GPIO_PIN_RESET) by exact Hh; congruence
  end.

Lemma scan_from_readings s :
  exists r s' used,
    GetPressedButtonIndex s = (r, s') /\
    input s = used ++ input s' /\
    trace s' = trace s ++ scan_of used /\
    state s' = state s /\ current_level s' = current_level s /\
    sequence s' = sequence s /\
    match r with
    | Done k =>
        (k = -1 /\ length used = 4%nat /\
         forall (j : nat) x, used !! j = Some x -> ~ held (Z.of_nat j) x) \/
        (0 <= k <= 3 /\ length used = Z.to_nat (k + 1) /\
         (exists x, used !! Z.to_nat k = Some x /\ held k x) /\
         forall (j : nat) x,
           (j < Z.to_nat k)%nat -> used !! j = Some x -> ~ held (Z.of_nat j) x)
    | Starved =>
        input s' = [] /\ (length used < 4)%nat /\
        forall (j : nat) x, used !! j = Some x -> ~ held (Z.of_nat j) x
    | _ => False
    end.
Proof.
  destruct s as [st cl sq g tk ins tr].
  unfold GetPressedButtonIndex, BUTTON_COUNT. change (Z.to_nat 4) with 4%nat.
  simpl.
  destruct ins as [|x0 ins]; simpl.
  2: destruct (pin_level (IDR_B x0) GPIO_PIN_3) eqn:E0; simpl.
  3: destruct ins as [|x1 ins]; simpl.
  4: destruct (pin_level (IDR_B x1) GPIO_PIN_4) eqn:E1; simpl.
  5: destruct ins as [|x2 ins]; simpl.
  6: destruct (pin_level (IDR_B x2) GPIO_PIN_5) eqn:E2; simpl.
  7: destruct ins as [|x3 ins]; simpl.
  8: destruct (pin_level (IDR_B x3) GPIO_PIN_6) eqn:E3; simpl.
  all: repeat match goal with |- context [to_int8 ?x] =>
         let v := eval vm_compute in (to_int8 x) in change (to_int8 x) with v end.
  1: eexists _, _, [].
  2,3: eexists _, _, [x0].
  4,5: eexists _, _, [x0; x1].
  6,7: eexists _, _, [x0; x1; x2].
  8,9: eexists _, _, [x0; x1; x2; x3].
  all: (split; [reflexivity|]); unfold scan_of, pin_of; simpl;
       rewrite ?E0, ?E1, ?E2, ?E3; rewrite <- ?app_assoc; simpl; rewrite ?app_nil_r.
  all: repeat (split; [done|]).
  1,3,5,7: split; [lia|]; not_held.
  5: left; split; [reflexivity|]; split; [reflexivity|]; not_held.
  all: right; split; [lia|]; split; [reflexivity|]; (split; [by eexists|]); not_held.
Qed.

(** X14.  [GetPressedButtonIndex] judges button [j] by the [j]-th reading
    it takes, and by that reading alone.  It returns [k] when the [k]-th
    reading shows button [k] down and each earlier reading showed its own
    button up; it returns -1 after four readings that each showed their
    own button up; and it is left polling when the readings end before
    that.  State, level and sequence are untouched. *)
Theorem scan_judges_each_button_by_its_own_reading s :
  exists r s' used,
    GetPressedButtonIndex s = (r, s') /\
    input s = used ++ input s' /\
    trace s' = trace s ++ scan_of used /\
    state s' = state s /\ current_level s' = current_level s /\
    sequence s' = sequence s /\ generator s' = generator s /\
    match r with
    | Done k =>
        (k = -1 /\ length used = 4%nat /\
         forall (j : nat) x, used !! j = Some x -> ~ held (Z.of_nat j) x) \/
        (0 <= k <= 3 /\ length used = Z.to_nat (k + 1) /\
         (exists x, used !! Z.to_nat k = Some x /\ held k x) /\
         forall (j : nat) x,
           (j < Z.to_nat k)%nat -> used !! j = Some x -> ~ held (Z.of_nat j) x)
    | Starved =>
        input s' = [] /\ (length used < 4)%nat /\
        forall (j : nat) x, used !! j = Some x -> ~ held (Z.of_nat j) x
    | _ => False
    end.
Proof.
  destruct (scan_from_readings s) as (r & s' & used & E & Hin & Htr & Hst & Hcl & Hsq & Hr).
  destruct (GetPressedButtonIndex_spec s) as (r0 & tick & rest & evs & E0 & _).
  assert (Hg : generator s' = generator s).
  { rewrite E in E0. pose proof (f_equal snd E0) as H. cbn [snd] in H. by subst s'. }
  exists r, s', used. done.
Qed.

(** *** Waiting for a press *)

Lemma scan_quiet s :
  Forall quiet (input s) ->
  exists tick rest evs,
    Forall is_read evs /\ Forall quiet rest /\
    ((GetPressedButtonIndex s = (Done (-1), board s tick rest evs) /\
      (length rest < length (input s))%nat) \/
     (GetPressedButtonIndex s = (Starved, board s tick [] evs) /\ rest = [])).
Proof.
  intros Hq.
  destruct (GetPressedButtonIndex_spec s) as (r & tick & rest & evs & E & Hrd & Hr).
  destruct (scan_from_readings s) as (r' & s' & used & E' & Hin & _ & _ & _ & _ & Hcase).
  rewrite E in E'.
  pose proof (f_equal fst E') as H1. pose proof (f_equal snd E') as H2.
  cbn [fst snd] in H1, H2. subst r' s'. cbn [input board] in Hin.
  rewrite Hin in Hq. apply Forall_app in Hq as [Hqu Hqr].
  exists tick, rest, evs. split; [exact Hrd|]. split; [exact Hqr|].
  destruct r as [k| | |]; try contradiction.
  - destruct Hr as [_ Hlen].
    destruct Hcase as [(-> & _)|(Hk & _ & (x & Hx & Hheld) & _)]; [by left|].
    exfalso. apply list_elem_of_lookup_2 in Hx.
    rewrite Forall_forall in Hqu. exact (Hqu x Hx k Hk Hheld).
  - right. subst rest. done.
Qed.

Lemma poll_quiet i s :
  Forall quiet (input s) ->
  exists tick rest evs,
    Forall is_read evs /\ Forall quiet rest /\
    ((poll i s = (Done (Flag false), board s tick rest evs) /\
      (length rest < length (input s))%nat) \/
     (poll i s = (Starved, board s tick [] evs) /\ rest = [])).
Proof.
  intros Hq. destruct (scan_quiet s Hq) as (tick & rest & evs & Hrd & Hqr & Hr).
  exists tick, rest, evs. split; [exact Hrd|]. split; [exact Hqr|].
  rewrite poll_unfold. unfold bind.
  destruct Hr as [[-> Hlen]|[-> ->]]; [left|right]; done.
Qed.

Lemma while_not_flag_quiet fuel i s :
  Forall quiet (input s) -> (length (input s) < fuel)%nat ->
  exists tick evs,
    while_not_flag fuel i s = (Starved, board s tick [] evs) /\ Forall is_read evs.
Proof.
  revert s. induction fuel as [|fuel IH]; intros s Hq Hlen; [lia|].
  rewrite while_not_flag_S. unfold bind.
  destruct (poll_quiet i s Hq) as (tick & rest & evs & Hrd & Hqr & Hr).
  destruct Hr as [[-> Hl]|[-> ->]].
  - destruct (IH (board s tick rest evs)) as (tick' & evs' & E & Hrd');
      [exact Hqr | simpl; lia |].
    rewrite E, board_board. exists tick', (evs ++ evs'). split; [done|].
    by apply Forall_app.
  - by exists tick, evs.
Qed.

(** X15.  PLAYER_SAYS has no timeout: while no reading shows a button
    down, the turn reads on and on; it changes neither state, level,
    sequence nor engine and makes no HAL call other than reads. *)
Theorem no_press_no_progress s :
  state s = PLAYER_SAYS -> 0 <= current_level s ->
  Forall quiet (input s) ->
  exists tick evs,
    step s = (Starved, board s tick [] evs) /\ Forall is_read evs.
Proof.
  intros Hst Hcl Hq.
  destruct (while_not_flag_quiet (S (length (input s))) 0 s Hq) as (tick & evs & E & Hrd);
    [lia|].
  exists tick, evs. split; [|exact Hrd].
  rewrite step_unfold, Hst. unfold player_says, bind, get.
  replace (Z.to_nat (current_level s + 1)) with (S (Z.to_nat (current_level s))) by lia.
  rewrite verify_from_S. unfold bind, busy_budget, get. by rewrite E.
Qed.

(** *** Sessions *)

Lemma advance_S n g : advance (S n) g = (distrib (advance n g)).2.
Proof. revert g. induction n as [|n IH]; intros g; [done|]. apply (IH (distrib g).2). Qed.

Lemma draws_S n g : draws (S n) g = draws n g ++ [(distrib (advance n g)).1].
Proof.
  revert g. induction n as [|n IH]; intros g; [done|].
  change (draws (S (S n)) g) with ((distrib g).1 :: draws (S n) (distrib g).2).
  by rewrite IH.
Qed.

Lemma length_draws n g : length (draws n g) = n.
Proof. revert g. induction n as [|n IH]; intros g; [done|]. simpl. by rewrite IH. Qed.

Lemma take_draws n m g : (n <= m)%nat -> take n (draws m g) = draws n g.
Proof.
  revert m g. induction n as [|n IH]; intros m g Hn; [done|].
  destruct m as [|m]; [lia|]. simpl. rewrite IH by lia. done.
Qed.

Lemma session_insert sq n evs (l : nat) v :
  (n <= l)%nat -> session sq n evs -> session (<[l := v]> sq) n evs.
Proof.
  intros Hn Hs. induction Hs as [|n evs echo Hs IH Hr]; [constructor|].
  rewrite <- (take_insert_ge sq (S n) l v) by lia.
  constructor; [apply IH; lia|]. by rewrite take_insert_ge by lia.
Qed.

Lemma step_session s :
  distrib_in_range U -> wf s ->
  exists r s' evs,
    step s = (r, s') /\ trace s' = trace s ++ evs /\
    match state s with
    | IDLE =>
        (state s' = IDLE /\ (r = Done tt \/ r = Starved)) \/
        (r = Done tt /\ state s' = SIMON_SAYS /\ current_level s' = 0 /\
         sequence s' = sequence s /\ evs = [ReadPin GPIOA START_Pin GPIO_PIN_RESET] /\
         exists x, input s = x :: input s' /\
           pin_level (IDR_A x) START_Pin = GPIO_PIN_RESET /\
           generator s' = engine_seed (at_tick x))
    | SIMON_SAYS =>
        r = Done tt /\ state s' = PLAYER_SAYS /\ current_level s' = current_level s /\
        sequence s' =
          <[Z.to_nat (current_level s) := (distrib (generator s)).1]> (sequence s) /\
        generator s' = (distrib (generator s)).2 /\ input s' = input s /\
        evs = flat_map pulse (take (Z.to_nat (current_level s + 1)) (sequence s'))
    | PLAYER_SAYS =>
        sequence s' = sequence s /\ generator s' = generator s /\
        ((r = Starved /\ state s' = PLAYER_SAYS /\ current_level s' = current_level s) \/
         (r = Done tt /\ state s' = GAME_OVER /\ current_level s' = current_level s) \/
         (r = Done tt /\
          rounds (take (Z.to_nat (current_level s + 1)) (sequence s)) evs /\
          ((current_level s = MAX_LEVEL - 1 /\ state s' = WIN /\
            current_level s' = current_level s) \/
           (current_level s < MAX_LEVEL - 1 /\ state s' = SIMON_SAYS /\
            current_level s' = current_level s + 1))))
    | _ => r = Done tt /\ state s' = IDLE /\ input s' = input s
    end.
Proof.
  intros HU (Hcl & Hlen & Hall). rewrite step_unfold.
  destruct (state s) eqn:Hst.
  - rewrite idle_spec. destruct (input s) as [|x rest].
    + exists Starved, s, []. rewrite app_nil_r. split; [done|]. split; [done|]. left. auto.
    + destruct (pin_level _ _) eqn:Hlow; eexists _, _, _; (split; [reflexivity|]).
      * split; [reflexivity|]. right. cbn [state current_level sequence generator input].
        repeat (split; [done|]). by exists x.
      * split; [reflexivity|]. left. cbn [board state]. auto.
  - destruct (simon_says_spec s Hcl Hlen (Forall_take _ _ _ Hall) (HU _)) as [tick ->].
    eexists _, _, _. split; [reflexivity|]. split; [reflexivity|]. done.
  - destruct (player_says_spec s Hst Hcl Hlen) as (r & tick & rest & evs & Hr).
    destruct r as [[]| | |]; try contradiction.
    + destruct Hr as [[-> Hr]|[-> (j & k & e1 & e2 & Hj & Hr1 & Hp & Hne & ->)]].
      * eexists _, _, evs. split; [reflexivity|].
        unfold next_round. cbn [board current_level].
        destruct (Z.eqb_spec (current_level s) (MAX_LEVEL - 1)) as [Heq|Hneq].
        -- split; [done|]. split; [done|]. split; [done|]. right. right.
           split; [done|]. split; [exact Hr|]. left. done.
        -- split; [done|]. split; [done|]. split; [done|]. right. right.
           split; [done|]. split; [exact Hr|]. right. cbn. split; [lia|done].
      * eexists _, _, (e1 ++ e2). split; [reflexivity|]. split; [done|].
        split; [done|]. split; [done|]. right. left. done.
    + destruct Hr as (-> & _). eexists _, _, _. split; [reflexivity|].
      split; [reflexivity|]. split; [done|]. split; [done|]. left. done.
  - destruct (ToggleLEDsForGameOver_spec s) as [tick E].
    unfold bind. rewrite E. eexists _, _, _. split; [reflexivity|].
    cbn [set_state trace board state input]. split; [reflexivity|].
    split; [reflexivity|]. split; reflexivity.
  - destruct (RunningLightForWin_spec s) as [tick E].
    unfold bind. rewrite E. eexists _, _, _. split; [reflexivity|].
    cbn [set_state trace board state input]. split; [reflexivity|].
    split; [reflexivity|]. split; reflexivity.
Qed.

Lemma main_loop_keeps (I : outcome unit -> Sys -> Prop) :
  distrib_in_range U ->
  (forall s r s', wf s -> I (Done tt) s -> step s = (r, s') -> I r s') ->
  forall n s r s', wf s -> I (Done tt) s -> main_loop n s = (r, s') -> I r s'.
Proof.
  intros HU Hstep. induction n as [|n IH]; intros s r s' Hwf HI Hrun.
  - pose proof (f_equal fst Hrun) as H1. pose proof (f_equal snd Hrun) as H2.
    cbn in H1, H2. by subst.
  - rewrite main_loop_S in Hrun. unfold bind in Hrun.
    destruct (step_cases s HU Hwf) as (r1 & s1 & evs & E & _ & Hr1 & Hwf1 & _).
    pose proof (Hstep s r1 s1 Hwf HI E) as HI1.
    rewrite E in Hrun. destruct Hr1 as [-> | ->].
    + by apply (IH s1).
    + pose proof (f_equal fst Hrun) as H1. pose proof (f_equal snd Hrun) as H2.
      cbn in H1, H2. by subst.
Qed.


Lemma step_result s r s' r0 s0 :
  step s = (r, s') -> step s = (r0, s0) -> r0 = r /\ s0 = s'.
Proof.
  intros H1 H2. rewrite H1 in H2.
  pose proof (f_equal fst H2) as Hr. pose proof (f_equal snd H2) as Hs.
  cbn [fst snd] in Hr, Hs. by subst.
Qed.

Lemma step_uses_prefix s r s' :
  step s = (r, s') -> exists used, input s = used ++ input s'.
Proof.
  intros E. destruct (keeps_step s) as (used & _ & H & _).
  rewrite E in H. by exists used.
Qed.

Lemma seeded_step ins s r s' :
  distrib_in_range U -> wf s ->
  (exists used, ins = used ++ input s /\
     (state s <> IDLE ->
      exists x, x ∈ used /\ pin_level (IDR_A x) START_Pin = GPIO_PIN_RESET /\
        seeded_by (at_tick x) s)) ->
  step s = (r, s') ->
  exists used, ins = used ++ input s' /\
    (state s' <> IDLE ->
     exists x, x ∈ used /\ pin_level (IDR_A x) START_Pin = GPIO_PIN_RESET /\
       seeded_by (at_tick x) s').
Proof.
  intros HU Hwf (used & Hins & Hseed) Hstep.
  destruct (step_uses_prefix s r s' Hstep) as [c Hc].
  exists (used ++ c). split; [by rewrite Hins, Hc, app_assoc|]. intros Hst'.
  destruct (step_session s HU Hwf) as (r0 & s0 & evs & E & _ & Hcase).
  destruct (step_result _ _ _ _ _ Hstep E) as [-> ->].
  destruct Hwf as (Hcl & Hlen & _). unfold MAX_LEVEL in *.
  destruct (state s) eqn:Hst.
  - destruct Hcase as [[Hidle _]|(_ & Hs' & Hl' & Hsq & _ & x & Hin & Hlow & Hg)]; [done|].
    exists x. split.
    { rewrite Hc in Hin. destruct c as [|y c].
      - simpl in Hin. apply (f_equal length) in Hin. simpl in Hin. lia.
      - injection Hin as -> _. apply elem_of_app. right. by left. }
    split; [exact Hlow|]. unfold seeded_by, drawn. rewrite Hs', Hl'. by split.
  - destruct Hcase as (_ & Hs' & Hl' & Hsq & Hg & _).
    destruct Hseed as (x & Hx & Hlow & Htake & Hgen); [done|].
    exists x. split; [apply elem_of_app; by left|]. split; [exact Hlow|].
    unfold seeded_by, drawn in *. rewrite Hs', Hl', Hsq, Hg. rewrite Hst in Htake, Hgen.
    replace (Z.to_nat (current_level s + 1)) with (S (Z.to_nat (current_level s))) by lia.
    rewrite draws_S, advance_S, <- Hgen, <- Htake. split; [|done].
    rewrite (take_S_r _ _ (distrib (generator s)).1)
      by (apply list_lookup_insert_eq; lia).
    by rewrite take_insert_ge by lia.
  - destruct Hcase as (Hsq & Hg & Hcase).
    destruct Hseed as (x & Hx & Hlow & Htake & Hgen); [done|].
    exists x. split; [apply elem_of_app; by left|]. split; [exact Hlow|].
    unfold seeded_by, drawn in *. rewrite Hst in Htake, Hgen. rewrite Hsq, Hg.
    destruct Hcase as [(_ & -> & ->)|[(_ & -> & ->)|(_ & _ & [(_ & -> & ->)|(_ & -> & ->)])]];
      try done.
  - by destruct Hcase as (_ & Hs' & _).
  - by destruct Hcase as (_ & Hs' & _).
Qed.

(** X10.  Outside IDLE the session in progress plays the stream of a
    freshly seeded engine: some reading of the run showed Start pressed,
    the engine was seeded with the tick of that reading, the entries of
    [sequence] drawn so far are the first draws of that seeded engine in
    order, and the engine has advanced by exactly that many draws. *)
Theorem sequence_is_seeded_stream n ins r s :
  distrib_in_range U -> main_loop n (boot ins) = (r, s) -> state s <> IDLE ->
  exists x,
    x ∈ ins /\ pin_level (IDR_A x) START_Pin = GPIO_PIN_RESET /\
    take (drawn s) (sequence s) = draws (drawn s) (engine_seed (at_tick x)) /\
    generator s = advance (drawn s) (engine_seed (at_tick x)).
Proof.
  intros HU Hrun Hst.
  pose (I := fun (_ : outcome unit) (s : Sys) =>
    exists used, ins = used ++ input s /\
      (state s <> IDLE ->
       exists x, x ∈ used /\ pin_level (IDR_A x) START_Pin = GPIO_PIN_RESET /\
         seeded_by (at_tick x) s)).
  assert (HI : I r s).
  { apply (main_loop_keeps I HU) with (n := n) (s := boot ins); [|apply wf_boot| |exact Hrun].
    - intros s0 r0 s0' Hwf H0 E. by apply (seeded_step ins s0 r0 s0' HU Hwf).
    - exists []. split; [done|]. intros H. by destruct H. }
  destruct HI as (used & Hins & Hseed).
  destruct (Hseed Hst) as (x & Hx & Hlow & Htake & Hgen).
  exists x. split; [rewrite Hins; apply elem_of_app; by left|]. done.
Qed.

Lemma in_session_step s r s' :
  distrib_in_range U -> wf s -> in_session (Done tt) s -> step s = (r, s') ->
  in_session r s'.
Proof.
  intros HU Hwf HI Hstep.
  destruct (step_session s HU Hwf) as (r0 & s0 & evs & E & Htr & Hcase).
  destruct (step_result _ _ _ _ _ Hstep E) as [-> ->].
  destruct Hwf as (Hcl & Hlen & _). unfold MAX_LEVEL in *.
  unfold in_session in *.
  destruct (state s) eqn:Hst.
  - destruct Hcase as [[-> _]|(_ & -> & Hl' & Hsq & -> & _)]; [done|].
    intros _. exists (trace s), []. split; [exact Htr|]. rewrite Hl'. constructor.
  - destruct Hcase as (_ & -> & Hl' & Hsq & _ & _ & ->).
    destruct (HI eq_refl) as (pre & evs & Hpre & Hsess). intros _.
    exists pre, evs. rewrite Htr, Hpre, Hl'. split; [by rewrite <- app_assoc|].
    rewrite Hsq. apply session_insert; [lia|exact Hsess].
  - destruct Hcase as (Hsq & _ & Hcase).
    destruct (HI eq_refl) as (pre & evs0 & Hpre & Hsess).
    destruct Hcase as [(-> & -> & _)|[(_ & -> & _)|(_ & Hr & Hcase)]]; [done|done|].
    assert (Hnext : session (sequence s) (S (Z.to_nat (current_level s)))
              (evs0 ++ flat_map pulse (take (S (Z.to_nat (current_level s))) (sequence s))
               ++ evs)).
    { constructor; [exact Hsess|].
      by replace (S (Z.to_nat (current_level s))) with (Z.to_nat (current_level s + 1))
        by lia. }
    assert (Htr' : trace s' =
              pre ++ start_read ::
                (evs0 ++ flat_map pulse (take (S (Z.to_nat (current_level s))) (sequence s))
                 ++ evs)).
    { rewrite Htr, Hpre.
      replace (S (Z.to_nat (current_level s))) with (Z.to_nat (current_level s + 1))
        by lia.
      rewrite <- !app_assoc. cbn [app]. by rewrite <- !app_assoc. }
    destruct Hcase as [(Hlast & -> & _)|(Hmore & -> & Hl')].
    + eexists _, _. split; [exact Htr'|]. rewrite Hsq. unfold MAX_LEVEL in *.
      by replace (Z.to_nat 5) with (S (Z.to_nat (current_level s))) by lia.
    + intros _. eexists _, _. split; [exact Htr'|]. rewrite Hsq, Hl'.
      by replace (Z.to_nat (current_level s + 1)) with (S (Z.to_nat (current_level s)))
        by lia.
  - by destruct Hcase as (_ & -> & _).
  - by destruct Hcase as (_ & -> & _).
Qed.

(** X11.  The machine is in WIN only at the end of a complete session:
    the trace ends with a Start press followed by five rounds, round [k]
    showing [sequence[0..k]] and answered by presses of exactly these
    buttons. *)
Theorem win_follows_a_full_session n ins r s :
  distrib_in_range U -> main_loop n (boot ins) = (r, s) -> state s = WIN ->
  exists pre evs,
    trace s = pre ++ ReadPin GPIOA START_Pin GPIO_PIN_RESET :: evs /\
    session (sequence s) (Z.to_nat MAX_LEVEL) evs.
Proof.
  intros HU Hrun Hst.
  assert (HI : in_session r s).
  { apply (main_loop_keeps in_session HU) with (n := n) (s := boot ins);
      [|apply wf_boot|exact I|exact Hrun].
    intros s0 r0 s0' Hwf H0 E. by apply (in_session_step s0 r0 s0' HU Hwf). }
  unfold in_session in HI. by rewrite Hst in HI.
Qed.

Lemma player_says_gestures s gs rest :
  state s = PLAYER_SAYS -> wf s ->
  gs.*1 = take (Z.to_nat (current_level s + 1)) (sequence s) ->
  input s = plays gs ++ rest ->
  exists tick evs,
    step s = (Done tt, next_round (board s tick rest evs)) /\ presses evs = gs.*1.
Proof.
  intros Hst (Hcl & Hlen & Hall) Hgs Hin. unfold MAX_LEVEL in *.
  assert (Hn : length gs = Z.to_nat (current_level s + 1)).
  { rewrite <- (length_fmap fst gs), Hgs, length_take. lia. }
  destruct (verify_gestures gs 0 s rest Hst) as (tick & evs & E & Hr).
  { change (Forall (in_range ∘ fst) gs). apply Forall_fmap. rewrite Hgs.
    by apply Forall_take. }
  { exact Hin. } { by rewrite drop_0, Hn. }
  exists tick, evs. split; [|by apply presses_rounds].
  rewrite step_unfold, Hst. unfold player_says, bind, get.
  rewrite <- Hn. change 0 with (Z.of_nat 0). rewrite E. cbn [state board]. rewrite Hst.
  unfold next_round. cbn [current_level board].
  destruct (_ =? _); [done|].
  unfold set_current_level, set_state, to_uint8. cbn [current_level state board].
  rewrite Z.mod_small by lia. done.
Qed.

Lemma session_won todo : forall s gss rest g0,
  distrib_in_range U -> wf s -> state s = SIMON_SAYS ->
  (Z.to_nat (current_level s) + S todo = 5)%nat ->
  take (Z.to_nat (current_level s)) (sequence s) = draws (Z.to_nat (current_level s)) g0 ->
  generator s = advance (Z.to_nat (current_level s)) g0 ->
  length gss = S todo ->
  (forall (k : nat) gs,
     gss !! k = Some gs -> gs.*1 = draws (Z.to_nat (current_level s) + S k) g0) ->
  input s = flat_map plays gss ++ rest ->
  exists s',
    main_loop (2 * S todo) s = (Done tt, s') /\ state s' = WIN /\
    sequence s' = draws 5 g0 /\ generator s' = advance 5 g0 /\ input s' = rest.
Proof.
  induction todo as [|todo IH]; intros s gss rest g0 HU Hwf Hst Hlv Htake Hgen Hlen Hgss Hin.
  all: destruct gss as [|gs gss]; [discriminate Hlen|].
  all: pose proof Hwf as (Hcl & Hlen5 & Hall); unfold MAX_LEVEL in Hcl, Hlen5.
  all: destruct (simon_says_spec s (proj1 Hwf) (proj1 (proj2 Hwf))
                   (Forall_take _ _ _ Hall) (HU _)) as [t1 E1].
  all: set (s1 := mkSys PLAYER_SAYS (current_level s)
         (<[Z.to_nat (current_level s) := (distrib (generator s)).1]> (sequence s))
         (distrib (generator s)).2 t1 (input s)
         (trace s ++ flat_map pulse
            (take (Z.to_nat (current_level s + 1))
               (<[Z.to_nat (current_level s) := (distrib (generator s)).1]> (sequence s)))))
       in E1.
  all: assert (Hwf1 : wf s1)
    by (split; [exact (proj1 Hwf)|]; split;
        [cbn; by rewrite length_insert|cbn; apply Forall_insert; [exact Hall|apply HU]]).
  all: assert (Htake1 : take (Z.to_nat (current_level s + 1)) (sequence s1) =
                        draws (S (Z.to_nat (current_level s))) g0)
    by (cbn [sequence s1];
        replace (Z.to_nat (current_level s + 1)) with (S (Z.to_nat (current_level s)))
          by lia;
        rewrite (take_S_r _ _ (distrib (generator s)).1)
          by (apply list_lookup_insert_eq; lia);
        rewrite take_insert_ge by lia; by rewrite draws_S, Htake, Hgen).
  all: cbn [flat_map] in Hin; rewrite <- app_assoc in Hin.
  all: destruct (player_says_gestures s1 gs (flat_map plays gss ++ rest) eq_refl Hwf1)
         as (t2 & e2 & E2 & _);
    [ cbn [current_level s1]; rewrite Htake1, (Hgss 0%nat gs eq_refl); f_equal; lia
    | exact Hin |].
  all: match goal with |- context [main_loop (2 * S ?n)] =>
         replace (2 * S n)%nat with (S (S (2 * n))) by lia end.
  all: rewrite !main_loop_S; unfold bind at 1; rewrite step_unfold, Hst, E1.
  all: unfold bind at 1; rewrite E2; unfold next_round; cbn [current_level board s1].
  - destruct gss; [|discriminate Hlen].
    assert (Hl4 : current_level s = 4) by lia.
    rewrite Hl4. change (4 =? MAX_LEVEL - 1) with true. cbn iota.
    eexists. split; [reflexivity|]. cbn [with_state state sequence generator input board].
    split; [done|]. split; [|split; [|reflexivity]].
    + rewrite Hl4 in Htake1. change (Z.to_nat (4 + 1)) with 5%nat in Htake1.
      change (S (Z.to_nat 4)) with 5%nat in Htake1. rewrite <- Htake1.
      cbn [sequence s1]. rewrite take_ge; [done|]. rewrite length_insert. lia.
    + cbn [generator s1]. rewrite Hgen, Hl4. change 5%nat with (S (Z.to_nat 4)).
      by rewrite advance_S.
  - destruct (Z.eqb_spec (current_level s) (MAX_LEVEL - 1)) as [Heq|Hne];
      [unfold MAX_LEVEL in Heq; lia|].
    match goal with |- context [main_loop _ ?s2] =>
      destruct (IH s2 gss rest g0 HU) as (s' & Hrun & Hres) end.
    + split; [cbn; unfold MAX_LEVEL; lia|]. split; [exact (proj1 (proj2 Hwf1))|].
      exact (proj2 (proj2 Hwf1)).
    + reflexivity.
    + cbn. lia.
    + cbn [with_state with_level current_level sequence board].
      rewrite Htake1. f_equal. lia.
    + cbn [with_state with_level current_level generator board s1].
      replace (Z.to_nat (current_level s + 1)) with (S (Z.to_nat (current_level s)))
        by lia.
      by rewrite advance_S, Hgen.
    + simpl in Hlen. lia.
    + intros k gs' Hk. cbn [with_state with_level current_level board].
      rewrite (Hgss (S k) gs' Hk). f_equal. lia.
    + reflexivity.
    + exists s'. split; [|exact Hres]. rewrite <- Hrun. reflexivity.
Qed.

(** X12.  The game can be won from power-up, whatever the seed: if Start
    is read pressed at tick [t] and the board then shows, round after
    round, the buttons the engine seeded with [t] draws, each held for any
    number of reads, the eleventh turn of the loop ends in WIN with
    [sequence] holding the five draws. *)
Theorem reproducing_player_wins t gss rest :
  distrib_in_range U -> length gss = Z.to_nat MAX_LEVEL ->
  (forall (k : nat) gs, gss !! k = Some gs -> gs.*1 = draws (S k) (engine_seed t)) ->
  exists s,
    main_loop 11 (boot (start_pressed t :: flat_map plays gss ++ rest)) = (Done tt, s) /\
    state s = WIN /\ sequence s = draws (Z.to_nat MAX_LEVEL) (engine_seed t) /\
    input s = rest.
Proof.
  intros HU Hlen Hgss.
  set (s1 := mkSys SIMON_SAYS 0 (replicate (Z.to_nat MAX_LEVEL) 0) (engine_seed t) t
               (flat_map plays gss ++ rest) [ReadPin GPIOA START_Pin GPIO_PIN_RESET]).
  assert (E : step (boot (start_pressed t :: flat_map plays gss ++ rest)) = (Done tt, s1)).
  { rewrite step_unfold. cbn [state boot]. rewrite idle_spec. cbn [input].
    change (pin_level (IDR_A (start_pressed t)) START_Pin) with GPIO_PIN_RESET.
    reflexivity. }
  destruct (session_won 4 s1 gss rest (engine_seed t) HU) as (s' & Hrun & H1 & H2 & _ & H3);
    try reflexivity; try done.
  { split; [cbn; unfold MAX_LEVEL; lia|]. split; [reflexivity|].
    cbn. repeat constructor; unfold in_range; lia. }
  exists s'. split; [|done].
  change 11%nat with (S (2 * 5)). rewrite main_loop_S. unfold bind at 1. by rewrite E.
Qed.

(** *** The bring-up and the pins the game uses *)

Lemma wired_prepared e : wired e -> prepared MX_GPIO_Init e = true.
Proof.
  destruct e as [[] pin lvl|[] pin lvl|[] pin|ms]; cbn [wired]; try done.
  - by intros ->.
  - intros H. repeat (apply elem_of_cons in H as [->|H]; [reflexivity|]).
    by apply elem_of_nil in H.
  - intros H. repeat (apply elem_of_cons in H as [->|H]; [reflexivity|]).
    by apply elem_of_nil in H.
  - by intros ->.
Qed.

(** X4.  [MX_GPIO_Init] switches on the clock of a port before it writes
    or configures the port, and leaves the four LED outputs low.  Every
    HAL call the game loop ever makes finds its pins prepared: the port
    clock runs, a pin it reads was configured as an input with pull-up, a
    pin it writes or toggles as a push-pull output. *)
Theorem game_uses_only_prepared_pins :
  clocks_first [] MX_GPIO_Init = true /\
  (forall o, Z.land (ODR_after o (levels_of MX_GPIO_Init)) ALL_LEDS = 0) /\
  forall n s,
    exists evs,
      trace (main_loop n s).2 = trace s ++ evs /\
      Forall (fun e => prepared MX_GPIO_Init e = true) evs.
Proof.
  split; [reflexivity|]. split.
  - intros o. cbn. apply Z.bits_inj'. intros i Hi.
    rewrite Z.land_spec, Z.ldiff_spec, Z.bits_0. by destruct (Z.testbit _ i), (Z.testbit _ i).
  - intros n s. destruct (keeps_main_loop n s) as (_ & evs & _ & Htr & Hw & _).
    exists evs. split; [exact Htr|]. eapply Forall_impl; [exact Hw|]. apply wired_prepared.
Qed.

(** *** A round of PLAYER_SAYS, read off the board *)

(** *** What each outcome says about the readings *)

Lemma scan_on_readings s :
  exists r tick rest evs used,
    GetPressedButtonIndex s = (r, board s tick rest evs) /\
    Forall is_read evs /\ input s = used ++ rest /\
    match r with
    | Done k => (k = -1 /\ scan_misses used) \/ (0 <= k <= 3 /\ scan_hits k used)
    | Starved =>
        rest = [] /\ (length used < 4)%nat /\
        forall (j : nat) x, used !! j = Some x -> ~ held (Z.of_nat j) x
    | _ => False
    end.
Proof.
  destruct (GetPressedButtonIndex_spec s) as (r & tick & rest & evs & E & Hrd & Hr).
  destruct (scan_from_readings s) as (r' & s' & used & E' & Hin & _ & _ & _ & _ & Hcase).
  rewrite E in E'.
  pose proof (f_equal fst E') as H1. pose proof (f_equal snd E') as H2.
  cbn [fst snd] in H1, H2. subst r' s'. cbn [input board] in Hin, Hcase.
  exists r, tick, rest, evs, used. split; [exact E|]. split; [exact Hrd|].
  split; [exact Hin|].
  destruct r as [k| | |]; try contradiction.
  - destruct Hcase as [(-> & Hl & Hup)|(Hk & Hl & Hx & Hup)]; [left|right]; done.
  - exact Hcase.
Qed.

Lemma scan_misses_length u : scan_misses u -> length u = 4%nat.
Proof. by intros [H _]. Qed.

Lemma scan_hits_length k u : 0 <= k <= 3 -> scan_hits k u -> (0 < length u <= 4)%nat.
Proof. intros Hk [H _]. lia. Qed.

Lemma poll_on_readings i e s :
  0 <= i -> sequence s !! Z.to_nat i = Some e ->
  exists r tick rest evs used,
    input s = used ++ rest /\
    match r with
    | Done (Flag false) =>
        poll i s = (r, board s tick rest evs) /\ scan_misses used
    | Done (Flag true) =>
        poll i s = (r, board s tick rest evs) /\ press_found e used
    | Done Break =>
        poll i s = (r, with_state GAME_OVER (board s tick rest evs)) /\
        exists k, k <> e /\ press_found k used
    | Starved => poll i s = (r, board s tick rest evs) /\ rest = []
    | _ => False
    end.
Proof.
  intros Hi He.
  destruct (scan_on_readings s) as (r0 & t0 & rest0 & ev0 & u0 & E0 & Hrd & Hin0 & Hr0).
  rewrite poll_unfold. simpl. rewrite E0.
  destruct r0 as [k| | |]; simpl; try contradiction.
  - destruct Hr0 as [[-> Hm]|[Hk Hh]].
    + simpl. exists (Done (Flag false)), t0, rest0, ev0, u0. done.
    + destruct (Z.leb_spec 0 k); [|lia].
      destruct (echo_spec i e k (board s t0 rest0 ev0) Hi He Hk)
        as (r & tick & rest & hold & Hhold & Hr).
      destruct r as [t| | |]; try contradiction.
      * destruct Hr as [(rel & Hin & Hrel) Hr]. cbn [input board] in Hin.
        assert (Hused : input s = (u0 ++ hold ++ [rel]) ++ rest).
        { rewrite Hin0, Hin, <- !app_assoc. done. }
        assert (Hp : press_found k (u0 ++ hold ++ [rel])).
        { split; [exact Hk|]. by exists u0, hold, rel. }
        rewrite !board_board in Hr.
        destruct Hr as [(Heq & -> & ->)|(Hne & -> & ->)].
        -- exists (Done (Flag true)), tick, rest, (ev0 ++ press_events k (length hold)),
             (u0 ++ hold ++ [rel]).
           split; [exact Hused|]. split; [done|]. by rewrite <- Heq.
        -- exists (Done Break), tick, rest, (ev0 ++ press_events k (length hold)),
             (u0 ++ hold ++ [rel]).
           split; [exact Hused|]. split; [done|]. by exists k.
      * destruct Hr as (Hin & -> & ->). rewrite board_board.
        exists Starved, tick, [], (ev0 ++ held_events k (length hold)), (input s).
        split; [by rewrite app_nil_r|]. done.
  - destruct Hr0 as (-> & _). exists Starved, t0, [], ev0, (input s).
    split; [by rewrite app_nil_r|]. done.
Qed.

Lemma press_found_length k u : press_found k u -> (0 < length u)%nat.
Proof.
  intros (Hk & hit & hold & rel & -> & Hh & _). rewrite !length_app. simpl. lia.
Qed.

Lemma press_shown_after_miss k u v :
  scan_misses u -> press_shown k v -> press_shown k (u ++ v).
Proof.
  intros Hu (misses & w & -> & Hm & Hp). exists (u :: misses), w.
  split; [by rewrite app_assoc|]. split; [by constructor|exact Hp].
Qed.

Lemma press_found_shown k u : press_found k u -> press_shown k u.
Proof. intros H. exists [], u. split; [done|]. split; [constructor|exact H]. Qed.

Lemma while_on_readings fuel i e s :
  0 <= i -> sequence s !! Z.to_nat i = Some e -> (length (input s) < fuel)%nat ->
  exists r tick rest evs used,
    input s = used ++ rest /\
    match r with
    | Done _ =>
        (while_not_flag fuel i s = (r, board s tick rest evs) /\ press_shown e used) \/
        (while_not_flag fuel i s = (r, with_state GAME_OVER (board s tick rest evs)) /\
         exists k, k <> e /\ press_shown k used)
    | Starved => while_not_flag fuel i s = (r, board s tick rest evs) /\ rest = []
    | _ => False
    end.
Proof.
  intros Hi. revert s. induction fuel as [|fuel IH]; intros s He Hlen; [lia|].
  rewrite while_not_flag_S. simpl.
  destruct (poll_on_readings i e s Hi He) as (r & tick & rest & evs & used & Hin & Hr).
  destruct r as [[[]|]| | |]; try contradiction.
  - destruct Hr as (-> & Hp). exists (Done tt), tick, rest, evs, used.
    split; [exact Hin|]. left. split; [done|]. by apply press_found_shown.
  - destruct Hr as (-> & Hm).
    destruct (IH (board s tick rest evs)) as (r' & tick' & rest' & evs' & used' & Hin' & Hr');
      [exact He | |].
    { cbn [input board]. rewrite Hin, length_app, (scan_misses_length _ Hm) in Hlen. lia. }
    cbn [input board] in Hin'. rewrite !board_board in Hr'.
    exists r', tick', rest', (evs ++ evs'), (used ++ used').
    split; [by rewrite Hin, Hin', app_assoc|].
    destruct r' as [[]| | |]; try contradiction.
    + destruct Hr' as [[E Hp]|[E (k & Hk & Hp)]].
      * left. split; [exact E|]. by apply press_shown_after_miss.
      * right. split; [exact E|]. exists k. split; [exact Hk|].
        by apply press_shown_after_miss.
    + exact Hr'.
  - destruct Hr as (-> & k & Hk & Hp). exists (Done tt), tick, rest, evs, used.
    split; [exact Hin|]. right. split; [done|]. exists k. split; [exact Hk|].
    by apply press_found_shown.
  - destruct Hr as (-> & ->). exists Starved, tick, [], evs, used. done.
Qed.

Lemma verify_on_readings todo (p : nat) s :
  state s = PLAYER_SAYS -> (p + todo <= length (sequence s))%nat ->
  exists r tick rest evs used,
    input s = used ++ rest /\
    match r with
    | Done _ =>
        (verify_from todo (Z.of_nat p) s = (r, board s tick rest evs) /\
         shows (take todo (drop p (sequence s))) used) \/
        (verify_from todo (Z.of_nat p) s = (r, with_state GAME_OVER (board s tick rest evs)) /\
         exists (j : nat) k u w,
           (j < todo)%nat /\ used = u ++ w /\ shows (take j (drop p (sequence s))) u /\
           press_shown k w /\ sequence s !! (p + j)%nat <> Some k)
    | Starved => verify_from todo (Z.of_nat p) s = (r, board s tick rest evs) /\ rest = []
    | _ => False
    end.
Proof.
  revert p s. induction todo as [|todo IH]; intros p s Hst Hlen.
  - exists (Done tt), (uwTick s), (input s), [], []. split; [done|]. left.
    rewrite board_nil. split; [done|]. rewrite take_0. constructor.
  - destruct (lookup_lt_is_Some_2 (sequence s) p) as [e He]; [lia|].
    rewrite verify_from_S. simpl.
    destruct (while_on_readings (S (length (input s))) (Z.of_nat p) e s)
      as (r & tick & rest & evs & used & Hin & Hr); [lia | by rewrite Nat2Z.id | lia |].
    destruct r as [[]| | |]; try contradiction.
    + destruct Hr as [[-> Hp]|[-> (k & Hk & Hp)]]; simpl.
      * rewrite Hst.
        destruct (IH (S p) (board s tick rest evs))
          as (r' & tick' & rest' & evs' & used' & Hin' & Hr'); [exact Hst | simpl; lia |].
        rewrite Nat2Z.inj_succ in Hr'. unfold Z.succ in Hr'.
        cbn [input board sequence] in Hin', Hr'. rewrite !board_board in Hr'.
        exists r', tick', rest', (evs ++ evs'), (used ++ used').
        split; [by rewrite Hin, Hin', app_assoc|].
        rewrite (drop_S _ _ _ He). cbn [take].
        destruct r' as [[]| | |]; try contradiction.
        -- destruct Hr' as [[E Hs]|[E (j & k & u & w & Hj & -> & Hs & Hw & Hne)]].
           ++ left. split; [exact E|]. by constructor.
           ++ right. split; [exact E|]. exists (S j), k, (used ++ u), w.
              split; [lia|]. split; [by rewrite app_assoc|].
              split; [by constructor|]. split; [exact Hw|].
              by rewrite Nat.add_succ_r.
        -- exact Hr'.
      * exists (Done tt), tick, rest, evs, used. split; [exact Hin|]. right.
        split; [done|]. exists 0%nat, k, [], used.
        split; [lia|]. split; [done|]. split; [rewrite take_0; constructor|].
        split; [exact Hp|]. rewrite Nat.add_0_r, He. congruence.
    + destruct Hr as (-> & ->). exists Starved, tick, [], evs, used. done.
Qed.


(** *** What the readings make the code do *)

Lemma same_reading (a b c d : list Sample) (j : nat) x :
  a ++ b = c ++ d -> a !! j = Some x -> (j < length c)%nat -> c !! j = Some x.
Proof.
  intros H Ha Hj.
  assert (Hl : (a ++ b) !! j = Some x) by (by apply lookup_app_l_Some).
  rewrite H, lookup_app_l in Hl by exact Hj. exact Hl.
Qed.

Lemma scan_past_miss u tail s :
  input s = u ++ tail -> scan_misses u ->
  exists tick evs,
    GetPressedButtonIndex s = (Done (-1), board s tick tail evs) /\ Forall is_read evs.
Proof.
  intros Hin [Hlen Hup].
  destruct (scan_on_readings s) as (r & tick & rest & evs & used & E & Hrd & Hin' & Hr).
  rewrite Hin in Hin'.
  destruct r as [k| | |]; try contradiction.
  - destruct Hr as [[-> [Hl _]]|[Hk (Hl & (x & Hx & Hheld) & _)]].
    + apply app_inj_1 in Hin' as [-> ->]; [|lia]. by exists tick, evs.
    + exfalso. symmetry in Hin'.
      pose proof (same_reading _ _ _ _ _ _ Hin' Hx ltac:(lia)) as Hu.
      apply (Hup _ _ Hu). by rewrite Z2Nat.id by lia.
  - destruct Hr as (-> & Hl & _). exfalso.
    apply (f_equal length) in Hin'. rewrite !length_app in Hin'. simpl in Hin'. lia.
Qed.

Lemma scan_finds k hit tail s :
  input s = hit ++ tail -> 0 <= k <= 3 -> scan_hits k hit ->
  exists tick evs,
    GetPressedButtonIndex s = (Done k, board s tick tail evs) /\ Forall is_read evs.
Proof.
  intros Hin Hk (Hlen & (x & Hx & Hheld) & Hup).
  destruct (scan_on_readings s) as (r & tick & rest & evs & used & E & Hrd & Hin' & Hr).
  rewrite Hin in Hin'.
  destruct r as [k'| | |]; try contradiction.
  - destruct Hr as [[-> [Hl Hup']]|[Hk' (Hl & (x' & Hx' & Hheld') & Hup')]].
    + exfalso. pose proof (same_reading _ _ _ _ _ _ Hin' Hx ltac:(lia)) as Hu.
      apply (Hup' _ _ Hu). by rewrite Z2Nat.id by lia.
    + destruct (Z.lt_trichotomy k' k) as [Hlt|[->|Hgt]].
      * exfalso. symmetry in Hin'.
        pose proof (same_reading _ _ _ _ _ _ Hin' Hx' ltac:(lia)) as Hu.
        apply (Hup (Z.to_nat k') x'); [lia|exact Hu|]. by rewrite Z2Nat.id by lia.
      * apply app_inj_1 in Hin' as [-> ->]; [|lia]. by exists tick, evs.
      * exfalso.
        pose proof (same_reading _ _ _ _ _ _ Hin' Hx ltac:(lia)) as Hu.
        apply (Hup' (Z.to_nat k) x); [lia|exact Hu|]. by rewrite Z2Nat.id by lia.
  - destruct Hr as (-> & Hl & Hup'). exfalso. rewrite app_nil_r in Hin'.
    assert (Hu : used !! Z.to_nat k = Some x).
    { rewrite <- Hin'. by apply lookup_app_l_Some. }
    apply (Hup' _ _ Hu). by rewrite Z2Nat.id by lia.
Qed.

Lemma poll_on_miss i u tail s :
  input s = u ++ tail -> scan_misses u ->
  exists tick evs,
    poll i s = (Done (Flag false), board s tick tail evs) /\ Forall is_read evs.
Proof.
  intros Hin Hm. destruct (scan_past_miss u tail s Hin Hm) as (tick & evs & E & Hrd).
  exists tick, evs. split; [|exact Hrd]. rewrite poll_unfold. unfold bind. by rewrite E.
Qed.

Lemma poll_on_press i e k v tail s :
  0 <= i -> sequence s !! Z.to_nat i = Some e ->
  input s = v ++ tail -> press_found k v ->
  exists tick evs,
    pressed k evs /\
    ((k = e /\ poll i s = (Done (Flag true), board s tick tail evs)) \/
     (k <> e /\ poll i s = (Done Break, with_state GAME_OVER (board s tick tail evs)))).
Proof.
  intros Hi He Hin (Hk & hit & hold & rel & -> & Hhit & Hhold & Hrel).
  rewrite <- !app_assoc in Hin.
  destruct (scan_finds k hit (hold ++ [rel] ++ tail) s Hin Hk Hhit) as (t0 & ev0 & E0 & Hrd).
  assert (Hpoll : poll i s = echo i k (board s t0 (hold ++ [rel] ++ tail) ev0)).
  { rewrite poll_unfold. unfold bind at 1. rewrite E0.
    by destruct (Z.leb_spec 0 k); [|lia]. }
  rewrite Hpoll.
  destruct (echo_spec i e k (board s t0 (hold ++ [rel] ++ tail) ev0) Hi He Hk)
    as (r & tick & rest' & hold' & Hh & Hr).
  destruct r as [t| | |]; try contradiction.
  - destruct Hr as [(rel' & Hin' & Hrel') Hr]. cbn [input board app] in Hin'.
    destruct (hold_split_unique _ _ _ _ _ _ _ Hhold Hrel Hh Hrel' Hin') as [<- <-].
    exists tick, (ev0 ++ press_events k (length hold)).
    split; [split; [exact Hk|]; by eexists _, _|].
    rewrite !board_board in Hr.
    destruct Hr as [(Heq & -> & E)|(Hne & -> & E)]; [by left|by right].
  - destruct Hr as (Hin' & _). cbn [input board app] in Hin'. subst hold'.
    exfalso. apply Hrel. by eapply held_throughout.
Qed.

Lemma while_on_press fuel i e k u tail s :
  0 <= i -> sequence s !! Z.to_nat i = Some e ->
  input s = u ++ tail -> press_shown k u -> (length (input s) < fuel)%nat ->
  exists tick evs,
    pressed k evs /\
    ((k = e /\ while_not_flag fuel i s = (Done tt, board s tick tail evs)) \/
     (k <> e /\
      while_not_flag fuel i s = (Done tt, with_state GAME_OVER (board s tick tail evs)))).
Proof.
  intros Hi He Hin (misses & v & -> & Hm & Hv). revert fuel s He Hin.
  induction Hm as [|m misses Hm1 _ IH]; intros fuel s He Hin Hlen.
  - destruct fuel as [|fuel]; [lia|]. cbn [concat app] in Hin.
    destruct (poll_on_press i e k v tail s Hi He Hin Hv) as (tick & evs & Hp & Hr).
    exists tick, evs. split; [exact Hp|].
    rewrite while_not_flag_S. unfold bind.
    destruct Hr as [[Heq ->]|[Hne ->]]; [by left|by right].
  - destruct fuel as [|fuel]; [lia|]. cbn [concat] in Hin. rewrite <- !app_assoc in Hin.
    destruct (poll_on_miss i m (concat misses ++ v ++ tail) s Hin Hm1) as (t0 & ev0 & E0 & Hrd).
    destruct (IH fuel (board s t0 (concat misses ++ v ++ tail) ev0))
      as (tick & evs & Hp & Hr); [exact He | by rewrite <- app_assoc | |].
    { cbn [input board]. rewrite Hin, length_app, (scan_misses_length _ Hm1) in Hlen. lia. }
    exists tick, (ev0 ++ evs). split; [by apply pressed_after_reads|].
    rewrite while_not_flag_S. unfold bind. rewrite E0. rewrite !board_board in Hr.
    exact Hr.
Qed.

Lemma verify_on_shows ks : forall used (p : nat) s rest,
  shows ks used -> state s = PLAYER_SAYS ->
  input s = used ++ rest ->
  take (length ks) (drop p (sequence s)) = ks ->
  exists tick evs,
    verify_from (length ks) (Z.of_nat p) s = (Done tt, board s tick rest evs) /\
    rounds ks evs.
Proof.
  intros used p s rest Hs. revert p s.
  induction Hs as [|k ks u used Hu Hs IH]; intros p s Hst Hin Hseq.
  - exists (uwTick s), []. simpl in Hin. subst rest. rewrite board_nil.
    split; [done|constructor].
  - assert (He : sequence s !! p = Some k).
    { apply (f_equal (fun l => l !! 0%nat)) in Hseq. cbn [length] in Hseq.
      rewrite lookup_take_lt, lookup_drop, Nat.add_0_r in Hseq by lia. exact Hseq. }
    cbn [length] in Hseq. rewrite (drop_S _ _ _ He) in Hseq. simpl in Hseq.
    injection Hseq as Hseq. rewrite <- app_assoc in Hin.
    destruct (while_on_press (S (length (input s))) (Z.of_nat p) k k u (used ++ rest) s)
      as (t1 & e1 & Hp & Hr); [lia | by rewrite Nat2Z.id | exact Hin | exact Hu | lia |].
    destruct Hr as [[_ E]|[Hne _]]; [|done].
    cbn [length]. rewrite verify_from_S. unfold bind, busy_budget, get. rewrite E.
    cbn [state board]. rewrite Hst.
    destruct (IH (S p) (board s t1 (used ++ rest) e1)) as (t2 & e2 & E2 & Hr2);
      [exact Hst | reflexivity | exact Hseq |].
    rewrite Nat2Z.inj_succ in E2. unfold Z.succ in E2. rewrite E2, board_board.
    exists t2, (e1 ++ e2). split; [done|]. by constructor.
Qed.

Lemma verify_on_wrong ks : forall used k w todo (p : nat) s rest,
  shows ks used -> press_shown k w -> state s = PLAYER_SAYS ->
  input s = used ++ w ++ rest ->
  take (length ks) (drop p (sequence s)) = ks ->
  (length ks < todo)%nat -> (p + todo <= length (sequence s))%nat ->
  sequence s !! (p + length ks)%nat <> Some k ->
  exists tick e1 e2,
    verify_from todo (Z.of_nat p) s =
      (Done tt, with_state GAME_OVER (board s tick rest (e1 ++ e2))) /\
    rounds ks e1 /\ pressed k e2.
Proof.
  intros used k w todo p s rest Hs Hw. revert todo p s.
  induction Hs as [|k' ks u used Hu Hs IH]; intros todo p s Hst Hin Hseq Htodo Hlen Hne.
  - destruct todo as [|todo]; [simpl in Htodo; lia|].
    destruct (lookup_lt_is_Some_2 (sequence s) p) as [e He]; [lia|].
    simpl in Hin.
    destruct (while_on_press (S (length (input s))) (Z.of_nat p) e k w rest s)
      as (t1 & e1 & Hp & Hr); [lia | by rewrite Nat2Z.id | exact Hin | exact Hw | lia |].
    destruct Hr as [[Heq _]|[_ E]].
    { exfalso. apply Hne. cbn [length]. rewrite Nat.add_0_r, He. by subst. }
    rewrite verify_from_S. unfold bind, busy_budget, get. rewrite E.
    exists t1, [], e1. split; [done|]. split; [constructor|exact Hp].
  - destruct todo as [|todo]; [simpl in Htodo; lia|].
    assert (He : sequence s !! p = Some k').
    { apply (f_equal (fun l => l !! 0%nat)) in Hseq. cbn [length] in Hseq.
      rewrite lookup_take_lt, lookup_drop, Nat.add_0_r in Hseq by lia. exact Hseq. }
    cbn [length] in Hseq. rewrite (drop_S _ _ _ He) in Hseq. simpl in Hseq.
    injection Hseq as Hseq. rewrite <- app_assoc in Hin.
    destruct (while_on_press (S (length (input s))) (Z.of_nat p) k' k' u
                (used ++ w ++ rest) s)
      as (t1 & e1 & Hp & Hr); [lia | by rewrite Nat2Z.id | exact Hin | exact Hu | lia |].
    destruct Hr as [[_ E]|[Hno _]]; [|done].
    rewrite verify_from_S. unfold bind, busy_budget, get. rewrite E.
    cbn [state board]. rewrite Hst.
    destruct (IH todo (S p) (board s t1 (used ++ w ++ rest) e1))
      as (t2 & e2 & e3 & E2 & Hr2 & Hp3);
      [exact Hst | reflexivity | exact Hseq | cbn [length] in Htodo; lia
       | cbn [sequence board]; lia | |].
    { cbn [sequence board length] in *. by rewrite Nat.add_succ_r in Hne. }
    rewrite Nat2Z.inj_succ in E2. unfold Z.succ in E2. rewrite E2, board_board.
    exists t2, (e1 ++ e2), e3. split; [by rewrite <- app_assoc|].
    split; [by constructor|exact Hp3].
Qed.

Lemma player_on_readings s :
  state s = PLAYER_SAYS -> 0 <= current_level s < MAX_LEVEL ->
  length (sequence s) = Z.to_nat MAX_LEVEL ->
  exists r tick rest evs used,
    input s = used ++ rest /\
    match r with
    | Done _ =>
        (player_says s = (r, next_round (board s tick rest evs)) /\
         shows (take (Z.to_nat (current_level s + 1)) (sequence s)) used) \/
        (player_says s = (r, with_state GAME_OVER (board s tick rest evs)) /\
         exists (j : nat) k u w,
           (j < Z.to_nat (current_level s + 1))%nat /\ used = u ++ w /\
           shows (take j (sequence s)) u /\ press_shown k w /\
           sequence s !! j <> Some k)
    | Starved => player_says s = (r, board s tick rest evs) /\ rest = []
    | _ => False
    end.
Proof.
  intros Hst Hcl Hlen. unfold MAX_LEVEL in *.
  destruct (verify_on_readings (Z.to_nat (current_level s + 1)) 0 s Hst)
    as (r & tick & rest & evs & used & Hin & Hr); [simpl; lia|].
  change (Z.of_nat 0) with 0 in Hr. simpl in Hr. unfold player_says. simpl.
  exists r, tick, rest, evs, used. split; [exact Hin|].
  destruct r as [[]| | |]; try contradiction.
  - destruct Hr as [[-> Hr]|[-> Hr]]; simpl.
    + left. split; [|exact Hr]. rewrite Hst. unfold next_round. simpl.
      unfold MAX_LEVEL. destruct (Z.eqb_spec (current_level s) (5 - 1)); simpl; [done|].
      unfold to_uint8. rewrite Z.mod_small by lia. done.
    + right. by split.
  - destruct Hr as (-> & Hr). done.
Qed.

(** C1.  In PLAYER_SAYS, if the readings of the board show presses of the
    buttons [sequence[0..current_level]], in order and nothing else in
    between, the turn returns: it has used up exactly these readings, has
    registered exactly these presses, and has gone to WIN when
    [current_level = MAX_LEVEL - 1] and otherwise to SIMON_SAYS with the
    level one up.  And only then: a turn that ends in WIN or SIMON_SAYS,
    however it came about, has returned, and the readings it used up show
    exactly the presses [sequence[0..current_level]], in order. *)
Theorem player_advances_iff_reproduced s :
  state s = PLAYER_SAYS -> wf s ->
  let expected := take (Z.to_nat (current_level s + 1)) (sequence s) in
  (forall used rest,
     input s = used ++ rest -> shows expected used ->
     exists tick evs s',
       step s = (Done tt, s') /\ s' = next_round (board s tick rest evs) /\
       presses evs = expected /\
       (current_level s = MAX_LEVEL - 1 ->
        state s' = WIN /\ current_level s' = current_level s) /\
       (current_level s <> MAX_LEVEL - 1 ->
        state s' = SIMON_SAYS /\ current_level s' = current_level s + 1)) /\
  (forall r s',
     step s = (r, s') -> state s' = WIN \/ state s' = SIMON_SAYS ->
     r = Done tt /\ sequence s' = sequence s /\
     (state s' = WIN -> current_level s = MAX_LEVEL - 1) /\
     (state s' = SIMON_SAYS ->
      current_level s <> MAX_LEVEL - 1 /\ current_level s' = current_level s + 1) /\
     exists used, input s = used ++ input s' /\ shows expected used).
Proof.
  intros Hst (Hcl & Hlen & Hall). cbn zeta. split.
  - intros used rest Hin Hs.
    assert (Hn : length (take (Z.to_nat (current_level s + 1)) (sequence s)) =
                 Z.to_nat (current_level s + 1)).
    { rewrite length_take. unfold MAX_LEVEL in *. lia. }
    destruct (verify_on_shows _ used 0 s rest Hs Hst Hin) as (tick & evs & E & Hr).
    { by rewrite drop_0, Hn. }
    rewrite Hn in E. change (Z.of_nat 0) with 0 in E.
    exists tick, evs, (next_round (board s tick rest evs)).
    split; [|split; [reflexivity|split; [by apply presses_rounds|]]].
    + rewrite step_unfold, Hst. unfold player_says, bind, get. rewrite E.
      cbn [state board]. rewrite Hst. unfold next_round. cbn [current_level board].
      destruct (_ =? _); [done|].
      unfold set_current_level, set_state, to_uint8. cbn [current_level state board].
      unfold MAX_LEVEL in *. rewrite Z.mod_small by lia. done.
    + unfold next_round. cbn [current_level board].
      destruct (Z.eqb_spec (current_level s) (MAX_LEVEL - 1)) as [Heq|Hneq];
        (split; [intros H|intros H]); try done.
  - intros r s' Hstep Hs'. rewrite step_unfold, Hst in Hstep.
    destruct (player_on_readings s Hst Hcl Hlen) as (r0 & tick & rest & evs & used & Hin & Hr).
    destruct r0 as [[]| | |]; try contradiction.
    + destruct Hr as [[E Hr]|[E _]]; rewrite E in Hstep.
      * pose proof (f_equal fst Hstep) as H1. pose proof (f_equal snd Hstep) as H2.
        cbn [fst snd] in H1, H2. subst r s'. split; [done|].
        unfold next_round in *. cbn [current_level board] in *.
        destruct (Z.eqb_spec (current_level s) (MAX_LEVEL - 1)) as [Heq|Hneq];
          cbn [with_state with_level state current_level sequence input board] in *.
        -- split; [done|]. split; [done|]. split; [intros H; discriminate H|].
           by exists used.
        -- split; [done|]. split; [intros H; discriminate H|]. split; [done|].
           by exists used.
      * pose proof (f_equal snd Hstep) as H2. cbn [fst snd] in H2. subst s'.
        cbn [with_state state] in Hs'. by destruct Hs'.
    + destruct Hr as (E & _). rewrite E in Hstep.
      pose proof (f_equal snd Hstep) as H2. cbn [fst snd] in H2. subst s'.
      cbn [board state] in Hs'. rewrite Hst in Hs'. by destruct Hs'.
Qed.

(** C2.  In PLAYER_SAYS, if the readings show presses of
    [sequence[0..j-1]] and then a press of a button [k] that is not
    [sequence[j]], the turn returns in GAME_OVER with level and sequence
    as they were.  The last thing it does is the echo of that press: LED
    [k] on, 500 ms, the reads that wait for button [k] itself to be
    released, LED off, 500 ms; every reading after that release is left
    unread, so no later position is checked and no other input waited
    for.  And only then: a turn that ends in GAME_OVER has returned, and
    the readings it used up are a correct prefix followed by one press of
    a button that is not the expected one. *)
Theorem mismatch_ends_round s :
  state s = PLAYER_SAYS -> wf s ->
  (forall (j : nat) k used w rest,
     (j < Z.to_nat (current_level s + 1))%nat ->
     input s = used ++ w ++ rest ->
     shows (take j (sequence s)) used -> press_shown k w ->
     sequence s !! j <> Some k ->
     exists tick before n,
       step s =
         (Done tt,
          with_state GAME_OVER (board s tick rest (before ++ press_events k n))) /\
       presses before = take j (sequence s)) /\
  (forall r s',
     step s = (r, s') -> state s' = GAME_OVER ->
     r = Done tt /\ current_level s' = current_level s /\ sequence s' = sequence s /\
     exists (j : nat) k used w,
       (j < Z.to_nat (current_level s + 1))%nat /\
       input s = used ++ w ++ input s' /\
       shows (take j (sequence s)) used /\ press_shown k w /\
       sequence s !! j <> Some k).
Proof.
  intros Hst (Hcl & Hlen & Hall). split.
  - intros j k used w rest Hj Hin Hs Hw Hne.
    assert (Hn : length (take j (sequence s)) = j).
    { rewrite length_take. unfold MAX_LEVEL in *. lia. }
    destruct (verify_on_wrong _ used k w (Z.to_nat (current_level s + 1)) 0 s rest
                Hs Hw Hst Hin)
      as (tick & e1 & e2 & E & Hr & Hp).
    { by rewrite drop_0, Hn. } { by rewrite Hn. } { unfold MAX_LEVEL in *. simpl. lia. }
    { by rewrite Hn. }
    destruct Hp as [Hk (scan & n & Hscan & ->)].
    exists tick, (e1 ++ scan), n. split.
    + rewrite step_unfold, Hst. unfold player_says, bind, get.
      change 0 with (Z.of_nat 0). rewrite E. by rewrite <- app_assoc.
    + by rewrite presses_app, (presses_rounds _ _ Hr), (presses_reads _ Hscan), app_nil_r.
  - intros r s' Hstep Hs'. rewrite step_unfold, Hst in Hstep.
    destruct (player_on_readings s Hst Hcl Hlen) as (r0 & tick & rest & evs & used & Hin & Hr).
    destruct r0 as [[]| | |]; try contradiction.
    + destruct Hr as [[E Hr]|[E (j & k & u & w & Hj & -> & Hu & Hw & Hne)]];
        rewrite E in Hstep.
      * pose proof (f_equal snd Hstep) as H2. cbn [fst snd] in H2. subst s'.
        unfold next_round in Hs'. cbn [current_level board] in Hs'.
        by destruct (_ =? _).
      * pose proof (f_equal fst Hstep) as H1. pose proof (f_equal snd Hstep) as H2.
        cbn [fst snd] in H1, H2. subst r s'. split; [done|]. split; [done|].
        split; [done|]. exists j, k, u, w. cbn [with_state input board].
        split; [exact Hj|]. split; [by rewrite Hin, <- app_assoc|]. done.
    + destruct Hr as (E & _). rewrite E in Hstep.
      pose proof (f_equal snd Hstep) as H2. cbn [fst snd] in H2. subst s'.
      cbn [board state] in Hs'. rewrite Hst in Hs'. discriminate Hs'.
Qed.

(** *** The gestures of the recorded sessions are presses *)

Lemma other_button_up j k :
  0 <= k <= 3 -> 0 <= j < k -> ~ held j (button_down k).
Proof.
  intros Hk Hj. each_index k Hk;
    assert (Hc : j = 0 \/ j = 1 \/ j = 2) by lia;
    destruct Hc as [-> | [-> | ->]]; try lia; discriminate.
Qed.

Lemma gesture_shown k h : 0 <= k <= 3 -> press_shown k (gesture k h).
Proof.
  intros Hk. apply press_found_shown. split; [exact Hk|].
  exists (replicate (Z.to_nat k + 1) (button_down k)), (replicate h (button_down k)),
    released_board.
  split; [unfold gesture; by rewrite replicate_add, <- app_assoc|].
  split; [|split; [apply Forall_replicate; by apply held_button_down
                  |by apply released_not_held]].
  split; [rewrite length_replicate; lia|]. split.
  - exists (button_down k). split; [apply lookup_replicate_2; lia|by apply held_button_down].
  - intros j x Hj Hx. apply lookup_replicate in Hx as [-> _].
    apply other_button_up; [exact Hk|lia].
Qed.

Lemma plays_shown gs : Forall (fun g => in_range g.1) gs -> shows gs.*1 (plays gs).
Proof.
  induction 1 as [|[k h] gs Hk _ IH]; [constructor|].
  cbn [fmap list_fmap fst]. unfold plays. cbn [flat_map fst snd].
  constructor; [by apply gesture_shown|exact IH].
Qed.


End Proofs.

(** ** The engine the firmware links *)

Lemma mt19937_in_range : distrib_in_range mt19937.
Proof.
  intros g. change (@distrib mt19937 g) with (Mt19937.draw g).
  unfold Mt19937.draw. destruct (Mt19937.next g) as [r g']. cbn [fst].
  unfold to_uint32. rewrite Z.shiftr_div_pow2 by lia.
  pose proof (Z.mod_pos_bound r (2 ^ 32) ltac:(lia)) as Hr.
  split.
  - apply Z.div_pos; lia.
  - assert (r mod 2 ^ 32 * 4 / 2 ^ 32 < 4); [|lia].
    apply Z.div_lt_upper_bound; lia.
Qed.

(** The first output of a default-constructed [mt19937], and the 10000th,
    which is the value the C++ standard fixes for a conforming engine. *)
Example mt19937_first_output : (Mt19937.next (Mt19937.seed 5489)).1 = 3499211612.
Proof. vm_compute. reflexivity. Qed.

Example mt19937_10000th_output :
  (Mt19937.next
     (Nat.iter 9999 (fun g => (Mt19937.next g).2) (Mt19937.seed 5489))).1
  = 4123659995.
Proof. vm_compute. reflexivity. Qed.

(** ** The recorded sessions *)

(** Scenario 1 of the specification: every round reproduced, the eleventh
    turn ends in WIN and the twelfth is back in IDLE. *)
Example all_rounds_reproduced :
  state (won_after 11) = WIN /\ sequence (won_after 11) = [0; 1; 2; 3; 1] /\
  state (won_after 12) = IDLE /\ input (won_after 12) = [].
Proof. vm_compute. repeat split. Qed.

(** Scenario 2: the third press of round three is wrong; the turn ends in
    GAME_OVER and the gesture that follows is never read. *)
Example third_press_wrong :
  state (lost_after 6) = PLAYER_SAYS /\ current_level (lost_after 6) = 2 /\
  state (lost_after 7) = GAME_OVER /\ input (lost_after 7) = play [2].
Proof. vm_compute. repeat split. Qed.

(** ** The claims on the recorded sessions *)

Lemma ends_with {U : Urbg} {A} (x : outcome A * Sys) (r : outcome A) :
  x.1 = r -> x = (r, x.2).
Proof. intros <-. by destruct x. Qed.

Ltac run := vm_compute; reflexivity.
Ltac runs := unfold won_after, lost_after; apply ends_with; vm_compute; reflexivity.
Ltac bounds := split; [apply Z.leb_le | apply Z.ltb_lt]; vm_compute; reflexivity.

(** The last round of the won session: the board shows 0, 1, 2, 3, 1 at
    level 4, on to WIN. *)
Lemma player_advances_witness :
  exists tick evs s',
    step (won_after 10) = (Done tt, s') /\
    s' = next_round (board (won_after 10) tick [] evs) /\
    presses evs = [0; 1; 2; 3; 1] /\ state s' = WIN.
Proof.
  destruct (player_advances_iff_reproduced (won_after 10)) as [Hfwd _]; [run | |].
  { split; [bounds|]. split; [run|].
    replace (sequence (won_after 10)) with [0; 1; 2; 3; 1] by run.
    repeat (constructor; [unfold in_range; lia|]). constructor. }
  destruct (Hfwd (plays [(0, 2%nat); (1, 2%nat); (2, 2%nat); (3, 2%nat); (1, 2%nat)]) [])
    as (tick & evs & s' & Hstep & Hs' & Hp & Hwin & _); [run | |].
  { replace (take (Z.to_nat (current_level (won_after 10) + 1)) (sequence (won_after 10)))
      with [0; 1; 2; 3; 1] by run.
    apply (plays_shown [(0, 2%nat); (1, 2%nat); (2, 2%nat); (3, 2%nat); (1, 2%nat)]).
    repeat (constructor; [unfold in_range; cbn; lia|]). constructor. }
  exists tick, evs, s'. split; [exact Hstep|]. split; [exact Hs'|].
  split; [rewrite Hp; run|]. apply Hwin. run.
Defined.

(** Round three of the lost session: the board shows 0, 1 and then 3 where
    2 is expected; the gesture that follows stays unread. *)
Lemma mismatch_ends_round_witness :
  exists tick before n,
    step (lost_after 6) =
      (Done tt,
       with_state GAME_OVER
         (board (lost_after 6) tick (play [2]) (before ++ press_events 3 n))) /\
    presses before = [0; 1].
Proof.
  destruct (mismatch_ends_round (lost_after 6)) as [Hfwd _]; [run | |].
  { split; [bounds|]. split; [run|].
    replace (sequence (lost_after 6)) with [0; 1; 2; 0; 0] by run.
    repeat (constructor; [unfold in_range; lia|]). constructor. }
  destruct (Hfwd 2%nat 3 (plays [(0, 2%nat); (1, 2%nat)]) (gesture 3 2) (play [2]))
    as (tick & before & n & Hstep & Hp);
    [vm_compute; lia | run | | apply gesture_shown; lia | vm_compute; discriminate |].
  { replace (take 2 (sequence (lost_after 6))) with [0; 1] by run.
    apply (plays_shown [(0, 2%nat); (1, 2%nat)]).
    repeat (constructor; [unfold in_range; cbn; lia|]). constructor. }
  exists tick, before, n. split; [exact Hstep|]. rewrite Hp. run.
Defined.

(** The third demonstration of the won session replays 0, 1, 2. *)
Lemma simon_says_witness :
  exists s',
    step (won_after 5) = (Done tt, s') /\ state s' = PLAYER_SAYS /\
    sequence s' = [0; 1; 2; 0; 0] /\
    trace s' = trace (won_after 5) ++ pulse 0 ++ pulse 1 ++ pulse 2.
Proof.
  destruct (simon_says_replays_prefix (won_after 5) mt19937_in_range)
    as (s' & Hstep & Hst & _ & Hseq & _ & _ & Htr); [run | |].
  { split; [bounds|]. split; [run|].
    replace (sequence (won_after 5)) with [0; 1; 0; 0; 0] by run.
    repeat (constructor; [unfold in_range; lia|]). constructor. }
  exists s'. split; [exact Hstep|]. split; [exact Hst|].
  split; [rewrite Hseq; run|]. rewrite Htr. run.
Defined.


(** The first press of round three: two reads find the button still down,
    the third finds it released, one press is registered. *)
Lemma press_waits_witness :
  exists t s2,
    poll 0 (lost_after 6) = (Done t, s2) /\ t <> Flag false /\
    presses (drop (length (trace (GetPressedButtonIndex (lost_after 6)).2)) (trace s2)) = [0] /\
    input s2 = play [1; 3] ++ play [2].
Proof.
  destruct (press_waits_for_release 0 (lost_after 6) 0
              (GetPressedButtonIndex (lost_after 6)).2 (replicate 2 (button_down 0)))
    as [Hrel _]; [runs | lia | lia | by (exists 0; run) | |].
  { repeat (constructor; [run|]). constructor. }
  destruct (Hrel released_board (play [1; 3] ++ play [2])) as (t & s2 & Hp & Ht & Htr & Hpr & Hin);
    [run | vm_compute; discriminate |].
  exists t, s2. split; [exact Hp|]. split; [exact Ht|]. split; [|exact Hin].
  rewrite Htr, drop_app_length. exact Hpr.
Defined.

(** With the linked engine every stored index is in 0..3. *)
Lemma generated_indices_witness :
  (forall s v s', @draw mt19937 s = (Done v, s') -> 0 <= v <= 3) /\
  (forall n ins,
     Forall (fun v => 0 <= v <= 3) (sequence (@main_loop mt19937 n (boot ins)).2)).
Proof. exact (generated_indices_in_range mt19937_in_range). Defined.

(** The lost session enters GAME_OVER dark and its first toggle lights all
    four LEDs. *)
Lemma one_led_witness :
  ODR_after 0 (trace (lost_after 7)) = 0 /\
  ODR_after 0 (trace (lost_after 7) ++ [TogglePin GPIOA ALL_LEDS]) = ALL_LEDS.
Proof.
  destruct (one_led_outside_loss_flash 7 lost_game (lost_after 7) mt19937_in_range)
    as [Hdark Hstep]; [runs|].
  split; [exact Hdark|].
  destruct (Hstep _ _ (ends_with (step (lost_after 7)) (Done tt) ltac:(run)))
    as (evs & _ & _ & Hflash).
  destruct Hflash as (_ & Hall & _); [run|]. exact Hall.
Defined.

(** With buttons 1 and 3 down the scan stops at button 1. *)
Lemma scan_witness :
  exists s',
    @GetPressedButtonIndex mt19937 (boot (replicate 4 two_down)) = (Done 1, s') /\
    trace s' = [ReadPin GPIOB GPIO_PIN_3 GPIO_PIN_SET; ReadPin GPIOB GPIO_PIN_4 GPIO_PIN_RESET].
Proof.
  destruct (scan_returns_lowest_active (@boot mt19937 (replicate 4 two_down))
              two_down two_down two_down two_down [] 0x0028)
    as (k & s' & Hscan & Hk & Htr & _); [reflexivity..|].
  assert (Hk1 : k = 1).
  { destruct Hk as [[_ Hnone]|(Hk & Hact & Hlow)].
    - specialize (Hnone 1 ltac:(lia)). discriminate Hnone.
    - assert (Hc : k = 0 \/ k = 1 \/ k = 2 \/ k = 3) by lia.
      destruct Hc as [-> | [-> | [-> | ->]]]; try discriminate Hact; [reflexivity|].
      specialize (Hlow 1 ltac:(lia)). discriminate Hlow. }
  subst k. exists s'. split; [exact Hscan|]. rewrite Htr. reflexivity.
Defined.

(** Round three of the lost session ends the same with Start held down
    throughout. *)
Lemma start_ignored_witness :
  state (step (with_input (map hide_port_A (input (lost_after 6))) (lost_after 6))).2
  = state (step (lost_after 6)).2.
Proof.
  destruct (start_ignored_outside_idle (lost_after 6)
              (map hide_port_A (input (lost_after 6))) (input (lost_after 6)))
    as (_ & Hst & _); [vm_compute; discriminate | run |].
  rewrite Hst. run.
Defined.

(** After the lost session, at level 2, Start begins again at level 0. *)
Lemma new_session_witness :
  exists s2,
    @main_loop mt19937 2 (with_input [start_pressed 4321] (lost_after 8)) = (Done tt, s2) /\
    state s2 = PLAYER_SAYS /\ current_level s2 = 0.
Proof.
  destruct (new_session_starts_afresh mt19937_in_range) as (_ & Hnew & _).
  destruct (Hnew (with_input [start_pressed 4321] (lost_after 8)) (start_pressed 4321) [])
    as (s2 & Hrun & Hst & Hcl & _); [run..|].
  exists s2. exact (conj Hrun (conj Hst Hcl)).
Defined.

(** The won session never leaves the arrays. *)
Lemma array_accesses_witness :
  (@main_loop mt19937 12 (boot won_game)).1 <> BadIndex /\
  0 <= current_level (won_after 12) <= MAX_LEVEL - 1.
Proof.
  destruct (array_accesses_in_bounds mt19937_in_range) as [Hrun _].
  destruct (Hrun 12%nat won_game) as (Hok & Hcl & _). exact (conj Hok Hcl).
Defined.

(** C6 as stated fails: in the lost session, after the first toggle of the
    loss animation, four LEDs are lit. *)
Lemma loss_flash_lights_all_four :
  ~ (forall n ins pre suf,
       trace (@main_loop mt19937 n (boot ins)).2 = pre ++ suf ->
       (leds_lit (ODR_after 0 pre) <= 1)%nat).
Proof.
  intros H.
  specialize (H 8%nat lost_game (take 79 (trace (lost_after 8)))
                (drop 79 (trace (lost_after 8))) (eq_sym (take_drop 79 _))).
  vm_compute in H. lia.
Qed.

(** The last round of the won session, read off the board. *)
Lemma reproduced_gestures_witness :
  exists tick evs,
    step (won_after 10) = (Done tt, next_round (board (won_after 10) tick [] evs)) /\
    presses evs = [0; 1; 2; 3; 1].
Proof.
  destruct (reproduced_gestures_advance (won_after 10)
              [(0, 2%nat); (1, 2%nat); (2, 2%nat); (3, 2%nat); (1, 2%nat)] [])
    as (tick & evs & Hstep & Hp); [run | | run | run |].
  { split; [bounds|]. split; [run|].
    replace (sequence (won_after 10)) with [0; 1; 2; 3; 1] by run.
    repeat (constructor; [unfold in_range; lia|]). constructor. }
  exists tick, evs. exact (conj Hstep Hp).
Defined.

(** Round three of the lost session, read off the board: the gesture that
    follows the wrong press stays unread. *)
Lemma wrong_gesture_witness :
  exists tick evs,
    step (lost_after 6) =
      (Done tt, with_state GAME_OVER (board (lost_after 6) tick (play [2]) evs)) /\
    presses evs = [0; 1; 3].
Proof.
  destruct (wrong_gesture_loses (lost_after 6) [(0, 2%nat); (1, 2%nat)] 3 2 (play [2]))
    as (tick & evs & Hstep & Hp);
    [run | | vm_compute; lia | run | unfold in_range; lia | vm_compute; discriminate | run |].
  { split; [bounds|]. split; [run|].
    replace (sequence (lost_after 6)) with [0; 1; 2; 0; 0] by run.
    repeat (constructor; [unfold in_range; lia|]). constructor. }
  exists tick, evs. exact (conj Hstep Hp).
Defined.

(** ** More of the recorded sessions *)

Ltac well_formed l :=
  split; [bounds|]; split; [run|];
  match goal with |- Forall _ ?sq => replace sq with l by run end;
  repeat (constructor; [unfold in_range; lia|]); constructor.

(** The third demonstration of the won session shows three positions and
    sleeps three seconds. *)
Lemma turn_sleeps_witness :
  exists evs,
    trace (step (won_after 5)).2 = trace (won_after 5) ++ evs /\ duration evs = 3000.
Proof.
  destruct (turn_sleeps_for (won_after 5) (step (won_after 5)).2 mt19937_in_range)
    as (evs & Htr & Hd); [well_formed [0; 1; 0; 0; 0] | runs |].
  exists evs. split; [exact Htr|]. rewrite Hd. run.
Defined.

(** The loss animation of the lost session leaves the unread gesture
    unread. *)
Lemma output_turns_witness : input (step (lost_after 7)).2 = input (lost_after 7).
Proof.
  destruct (output_turns_ignore_input (lost_after 7) []) as [_ H]; [right; left; run|].
  exact H.
Defined.

(** At power-up a press of button 2 is not seen. *)
Lemma buttons_ignored_witness :
  @step mt19937 (with_input (map hide_port_B [button_down 2]) (boot [button_down 2])) =
    ((step (boot [button_down 2])).1,
     with_input (map hide_port_B (input (step (boot [button_down 2])).2))
       (step (boot [button_down 2])).2).
Proof. exact (buttons_ignored_in_idle (@boot mt19937 [button_down 2]) eq_refl). Defined.

(** Three readings with Start released, then the press: three turns of
    the loop leave the press to be read. *)
Lemma idle_until_start_witness :
  input (@main_loop mt19937 3 (boot (replicate 3 released_board ++ [start_pressed 9]))).2
  = [start_pressed 9].
Proof.
  pose proof (idle_until_start
                (@boot mt19937 (replicate 3 released_board ++ [start_pressed 9]))
                (replicate 3 released_board) [start_pressed 9] eq_refl
                ltac:(repeat constructor) eq_refl) as E.
  change (length (replicate 3 released_board)) with 3%nat in E. rewrite E. reflexivity.
Defined.

(** Round three of the won session plays the first three draws of the
    engine seeded at the Start press. *)
Lemma seeded_stream_witness :
  exists x,
    x ∈ won_game /\ pin_level (IDR_A x) START_Pin = GPIO_PIN_RESET /\
    take 3 (sequence (won_after 6)) = draws 3 (Mt19937.seed (at_tick x)).
Proof.
  destruct (sequence_is_seeded_stream 6 won_game (main_loop 6 (boot won_game)).1
              (won_after 6) mt19937_in_range)
    as (x & Hx & Hlow & Htake & _);
    [apply surjective_pairing | vm_compute; discriminate |].
  exists x. split; [exact Hx|]. split; [exact Hlow|].
  replace (drawn (won_after 6)) with 3%nat in Htake by run. exact Htake.
Defined.

(** The won session ends with its five rounds in the trace. *)
Lemma full_session_witness :
  exists pre evs,
    trace (won_after 11) = pre ++ ReadPin GPIOA START_Pin GPIO_PIN_RESET :: evs /\
    session (sequence (won_after 11)) 5 evs.
Proof.
  apply (win_follows_a_full_session 11 won_game (main_loop 11 (boot won_game)).1
           (won_after 11) mt19937_in_range); [apply surjective_pairing | run].
Defined.

(** With Start pressed at tick 1234 the engine draws 0, 1, 2, 3, 1, and the
    player who presses these wins. *)
Lemma reproducing_player_witness :
  exists s,
    @main_loop mt19937 11
      (boot (start_pressed 1234 ::
             flat_map plays
               [[(0, 2%nat)]; [(0, 2%nat); (1, 0%nat)]; [(0, 1%nat); (1, 2%nat); (2, 5%nat)];
                [(0, 2%nat); (1, 2%nat); (2, 2%nat); (3, 2%nat)];
                [(0, 0%nat); (1, 1%nat); (2, 0%nat); (3, 1%nat); (1, 0%nat)]] ++ []))
      = (Done tt, s) /\
    state s = WIN /\ sequence s = [0; 1; 2; 3; 1].
Proof.
  destruct (reproducing_player_wins 1234
              [[(0, 2%nat)]; [(0, 2%nat); (1, 0%nat)]; [(0, 1%nat); (1, 2%nat); (2, 5%nat)];
               [(0, 2%nat); (1, 2%nat); (2, 2%nat); (3, 2%nat)];
               [(0, 0%nat); (1, 1%nat); (2, 0%nat); (3, 1%nat); (1, 0%nat)]] []
              mt19937_in_range)
    as (s & Hrun & Hst & Hseq & _); [reflexivity | |].
  { intros k gs H.
    do 5 (destruct k as [|k]; [injection H as <-; vm_compute; reflexivity|]).
    discriminate H. }
  exists s. split; [exact Hrun|]. split; [exact Hst|]. rewrite Hseq. run.
Defined.

(** In round three of the lost session, five readings with every button
    up leave the machine waiting. *)
Lemma no_press_witness :
  exists tick evs,
    step (with_input (replicate 5 released_board) (lost_after 6)) =
      (Starved, board (with_input (replicate 5 released_board) (lost_after 6)) tick [] evs) /\
    Forall is_read evs.
Proof.
  apply (no_press_no_progress (with_input (replicate 5 released_board) (lost_after 6)));
    [run | apply Z.leb_le; run |].
  apply Forall_replicate. intros k Hk. by apply released_not_held.
Defined.
